(** * pi-ralph: the loop manager and the overlay's confirmation prompt

    A shallow embedding of [LoopManager] (loop-manager.ts) and of
    [RalphOverlay.handleInput] (overlay.ts), followed by the properties of
    the reconciliation engine, the focus tracker, the poll scheduler and the
    confirmation prompt. The rest of the overlay (its session, the
    outcomes of its commands, [render]), the widget (widget.ts), the
    command builder and the waiting loop of the tool (ralph-loop-tool.ts)
    and the persisted focus (index.ts) follow, with their properties at
    the end.

    Conventions of the embedding:
    - a JS [number] is a [Z]: the code computes and compares only with
      integers (indices, counters, exit codes, timestamps); the other
      numbers of a record are copied from one record to the next and never
      looked at;
    - [string | null] is [option string]; JS truthiness of such a value is
      [truthy];
    - a JS [Map] keeps its keys in insertion order, and the merge relies on
      that order, so it is an association list with the Map's own
      [get]/[set]/[delete];
    - a [Set<string>] that is only tested for membership is a [gset string];
    - [Date.now()] is a parameter [now] of the operation that reads it;
    - [emitChange()] is counted in the field [notifications]: listeners are
      callbacks of other components and are not run here (those of this
      repository only read the manager);
    - the number that [formatDuration] receives may be any JS number: it
      is a rational or not finite, and the divisions of [formatDuration]
      round their quotient to a double as JS does;
    - a string is the sequence of its code units, one character of a
      [string] for each; the conversion of a number to a string is a
      parameter [String_];
    - the functions of the TUI library and of the theme ([fg],
      [truncateToWidth], [visibleWidth]) are the fields of a record [Ui];
    - a method that awaits a command is taken up where the command has
      ended, with the result of the command as an argument;
    - a call of the manager from the overlay is an effect of the overlay;
      the overlay's own change listener, which [cycleFocus] calls before
      it returns, is run with the input that caused it. *)

From Stdlib Require Import ZArith Ascii QArith Qround.
From stdpp Require Import base list strings gmap pretty.

#[local] Set Warnings "-register-all".

Local Open Scope Z_scope.

(** ** JavaScript primitives *)

Module Js.

(** [s.startsWith(p)] *)
Definition startsWith (s p : string) : bool := String.prefix p s.

(** Truthiness of a [string | null]: neither [null] nor the empty string. *)
Definition truthy (s : option string) : bool :=
  match s with
  | Some (String _ _) => true
  | _ => false
  end.

(** [a[i] ?? null] for a JS number [i] holding an integer. *)
Definition at_index {A} (a : list A) (i : Z) : option A :=
  if i <? 0 then None else a !! Z.to_nat i.

(** [a.findIndex(p)], with [-1] as [None]. *)
Fixpoint findIndex {A} (p : A → bool) (a : list A) : option nat :=
  match a with
  | [] => None
  | x :: a' => if p x then Some O else S <$> findIndex p a'
  end.

(** [Map<string, V>]: bindings in insertion order, keys unique. *)
Definition Map (V : Type) : Type := list (string * V).

Section map.
Context {V : Type}.

Fixpoint get (k : string) (m : Map V) : option V :=
  match m with
  | [] => None
  | (k', v) :: m' => if decide (k' = k) then Some v else get k m'
  end.

Definition has (k : string) (m : Map V) : bool :=
  match get k m with Some _ => true | None => false end.

(** [m.set(k, v)]: an existing key keeps its position, a new key goes last. *)
Fixpoint set (k : string) (v : V) (m : Map V) : Map V :=
  match m with
  | [] => [(k, v)]
  | (k', v') :: m' =>
      if decide (k' = k) then (k, v) :: m' else (k', v') :: set k v m'
  end.

(** [m.delete(k)] *)
Fixpoint delete (k : string) (m : Map V) : Map V :=
  match m with
  | [] => []
  | (k', v') :: m' =>
      if decide (k' = k) then m' else (k', v') :: delete k m'
  end.

(** [new Map(entries)] *)
Definition of_entries (entries : list (string * V)) : Map V :=
  fold_left (λ m kv, set kv.1 kv.2 m) entries [].

Definition keys (m : Map V) : list string := m.*1.
Definition values (m : Map V) : list V := m.*2.
End map.

(** A JSON value as [JSON.parse] returns it. *)
Inductive json : Type :=
  | JNull
  | JBool (b : bool)
  | JNum (n : Z)
  | JStr (s : string)
  | JArr (items : list json)
  | JObj (fields : list (string * json)).

(** [raw?.name]: the property of an object, [undefined] on anything else.
    In an object literal with a repeated key the last binding wins. *)
Definition prop (raw : json) (name : string) : option json :=
  match raw with
  | JObj fields => get name (of_entries fields)
  | _ => None
  end.

(** [typeof x === "string" ? x : undefined] *)
Definition as_string (x : option json) : option string :=
  match x with Some (JStr s) => Some s | _ => None end.

(** [typeof x === "number" ? x : undefined] *)
Definition as_number (x : option json) : option Z :=
  match x with Some (JNum n) => Some n | _ => None end.

End Js.

(** ** loop-manager.ts *)

Module LoopManager.
Import Js.

Inductive LoopSource : Type := Tool | Discovered.

Global Instance LoopSource_eq_dec : EqDecision LoopSource.
Proof. solve_decision. Defined.

(** The PTY session of a tool-started loop is an opaque object; only its
    identity matters to the manager. *)
Definition PtySession : Type := nat.

Record TrackedLoop : Type := mkLoop {
  id : string;
  pid : option Z;
  directory : option string;
  worktree : option string;
  status : string;
  iteration : Z;
  maxIterations : Z;
  hat : option string;
  elapsedSecs : Z;
  backend : option string;
  source : LoopSource;
  ptySession : option PtySession;
  removed : bool;
  lastSeenAt : Z;
}.

Record State : Type := mkState {
  loops : list TrackedLoop;
  focusedIndex : Z;
  pollInFlight : bool;
  consecutivePollFailures : Z;
  lastPollError : option string;
  notifications : nat;
}.

(** [new LoopManager(pi)] *)
Definition init : State :=
  {| loops := []; focusedIndex := 0; pollInFlight := false;
     consecutivePollFailures := 0; lastPollError := None;
     notifications := O |}.

Definition with_loops (ls : list TrackedLoop) (st : State) : State :=
  {| loops := ls; focusedIndex := focusedIndex st;
     pollInFlight := pollInFlight st;
     consecutivePollFailures := consecutivePollFailures st;
     lastPollError := lastPollError st; notifications := notifications st |}.

Definition with_focus (i : Z) (st : State) : State :=
  {| loops := loops st; focusedIndex := i;
     pollInFlight := pollInFlight st;
     consecutivePollFailures := consecutivePollFailures st;
     lastPollError := lastPollError st; notifications := notifications st |}.

Definition with_inFlight (b : bool) (st : State) : State :=
  {| loops := loops st; focusedIndex := focusedIndex st;
     pollInFlight := b;
     consecutivePollFailures := consecutivePollFailures st;
     lastPollError := lastPollError st; notifications := notifications st |}.

Definition with_diagnostics (n : Z) (e : option string) (st : State) : State :=
  {| loops := loops st; focusedIndex := focusedIndex st;
     pollInFlight := pollInFlight st;
     consecutivePollFailures := n;
     lastPollError := e; notifications := notifications st |}.

Definition emitChange (st : State) : State :=
  {| loops := loops st; focusedIndex := focusedIndex st;
     pollInFlight := pollInFlight st;
     consecutivePollFailures := consecutivePollFailures st;
     lastPollError := lastPollError st;
     notifications := S (notifications st) |}.

(** [getLoops()] with the default options: the loops not marked removed. *)
Definition active (ls : list TrackedLoop) : list TrackedLoop :=
  List.filter (λ l, negb (removed l)) ls.

Definition getLoops (includeRemoved : bool) (st : State) : list TrackedLoop :=
  if includeRemoved then loops st else active (loops st).

Definition getFocused (st : State) : State * option TrackedLoop :=
  let act := getLoops false st in
  if decide (length act = O) then (st, None)
  else
    let idx := Z.min (Z.max (focusedIndex st) 0) (Z.of_nat (length act) - 1) in
    (with_focus idx st, at_index act idx).

Inductive Direction : Type := Forward | Backward.

Definition direction_value (d : Direction) : Z :=
  match d with Forward => 1 | Backward => -1 end.

(** JS [%] is the remainder of the truncated division: [Z.rem]. *)
Definition cycleFocus (direction : Direction) (st : State)
  : State * option TrackedLoop :=
  let act := getLoops false st in
  if decide (length act = O) then (emitChange (with_focus 0 st), None)
  else
    let n := Z.of_nat (length act) in
    let idx := Z.rem (focusedIndex st + direction_value direction + n) n in
    (emitChange (with_focus idx st), at_index act idx).

(** The argument of [upsertToolLoop]. [command] is accepted and ignored. *)
Record ToolLoop : Type := mkToolLoop {
  tl_id : string;
  tl_pid : Z;
  tl_directory : string;
  tl_worktree : option string;
  tl_ptySession : option PtySession;
}.

Definition tool_record (now : Z) (loop : ToolLoop) : TrackedLoop :=
  {| id := tl_id loop;
     pid := Some (tl_pid loop);
     directory := Some (tl_directory loop);
     worktree := tl_worktree loop;
     status := "running";
     iteration := 0;
     maxIterations := 0;
     hat := None;
     elapsedSecs := 0;
     backend := None;
     source := Tool;
     ptySession := tl_ptySession loop;
     removed := false;
     lastSeenAt := now |}.

(** [{...existing, ...next, source: "tool", ptySession, removed: false,
    lastSeenAt: now}]: [next] carries every field of a [TrackedLoop], so
    nothing of [existing] survives the second spread. *)
Definition upsert_overwrite (now : Z) (existing next : TrackedLoop)
    (loop : ToolLoop) : TrackedLoop :=
  {| id := id next;
     pid := pid next;
     directory := directory next;
     worktree := worktree next;
     status := status next;
     iteration := iteration next;
     maxIterations := maxIterations next;
     hat := hat next;
     elapsedSecs := elapsedSecs next;
     backend := backend next;
     source := Tool;
     ptySession := tl_ptySession loop;
     removed := false;
     lastSeenAt := now |}.

Definition upsertToolLoop (now : Z) (loop : ToolLoop) (st : State) : State :=
  let existingIdx :=
    findIndex (λ l, bool_decide (id l = tl_id loop)) (loops st) in
  let next := tool_record now loop in
  match existingIdx with
  | Some i =>
      match loops st !! i with
      | Some existing =>
          emitChange
            (with_loops (<[i := upsert_overwrite now existing next loop]>
                           (loops st)) st)
      | None => emitChange st
      end
  | None =>
      let st1 := with_loops (loops st ++ [next]) st in
      let st2 :=
        if decide (length (getLoops false st1) = 1%nat)
        then with_focus 0 st1 else st1 in
      emitChange st2
  end.

Definition setFocusById (target : string) (st : State) : State :=
  let act := getLoops false st in
  match findIndex (λ l, bool_decide (id l = target)) act with
  | Some idx => emitChange (with_focus (Z.of_nat idx) st)
  | None => st
  end.

(** *** mergePolled *)

(** [next.directory && !next.directory.startsWith("(")] *)
Definition usable_directory (d : option string) : bool :=
  match d with
  | Some s => truthy d && negb (startsWith s "(")
  | None => false
  end.

(** The search of lines 265-279: the first binding of [byId], in the Map's
    order, of a tool-started loop whose key starts with ["primary-"] and
    whose directory is strictly equal to the candidate's. *)
Definition primary_match (next : TrackedLoop)
    (entry : string * TrackedLoop) : bool :=
  bool_decide (source entry.2 = Tool)
  && startsWith entry.1 "primary-"
  && bool_decide (directory entry.2 = directory next).

Definition find_primary (byId : Map TrackedLoop) (next : TrackedLoop)
  : option (string * TrackedLoop) :=
  List.find (primary_match next) byId.

(** What the rekey step decides for a candidate: [Some] of the binding
    that is taken out of [byId] and becomes [existing]. *)
Definition rekey_target (byId : Map TrackedLoop) (next : TrackedLoop)
  : option (string * TrackedLoop) :=
  match get (id next) byId with
  | Some _ => None
  | None =>
      if decide (id next = "(primary)") then find_primary byId next else None
  end.

(** [{...next, removed: false, lastSeenAt: now}] *)
Definition insert_new (now : Z) (next : TrackedLoop) : TrackedLoop :=
  {| id := id next;
     pid := pid next;
     directory := directory next;
     worktree := worktree next;
     status := status next;
     iteration := iteration next;
     maxIterations := maxIterations next;
     hat := hat next;
     elapsedSecs := elapsedSecs next;
     backend := backend next;
     source := source next;
     ptySession := ptySession next;
     removed := false;
     lastSeenAt := now |}.

(** [{...existing, ...next, directory, worktree, source: existing.source,
    ptySession: existing.ptySession, removed: false, lastSeenAt: now}] *)
Definition merge_existing (now : Z) (existing next : TrackedLoop)
  : TrackedLoop :=
  {| id := id next;
     pid := pid next;
     directory :=
       if usable_directory (directory next)
       then directory next else directory existing;
     worktree :=
       match worktree next with
       | Some w => Some w
       | None => worktree existing
       end;
     status := status next;
     iteration := iteration next;
     maxIterations := maxIterations next;
     hat := hat next;
     elapsedSecs := elapsedSecs next;
     backend := backend next;
     source := source existing;
     ptySession := ptySession existing;
     removed := false;
     lastSeenAt := now |}.

(** One turn of [for (const next of polled)]. *)
Definition merge_step (now : Z)
    (acc : Map TrackedLoop * gset string) (next : TrackedLoop)
  : Map TrackedLoop * gset string :=
  let byId := acc.1 in
  let seen := {[ id next ]} ∪ acc.2 in
  match get (id next) byId with
  | Some existing =>
      (set (id next) (merge_existing now existing next) byId, seen)
  | None =>
      match rekey_target byId next with
      | Some (existId, existLoop) =>
          (set (id next) (merge_existing now existLoop next)
               (delete existId byId), seen)
      | None => (set (id next) (insert_new now next) byId, seen)
      end
  end.

Definition merge_loop (now : Z) (polled : list TrackedLoop)
    (acc : Map TrackedLoop * gset string) : Map TrackedLoop * gset string :=
  fold_left (merge_step now) polled acc.

Definition mark (l : TrackedLoop) : TrackedLoop :=
  {| id := id l;
     pid := pid l;
     directory := directory l;
     worktree := worktree l;
     status := status l;
     iteration := iteration l;
     maxIterations := maxIterations l;
     hat := hat l;
     elapsedSecs := elapsedSecs l;
     backend := backend l;
     source := source l;
     ptySession := ptySession l;
     removed := true;
     lastSeenAt := lastSeenAt l |}.

(** Lines 312-316. The loop assigns [loop.removed = true] on the objects
    held by [byId]; the array [this.loops] that shares them is replaced
    below, so the assignment is an update of the Map's values. *)
Definition mark_missing (seen : gset string) (byId : Map TrackedLoop)
  : Map TrackedLoop :=
  (λ kv : string * TrackedLoop,
     (kv.1,
      if bool_decide (id kv.2 ∉ seen) && bool_decide (source kv.2 ≠ Tool)
      then mark kv.2 else kv.2)) <$> byId.

(** Lines 318-324: the two loops that push onto [orderedIds]. *)
Definition ordered_ids (prevOrder : list string) (byId : Map TrackedLoop)
  : list string :=
  let kept :=
    fold_left (λ acc i, if has i byId then acc ++ [i] else acc)
              prevOrder [] in
  fold_left (λ acc i, if bool_decide (i ∈ acc) then acc else acc ++ [i])
            (keys byId) kept.

(** The ghost record of a pass: the keys the rekey step took out of
    [byId], in the order of the candidates that caused it. *)
Fixpoint rekey_trace (now : Z) (polled : list TrackedLoop)
    (acc : Map TrackedLoop * gset string) : list string :=
  match polled with
  | [] => []
  | next :: rest =>
      match rekey_target acc.1 next with
      | Some (existId, _) => [existId]
      | None => []
      end ++ rekey_trace now rest (merge_step now acc next)
  end.

Definition start_map (ls : list TrackedLoop) : Map TrackedLoop :=
  of_entries ((λ l, (id l, l)) <$> ls).

Definition merged_loops (now : Z) (polled ls : list TrackedLoop)
  : list TrackedLoop :=
  let r := merge_loop now polled (start_map ls, ∅) in
  let byId := mark_missing r.2 r.1 in
  omap (λ i, get i byId) (ordered_ids (id <$> ls) byId).

Definition mergePolled (now : Z) (polled : list TrackedLoop) (st : State)
  : State :=
  let st1 := with_loops (merged_loops now polled (loops st)) st in
  let act := getLoops false st1 in
  let st2 :=
    if decide (length act = O) then with_focus 0 st1
    else with_focus (Z.min (focusedIndex st1) (Z.of_nat (length act) - 1)) st1
  in
  emitChange st2.

(** *** parseLoopsJson *)

(** What the manager takes from its host: [JSON.parse] ([None] when it
    throws), [String.prototype.trim] and [process.cwd()]. *)
Record Host : Type := mkHost {
  JSON_parse : string → option json;
  trim : string → string;
  process_cwd : string;
}.

Inductive Completion (A : Type) : Type :=
  | Normal (a : A)
  | Throw (message : string).
Arguments Normal {A} a.
Arguments Throw {A} message.

(** [s != null && s.length > 0 && s.startsWith("/")] *)
Definition isAbsPath (s : option string) : bool :=
  match s with
  | Some p => truthy s && startsWith p "/"
  | None => false
  end.

(** The directory expression of lines 377-386. *)
Definition parse_directory (raw : json) : option string :=
  let workspace := as_string (prop raw "workspace") in
  let worktreePath := as_string (prop raw "worktree_path") in
  if isAbsPath (as_string (prop raw "directory"))
  then as_string (prop raw "directory")
  else if isAbsPath (as_string (prop raw "path"))
  then as_string (prop raw "path")
  else if isAbsPath workspace then workspace
  else if isAbsPath worktreePath then worktreePath
  else None.

(** The callback of [data.map(...)]: [None] is the [null] that the
    following [filter] drops. *)
Definition parse_record (now : Z) (raw : json) : option TrackedLoop :=
  let id_ :=
    match as_string (prop raw "loop_id") with
    | Some s => Some s
    | None => as_string (prop raw "id")
    end in
  if negb (truthy id_) then None
  else
    Some
      {| id := default "" id_;
         pid := as_number (prop raw "pid");
         directory := parse_directory raw;
         worktree := as_string (prop raw "worktree");
         status :=
           match as_string (prop raw "state") with
           | Some s => s
           | None => default "unknown" (as_string (prop raw "status"))
           end;
         iteration := default 0 (as_number (prop raw "iteration"));
         maxIterations :=
           match as_number (prop raw "max_iterations") with
           | Some n => n
           | None => default 0 (as_number (prop raw "maxIterations"))
           end;
         hat := as_string (prop raw "hat");
         elapsedSecs :=
           match as_number (prop raw "elapsed_secs") with
           | Some n => n
           | None => default 0 (as_number (prop raw "elapsedSecs"))
           end;
         backend := as_string (prop raw "backend");
         source := Discovered;
         ptySession := None;
         removed := false;
         lastSeenAt := now |}.

Definition parseLoopsJson (host : Host) (now : Z) (stdout : string)
  : Completion (list TrackedLoop) :=
  if negb (truthy (Some stdout)) then Normal []
  else
    match JSON_parse host stdout with
    | None => Throw "Failed to parse JSON from `ralph loops list --json`"
    | Some (JArr data) => Normal (omap (parse_record now) data)
    | Some _ =>
        Throw "Unexpected JSON shape from `ralph loops list --json` (expected array)"
    end.

(** *** poll *)

(** How one [await this.pi.exec(...)] ends: the promise resolves with an
    exit code and an output, or it rejects. *)
Inductive ExecOutcome : Type :=
  | Exited (code : Z) (stdout : option string)
  | Rejected (message : string).

(** The manager is single-threaded, and other calls on it can run only
    while [poll] is suspended in an [await]. An [Exec] therefore answers
    for one directory and also hands back the manager as those calls left
    it. *)
Definition Exec : Type := string → State → ExecOutcome * State.

(** An [Exec] during which nothing else touches the manager. *)
Definition quiet (outcome : string → ExecOutcome) : Exec :=
  λ dir st, (outcome dir, st).

(** [dirs.add(d)] on a [Set] iterated in insertion order. *)
Definition set_add (d : string) (dirs : list string) : list string :=
  if bool_decide (d ∈ dirs) then dirs else dirs ++ [d].

Definition poll_dirs (host : Host) (st : State) : list string :=
  let dirs :=
    fold_left
      (λ dirs loop,
         match directory loop with
         | Some d => if truthy (directory loop) then set_add d dirs else dirs
         | None => dirs
         end)
      (loops st) [] in
  if decide (length dirs = O) then set_add (process_cwd host) dirs else dirs.

(** [if (!loop.directory) loop.directory = dir] *)
Definition tag_directory (dir : string) (loop : TrackedLoop) : TrackedLoop :=
  if truthy (directory loop) then loop
  else
    {| id := id loop;
       pid := pid loop;
       directory := Some dir;
       worktree := worktree loop;
       status := status loop;
       iteration := iteration loop;
       maxIterations := maxIterations loop;
       hat := hat loop;
       elapsedSecs := elapsedSecs loop;
       backend := backend loop;
       source := source loop;
       ptySession := ptySession loop;
       removed := removed loop;
       lastSeenAt := lastSeenAt loop |}.

(** [for (const dir of dirs)], with [acc = (allParsed, anySuccess)]. *)
Fixpoint poll_each (host : Host) (parsedAt : string → Z) (exec : Exec)
    (dirs : list string) (acc : list TrackedLoop * bool) (st : State)
  : Completion (list TrackedLoop * bool) * State :=
  match dirs with
  | [] => (Normal acc, st)
  | dir :: rest =>
      let r := exec dir st in
      match r.1 with
      | Rejected message => (Throw message, r.2)
      | Exited code out =>
          if decide (code = 0) then
            let stdout := trim host (default "" out) in
            let allParsed :=
              match parseLoopsJson host (parsedAt dir) stdout with
              | Normal parsed => acc.1 ++ (tag_directory dir <$> parsed)
              | Throw _ => acc.1
              end in
            poll_each host parsedAt exec rest (allParsed, true) r.2
          else poll_each host parsedAt exec rest acc r.2
      end
  end.

(** [parsedAt dir] is the clock read while the output for [dir] is parsed,
    [now] the clock read by [mergePolled]. *)
Definition poll (host : Host) (parsedAt : string → Z) (now : Z) (exec : Exec)
    (st : State) : State * option (list TrackedLoop) :=
  if pollInFlight st then (st, None)
  else
    let st0 := with_inFlight true st in
    let dirs := poll_dirs host st0 in
    let r := poll_each host parsedAt exec dirs ([], false) st0 in
    let st1 := r.2 in
    let done :=
      match r.1 with
      | Normal (allParsed, anySuccess) =>
          let allParsed := values (start_map allParsed) in
          if negb anySuccess then
            (with_diagnostics (consecutivePollFailures st1 + 1)
                              (Some "all poll attempts failed") st1, None)
          else
            let st2 :=
              with_diagnostics 0 None (mergePolled now allParsed st1) in
            (st2, Some (getLoops false st2))
      | Throw message =>
          (with_diagnostics (consecutivePollFailures st1 + 1)
                            (Some message) st1, None)
      end in
    (with_inFlight false done.1, done.2).

End LoopManager.

(** ** overlay.ts: [RalphOverlay.handleInput] *)

Module Overlay.
Import Js LoopManager.

Inductive ViewMode : Type := Pty | History | Diff.

Global Instance ViewMode_eq_dec : EqDecision ViewMode.
Proof. solve_decision. Defined.

Record Confirm : Type := mkConfirm {
  action : string;
  command : list string;
  label : string;
}.

Definition OVERLAY_WIDTH_PERCENT : Z := 92.
Definition OVERLAY_HEIGHT_PERCENT : Z := 90.
Definition CHROME_TOP : Z := 3.
Definition CHROME_BOTTOM : Z := 3.

(** The terminal of the TUI and the environment of the process. *)
Record Terminal : Type := mkTerminal {
  columns : Z;
  rows : Z;
  HOME : option string;
  cwd : string;
}.

Record Dimensions : Type := mkDimensions {
  cols : Z;
  overlayRows : Z;
  termRows : Z;
  innerWidth : Z;
}.

(** [Math.floor] of a quotient of integers is [Z.div]. *)
Definition overlayColsRows (term : Terminal) : Dimensions :=
  let overlayWidth := (columns term * OVERLAY_WIDTH_PERCENT) / 100 in
  let overlayHeight := (rows term * OVERLAY_HEIGHT_PERCENT) / 100 in
  let innerWidth_ := Z.max 20 (overlayWidth - 4) in
  let termRows_ := Z.max 3 (overlayHeight - (CHROME_TOP + CHROME_BOTTOM)) in
  {| cols := innerWidth_; overlayRows := overlayHeight;
     termRows := termRows_; innerWidth := innerWidth_ |}.

(** *** The session shown for the focused loop *)

(** A terminal session is the one a tool-started loop owns, or one the
    overlay has created to follow the logs of a loop; the latter are
    numbered in the order of their creation. *)
Inductive SessionRef : Type :=
  | ToolSession (s : PtySession)
  | LogSession (serial : nat).

Global Instance SessionRef_eq_dec : EqDecision SessionRef.
Proof. solve_decision. Defined.

(** The fields of the overlay that [ensureFocusedSession] and
    [disposeSessionIfEphemeral] read or write; [created] counts the
    sessions the overlay has constructed. *)
Record Pane : Type := mkPane {
  activeLoopId : option string;
  paneSession : option SessionRef;
  paneEphemeral : bool;
  paneFooter : option string;
  created : nat;
}.

Inductive PaneEffect : Type :=
  | Dispose (s : SessionRef)
  | Resize (s : SessionRef) (cols rows : Z)
  | Spawn (serial : nat) (command cwd : string) (cols rows : Z).

(** The fields as the constructor finds them. *)
Definition fresh_pane : Pane :=
  {| activeLoopId := None; paneSession := None; paneEphemeral := false;
     paneFooter := None; created := O |}.

Definition disposeSessionIfEphemeral (p : Pane) : Pane * list PaneEffect :=
  ({| activeLoopId := activeLoopId p; paneSession := None;
      paneEphemeral := false; paneFooter := paneFooter p;
      created := created p |},
   match paneSession p with
   | Some s => if paneEphemeral p then [Dispose s] else []
   | None => []
   end).

Definition with_active (a : option string) (p : Pane) : Pane :=
  {| activeLoopId := a; paneSession := paneSession p;
     paneEphemeral := paneEphemeral p; paneFooter := paneFooter p;
     created := created p |}.

Definition with_footer (m : option string) (p : Pane) : Pane :=
  {| activeLoopId := activeLoopId p; paneSession := paneSession p;
     paneEphemeral := paneEphemeral p; paneFooter := m;
     created := created p |}.

(** *** The overlay and its collaborators *)

(** The fields of the overlay that [handleInput] reads or writes. Those
    that the session of the focused loop is kept in are the [pane];
    [subscribed] says that [unsubscribe] is not null. *)
Record Overlay : Type := mkOverlay {
  view : ViewMode;
  textViewTitle : option string;
  textViewLines : list string;
  textScroll : Z;
  textLoading : bool;
  confirm : option Confirm;
  pane : Pane;
  subscribed : bool;
}.

Definition footerMessage (o : Overlay) : option string := paneFooter (pane o).
Definition session (o : Overlay) : option SessionRef := paneSession (pane o).
Definition sessionEphemeral (o : Overlay) : bool := paneEphemeral (pane o).

(** What [handleInput] reads from its collaborators: the key matcher of
    the TUI library; the loop the manager reports as focused, and the one
    it reports after [cycleFocus] in a direction; the trimmed content of
    [<dir>/.ralph/current-loop-id] ([None] when the read throws); the
    [rows] of a session; and the terminal. *)
Record Collaborators : Type := mkCollaborators {
  matchesKey : string → string → bool;
  focused : option TrackedLoop;
  cycled : Direction → option TrackedLoop;
  readLoopId : string → option string;
  sessionRows : SessionRef → option Z;
  tui_terminal : Terminal;
}.

(** What [handleInput] does to its collaborators, in the order it does
    it. [CycleFocus] is the call of the manager with all that the manager
    does in it, the overlay's own listener apart, which is part of the
    overlay and is run here. *)
Inductive Effect : Type :=
  | RequestRender
  | PiExec (command : list string)
  | CycleFocus (direction : Direction)
  | SessionScrollUp (n : Z)
  | SessionScrollDown (n : Z)
  | SessionWrite (data : string)
  | Session (e : PaneEffect)
  | Unsubscribe
  | Done
  | Attach (cwd : string).

Definition Key_escape : string := "escape".
Definition Key_up : string := "up".
Definition Key_down : string := "down".
Definition Key_left : string := "left".
Definition Key_right : string := "right".

Definition resolveLoopIdForCli (host : Collaborators) (loop : TrackedLoop)
  : option string :=
  if negb (bool_decide (id loop = "(primary)")) then Some (id loop)
  else
    let dir :=
      match directory loop with
      | Some d => Some d
      | None => worktree loop
      end in
    if negb (truthy dir) then None
    else
      match readLoopId host (default "" dir) with
      | Some i => if truthy (Some i) then Some i else None
      | None => None
      end.

Definition primaryIdMissingMsg : string :=
  "Unable to resolve primary loop id (.ralph/current-loop-id missing)".

(** [host] gives the loop that [getFocused] reports and the content of
    the loop-id file. *)
Definition ensureFocusedSession (host : Collaborators) (term : Terminal)
    (p : Pane) : Pane * list PaneEffect :=
  match focused host with
  | None => disposeSessionIfEphemeral (with_active None p)
  | Some loop =>
      if bool_decide (activeLoopId p = Some (id loop)) then (p, [])
      else
        let d := disposeSessionIfEphemeral p in
        let p1 := with_active (Some (id loop)) d.1 in
        let dims := overlayColsRows term in
        match source loop, ptySession loop with
        | Tool, Some s =>
            ({| activeLoopId := activeLoopId p1;
                paneSession := Some (ToolSession s);
                paneEphemeral := false; paneFooter := None;
                created := created p1 |},
             d.2 ++ [Resize (ToolSession s) (cols dims) (termRows dims)])
        | _, _ =>
            let loopId := resolveLoopIdForCli host loop in
            if negb (truthy loopId) then
              ({| activeLoopId := activeLoopId p1; paneSession := None;
                  paneEphemeral := false;
                  paneFooter := Some primaryIdMissingMsg;
                  created := created p1 |},
               d.2)
            else
              let cmd := "ralph loops logs " +:+ default "" loopId
                         +:+ " --follow" in
              let dir :=
                match directory loop with
                | Some x => x
                | None => default (cwd term) (HOME term)
                end in
              ({| activeLoopId := activeLoopId p1;
                  paneSession := Some (LogSession (created p1));
                  paneEphemeral := true; paneFooter := None;
                  created := S (created p1) |},
               d.2 ++ [Spawn (created p1) cmd dir (cols dims) (termRows dims)])
        end
  end.

(** [close()] and [dispose()], as far as the session goes. *)
Definition release (p : Pane) : Pane * list PaneEffect :=
  disposeSessionIfEphemeral p.

(** The overlay from its construction through the changes of the
    manager ([hosts], one for each notification) to its closing. *)
Fixpoint follow (term : Terminal) (hosts : list Collaborators) (p : Pane)
  : Pane * list PaneEffect :=
  match hosts with
  | [] => (p, [])
  | host :: rest =>
      let r := ensureFocusedSession host term p in
      let r' := follow term rest r.1 in
      (r'.1, r.2 ++ r'.2)
  end.

(** *** handleInput *)

Definition with_pane (p : Pane) (o : Overlay) : Overlay :=
  {| view := view o; textViewTitle := textViewTitle o;
     textViewLines := textViewLines o; textScroll := textScroll o;
     textLoading := textLoading o; confirm := confirm o;
     pane := p; subscribed := subscribed o |}.

Definition set_confirm (c : option Confirm) (m : option string) (o : Overlay)
  : Overlay :=
  {| view := view o; textViewTitle := textViewTitle o;
     textViewLines := textViewLines o; textScroll := textScroll o;
     textLoading := textLoading o; confirm := c;
     pane := with_footer m (pane o); subscribed := subscribed o |}.

Definition set_footer (m : option string) (o : Overlay) : Overlay :=
  set_confirm (confirm o) m o.

Definition set_view (v : ViewMode) (scroll : Z) (o : Overlay) : Overlay :=
  {| view := v; textViewTitle := textViewTitle o;
     textViewLines := textViewLines o; textScroll := scroll;
     textLoading := textLoading o; confirm := confirm o;
     pane := pane o; subscribed := subscribed o |}.

(** [close()]: unsubscribe, drop an ephemeral session, call [done]. *)
Definition close (o : Overlay) : Overlay * list Effect :=
  let d := disposeSessionIfEphemeral (pane o) in
  ({| view := view o; textViewTitle := textViewTitle o;
      textViewLines := textViewLines o; textScroll := textScroll o;
      textLoading := textLoading o; confirm := confirm o;
      pane := d.1; subscribed := false |},
   (if subscribed o then [Unsubscribe] else [])
   ++ (Session <$> d.2)
   ++ [Done]).

(** The listener that the constructor subscribes to the manager:
    [ensureFocusedSession()] and a request to render. [host] is the
    collaborators as the notification finds them. *)
Definition onChange (host : Collaborators) (o : Overlay)
  : Overlay * list Effect :=
  let r := ensureFocusedSession host (tui_terminal host) (pane o) in
  (with_pane r.1 o, (Session <$> r.2) ++ [RequestRender]).

(** The collaborators as the listener finds them after a cycle: the
    focused loop is the one the cycle has reached, and nothing else that
    the listener reads has changed. *)
Definition with_focused (l : option TrackedLoop) (host : Collaborators)
  : Collaborators :=
  {| matchesKey := matchesKey host; focused := l; cycled := cycled host;
     readLoopId := readLoopId host; sessionRows := sessionRows host;
     tui_terminal := tui_terminal host |}.

(** [this.loopManager.cycleFocus(direction)]: the manager moves its
    cursor and notifies its listeners before it returns, the overlay's
    own among them as long as the overlay is subscribed; that one finds
    the loop focused that the cycle has reached. *)
Definition loopManager_cycleFocus (direction : Direction)
    (host : Collaborators) (o : Overlay) : Overlay * list Effect :=
  if subscribed o then
    let r := onChange (with_focused (cycled host direction) host) o in
    (r.1, CycleFocus direction :: r.2)
  else (o, [CycleFocus direction]).

(** [void this.runAction(label, command)] up to its first [await]: the
    footer is set and the external command is started. *)
Definition runAction (label_ : string) (command_ : list string) (o : Overlay)
  : Overlay * list Effect :=
  (set_footer (Some (label_ +:+ "...")) o, [RequestRender; PiExec command_]).

(** [void this.runTextView(title, command)] up to its first [await]. *)
Definition runTextView (title : string) (command_ : list string) (o : Overlay)
  : Overlay * list Effect :=
  ({| view := if bool_decide (title = "History") then History else Diff;
      textViewTitle := Some title;
      textViewLines := [];
      textScroll := 0;
      textLoading := true;
      confirm := confirm o;
      pane := with_footer None (pane o);
      subscribed := subscribed o |},
   [RequestRender; PiExec command_]).

(** [Math.max(1, (this.session.rows ?? 10) - 2)] *)
Definition page (host : Collaborators) (o : Overlay) : Z :=
  match session o with
  | Some s => Z.max 1 (default 10 (sessionRows host s) - 2)
  | None => 1
  end.

Definition last_line (o : Overlay) : Z :=
  Z.max 0 (Z.of_nat (length (textViewLines o)) - 1).

(** The part of [handleInput] below the view switching: loop switching,
    scrolling of the session, and the actions on the focused loop. *)
Definition handle_pty_view (host : Collaborators) (data : string) (o : Overlay)
  : Overlay * list Effect :=
  if matchesKey host data Key_left then
    loopManager_cycleFocus Backward host o
  else if matchesKey host data Key_right then
    loopManager_cycleFocus Forward host o
  else if matchesKey host data "shift+up" then
    (o, match session o with
        | Some _ => [SessionScrollUp (page host o); RequestRender]
        | None => [RequestRender]
        end)
  else if matchesKey host data "shift+down" then
    (o, match session o with
        | Some _ => [SessionScrollDown (page host o); RequestRender]
        | None => [RequestRender]
        end)
  else
    match focused host with
    | None => (o, [])
    | Some loop =>
        let isPrimary := bool_decide (id loop = "(primary)") in
        let cliId := resolveLoopIdForCli host loop in
        let target := default (id loop) cliId in
        if bool_decide (data = "s") then
          let cmd :=
            if isPrimary then ["loops"; "stop"]
            else ["loops"; "stop"; target] in
          (set_confirm (Some (mkConfirm "stop" cmd "Stop")) None o,
           [RequestRender])
        else if bool_decide (data = "m") then
          if isPrimary then
            (set_footer (Some "Merge not available for primary loop") o,
             [RequestRender])
          else runAction "Merge" ["loops"; "merge"; target] o
        else if bool_decide (data = "d") then
          if isPrimary then
            (set_footer
               (Some "Discard not available for primary loop (use stop)") o,
             [RequestRender])
          else
            (set_confirm
               (Some (mkConfirm "discard"
                                ["loops"; "discard"; "--yes"; target]
                                "Discard"))
               None o,
             [RequestRender])
        else if bool_decide (data = "r") then
          match cliId with
          | Some i =>
              if truthy cliId then runAction "Retry" ["loops"; "retry"; i] o
              else (set_footer (Some primaryIdMissingMsg) o, [RequestRender])
          | None => (set_footer (Some primaryIdMissingMsg) o, [RequestRender])
          end
        else if bool_decide (data = "H") then
          match cliId with
          | Some i =>
              if truthy cliId
              then runTextView "History" ["loops"; "history"; i] o
              else (set_footer (Some primaryIdMissingMsg) o, [RequestRender])
          | None => (set_footer (Some primaryIdMissingMsg) o, [RequestRender])
          end
        else if bool_decide (data = "D") then
          match cliId with
          | Some i =>
              if truthy cliId then runTextView "Diff" ["loops"; "diff"; i] o
              else (set_footer (Some primaryIdMissingMsg) o, [RequestRender])
          | None => (set_footer (Some primaryIdMissingMsg) o, [RequestRender])
          end
        else if bool_decide (data = "a") then
          let cwd :=
            match worktree loop with
            | Some w => Some w
            | None => directory loop
            end in
          if truthy cwd then
            let r := close o in (r.1, r.2 ++ [Attach (default "" cwd)])
          else
            (set_footer (Some "No directory/worktree available to attach") o,
             [RequestRender])
        else
          (o, match session o with
              | Some _ => [SessionWrite data]
              | None => []
              end)
    end.

(** The part of [handleInput] that serves the history and diff views. *)
Definition handle_text_view (host : Collaborators) (data : string) (o : Overlay)
  : Overlay * list Effect :=
  if bool_decide (data = "q") then (set_view Pty 0 o, [RequestRender])
  else if matchesKey host data Key_up || bool_decide (data = "k") then
    (set_view (view o) (Z.max 0 (textScroll o - 1)) o, [RequestRender])
  else if matchesKey host data Key_down || bool_decide (data = "j") then
    (set_view (view o) (Z.min (last_line o) (textScroll o + 1)) o,
     [RequestRender])
  else if matchesKey host data "shift+up" then
    (set_view (view o) (Z.max 0 (textScroll o - 10)) o, [RequestRender])
  else if matchesKey host data "shift+down" then
    (set_view (view o) (Z.min (last_line o) (textScroll o + 10)) o,
     [RequestRender])
  else (o, []).

Definition handleInput (host : Collaborators) (data : string) (o : Overlay)
  : Overlay * list Effect :=
  if matchesKey host data Key_escape then
    match confirm o with
    | Some _ => (set_confirm None (Some "Cancelled") o, [RequestRender])
    | None =>
        if negb (bool_decide (view o = Pty))
        then (set_view Pty 0 o, [RequestRender])
        else close o
    end
  else
    match confirm o with
    | Some c =>
        if bool_decide (data = "y") || bool_decide (data = "Y") then
          runAction (label c) (command c) (set_confirm None (footerMessage o) o)
        else if bool_decide (data = "n") || bool_decide (data = "N") then
          (set_confirm None (Some "Cancelled") o, [RequestRender])
        else (o, [])
    | None =>
        if negb (bool_decide (view o = Pty)) then handle_text_view host data o
        else handle_pty_view host data o
    end.

(** The external commands an input started. *)
Definition executed (effects : list Effect) : list (list string) :=
  omap (λ e, match e with PiExec c => Some c | _ => None end) effects.

(** The commands of the sessions an input created. *)
Definition spawned (effects : list Effect) : list string :=
  omap (λ e, match e with
             | Session (Spawn _ c _ _ _) => Some c
             | _ => None
             end) effects.

End Overlay.


(** ** widget.ts *)

Module Widget.
Import Js LoopManager.

(** A JavaScript number as [formatDuration] may receive it: a finite
    value, or one of [NaN], [Infinity] and [-Infinity]. *)
Inductive number : Type :=
  | Finite (q : Q)
  | NotFinite.

(** [s.slice(n)] *)
Fixpoint slice_from (n : nat) (s : string) : string :=
  match n, s with
  | O, _ => s
  | S n', String _ s' => slice_from n' s'
  | S _, EmptyString => EmptyString
  end.

(** The exponent of the binade of [a / b], for [0 < a] and [0 < b]: the
    [e] with [2 ^ e ≤ a / b < 2 ^ (e + 1)]. *)
Definition binade (a b : Z) : Z :=
  let e := Z.log2 a - Z.log2 b in
  if b * 2 ^ Z.max 0 e <=? a * 2 ^ Z.max 0 (- e) then e else e - 1.

(** The integer nearest to [num / den], the even one of two that are
    equally near. *)
Definition round_half_even (num den : Z) : Z :=
  let f := num / den in
  let r := num mod den in
  if 2 * r <? den then f
  else if den <? 2 * r then f + 1
  else if Z.even f then f else f + 1.

(** [Math.floor(a / b)] for integers [0 ≤ a] and [0 < b]. The quotient
    of two doubles is the double nearest to it: with [p] the exponent of
    the binade less 52, it is [m * 2 ^ p] for the integer [m] nearest to
    [a / (b * 2 ^ p)], which has 53 bits. The floor is taken of that
    double. (No quotient here is large or small enough to leave the
    normal range of the doubles.) *)
Definition floor_div (a b : Z) : Z :=
  if a <=? 0 then 0
  else
    let p := binade a b - 52 in
    let m := round_half_even (a * 2 ^ Z.max 0 (- p)) (b * 2 ^ Z.max 0 p) in
    (m * 2 ^ Z.max 0 p) / 2 ^ Z.max 0 (- p).

Section formatting.
(** The conversion of a number to a string that a template literal
    applies. *)
Variable String_ : Z → string.

Definition formatDuration (secs : number) : string :=
  match secs with
  | NotFinite => "0s"
  | Finite q =>
      if Qle_bool q 0 then "0s"
      else
        let s := Qfloor q in
        let m := floor_div s 60 in
        let h := floor_div m 60 in
        let ss := Z.rem s 60 in
        let mm := Z.rem m 60 in
        if 0 <? h then String_ h +:+ "h" +:+ String_ mm +:+ "m"
        else if 0 <? m then String_ m +:+ "m" +:+ String_ ss +:+ "s"
        else String_ ss +:+ "s"
  end.
End formatting.

(** [home] is [process.env.HOME]. *)
Definition tildePath (home : option string) (p : option string) : string :=
  match p with
  | Some p' =>
      if negb (truthy p) then ""
      else
        match home with
        | Some h =>
            if truthy home && startsWith p' h
            then "~" +:+ slice_from (String.length h) p'
            else p'
        | None => p'
        end
  | None => ""
  end.

(** [loop.worktree ?? loop.directory ?? ""] *)
Definition loopDisplayPath (home : option string) (loop : TrackedLoop)
  : string :=
  tildePath home
    (match worktree loop with
     | Some w => Some w
     | None =>
         match directory loop with
         | Some d => Some d
         | None => Some ""
         end
     end).

(** What the widget takes from the TUI library and the theme. *)
Record Ui : Type := mkUi {
  fg : string → string → string;
  truncateToWidth : string → Z → string → string;
  visibleWidth : string → Z;
}.

Definition nonempty (s : string) : bool := truthy (Some s).

(** The constant [path] of [render]:
    [loopDisplayPath(focused) || focused.id]. *)
Definition path (home : option string) (focused : TrackedLoop) : string :=
  if nonempty (loopDisplayPath home focused)
  then loopDisplayPath home focused else id focused.

(** [RalphWidget.render]: the lines of the widget, and the manager as
    [getFocused] leaves it. *)
Definition render (ui : Ui) (String_ : Z → string) (home : option string)
    (width : Z) (st : State) : State * list string :=
  let loops_ := getLoops false st in
  if decide (length loops_ = O) then (st, [])
  else
    let r := getFocused st in
    match r.2 with
    | None => (r.1, [])
    | Some focused =>
        let idx := findIndex (λ l, bool_decide (id l = id focused)) loops_ in
        let pos :=
          match idx with
          | Some i => Z.of_nat i + 1
          | None => 1
          end in
        let prefix := fg ui "accent" "ralph " +:+ fg ui "dim" "> " in
        let iter :=
          if 0 <? maxIterations focused
          then "[" +:+ String_ (iteration focused) +:+ "/"
               +:+ String_ (maxIterations focused) +:+ "]"
          else "" in
        let hat_ := if truthy (hat focused) then default "" (hat focused)
                    else "" in
        let elapsed :=
          if 0 <? elapsedSecs focused
          then formatDuration String_ (Finite (inject_Z (elapsedSecs focused)))
          else "" in
        let status_ :=
          if nonempty (status focused)
             && negb (bool_decide (status focused = "unknown"))
          then status focused else "" in
        let right :=
          fg ui "dim" (" [" +:+ String_ pos +:+ "/"
                       +:+ String_ (Z.of_nat (length loops_)) +:+ "]") in
        let mid0 := fg ui "text" (path home focused) in
        let mid1 := if nonempty iter
                    then mid0 +:+ " " +:+ fg ui "muted" iter else mid0 in
        let mid2 := if nonempty hat_
                    then mid1 +:+ " " +:+ fg ui "accent" hat_ else mid1 in
        let mid3 := if nonempty elapsed
                    then mid2 +:+ " " +:+ fg ui "dim" elapsed else mid2 in
        let mid := if nonempty status_
                   then mid3 +:+ " " +:+ fg ui "dim" status_ else mid3 in
        let rightWidth := visibleWidth ui right in
        let maxLeft := Z.max 0 (width - rightWidth) in
        let left := truncateToWidth ui (prefix +:+ mid) maxLeft "..." in
        (r.1, [truncateToWidth ui (left +:+ right) width ""])
    end.

End Widget.

(** ** overlay.ts: the command outcomes and [render] *)

Module OverlayView.
Import Js LoopManager Overlay.

(** [loop.worktree ?? loop.directory ?? loop.id], abbreviated by the
    overlay's copy of [tildePath], which is the widget's word for word. *)
Definition loopHeader (home : option string) (loop : TrackedLoop) : string :=
  Widget.tildePath home
    (match worktree loop with
     | Some w => Some w
     | None =>
         match directory loop with
         | Some d => Some d
         | None => Some (id loop)
         end
     end).

(** *** The results of the commands the overlay runs *)

(** What [await this.pi.exec(...)] resolves to. *)
Record ExecResult : Type := mkExecResult {
  code : Z;
  stdout : option string;
  stderr : option string;
}.

(** [s.slice(0, n)] *)
Fixpoint slice_to (n : nat) (s : string) : string :=
  match n, s with
  | S n', String c s' => String c (slice_to n' s')
  | _, _ => EmptyString
  end.

Definition carriage_return : ascii := Ascii.ascii_of_nat 13.
Definition line_feed : ascii := Ascii.ascii_of_nat 10.

(** [s.replace(/\r\n/g, "\n")] *)
Fixpoint replace_crlf (s : string) : string :=
  match s with
  | EmptyString => EmptyString
  | String c s' =>
      match s' with
      | String c' rest =>
          if decide (c = carriage_return ∧ c' = line_feed)
          then String line_feed (replace_crlf rest)
          else String c (replace_crlf s')
      | EmptyString => String c EmptyString
      end
  end.

(** [s.split("\n")], with the line in progress in [cur]. *)
Fixpoint split_lines (cur : string) (s : string) : list string :=
  match s with
  | EmptyString => [cur]
  | String c s' =>
      if decide (c = line_feed) then cur :: split_lines "" s'
      else split_lines (cur +:+ String c "") s'
  end.

(** [a || b] on strings *)
Definition or_else (a b : string) : string :=
  if truthy (Some a) then a else b.

Section settle.
Variable String_ : Z → string.
Variable host : Host.

(** [runAction] from the point where the command has ended to its own
    [await]: the footer reports the outcome. The poll and the request to
    render follow. *)
Definition runAction_settled (label_ : string) (res : ExecResult)
    (o : Overlay) : Overlay :=
  if decide (code res = 0) then set_footer (Some (label_ +:+ " OK")) o
  else
    let err := trim host (default "" (stderr res)) in
    let out := trim host (default "" (stdout res)) in
    let detail :=
      or_else err (or_else out ("exit code " +:+ String_ (code res))) in
    set_footer (Some (label_ +:+ " failed: " +:+ slice_to 80 detail)) o.

(** [runTextView] from the point where the command has ended. *)
Definition runTextView_settled (command_ : list string) (res : ExecResult)
    (o : Overlay) : Overlay * list Effect :=
  let out := replace_crlf (default "" (stdout res)) in
  let err := replace_crlf (default "" (stderr res)) in
  let lines :=
    if negb (bool_decide (code res = 0)) then
      ["[error] ralph " +:+ String.concat " " command_;
       or_else err ("exit code " +:+ String_ (code res))]
    else
      let text := if negb (bool_decide (out = "")) then out
                  else "(no output)" in
      split_lines "" text in
  ({| view := view o; textViewTitle := textViewTitle o;
      textViewLines := lines; textScroll := textScroll o;
      textLoading := false; confirm := confirm o;
      pane := pane o; subscribed := subscribed o |},
   [RequestRender]).
End settle.

(** *** loopIndex and render *)

(** [loopIndex()]: the position of the focused loop among the active
    ones, and the manager as the two reads leave it. *)
Definition loopIndex (String_ : Z → string) (st : State) : State * string :=
  let loops_ := getLoops false st in
  let r := getFocused st in
  match r.2 with
  | None => (r.1, "0/0")
  | Some focused_ =>
      if decide (length loops_ = O) then (r.1, "0/0")
      else
        let idx := findIndex (λ l, bool_decide (id l = id focused_)) loops_ in
        let pos :=
          match idx with
          | Some i => Z.of_nat i + 1
          | None => 1
          end in
        (r.1, String_ pos +:+ "/" +:+ String_ (Z.of_nat (length loops_)))
  end.

(** [s.repeat(n)]; [None] is the [RangeError] of a negative count. *)
Fixpoint copies (n : nat) (s : string) : string :=
  match n with
  | O => EmptyString
  | S n' => s +:+ copies n' s
  end.

Definition repeat_ (s : string) (count : Z) : option string :=
  if count <? 0 then None else Some (copies (Z.to_nat count) s).

(** [a.slice(start, end)] for integers. *)
Definition array_slice {A} (a : list A) (start end_ : Z) : list A :=
  let len := Z.of_nat (length a) in
  let from := if start <? 0 then Z.max (len + start) 0 else Z.min start len in
  let to := if end_ <? 0 then Z.max (len + end_) 0 else Z.min end_ len in
  take (Z.to_nat (to - from)) (drop (Z.to_nat from) a).

(** The session as [render] sees it. *)
Record SessionView : Type := mkSessionView {
  viewportLines : list string;
  isScrolledUp : bool;
}.

(** The size [render] remembers it gave to the session. *)
Record Layout : Type := mkLayout {
  lastWidth : Z;
  lastRows : Z;
}.

Record Rendered : Type := mkRendered {
  lines : list string;
  layout : Layout;
  managerAfter : State;
  resized : option (Z * Z);
}.

Section render.
Variable ui : Widget.Ui.
Variable String_ : Z → string.
Variable term : Terminal.

Definition border (s : string) : string := Widget.fg ui "border" s.
Definition accent (s : string) : string := Widget.fg ui "accent" s.
Definition dim (s : string) : string := Widget.fg ui "dim" s.
Definition warn (s : string) : string := Widget.fg ui "warning" s.

Definition padRight (s : string) (w : Z) : string :=
  s +:+ copies (Z.to_nat (Z.max 0 (w - Widget.visibleWidth ui s))) " ".

Definition row (innerWidth_ : Z) (content : string) : string :=
  border "│ " +:+ padRight content innerWidth_ +:+ border " │".

(** The [termRows] turns of a content loop. *)
Definition content_rows (termRows_ : Z) (line : Z → string) : list string :=
  (λ i, line (Z.of_nat i)) <$> seq 0 (Z.to_nat termRows_).

(** [render(width)]; [None] when the first line throws. The session is
    given when the overlay holds one. *)
Definition render (width : Z) (o : Overlay) (sv : option SessionView)
    (lay : Layout) (st : State) : option Rendered :=
  let innerWidth_ := width - 4 in
  match repeat_ "─" (width - 2) with
  | None => None
  | Some rule =>
      let top := border ("╭" +:+ rule +:+ "╮") in
      let r := getFocused st in
      let headerText :=
        match r.2 with
        | Some f => loopHeader (HOME term) f
        | None => "No loops"
        end in
      let header := Widget.truncateToWidth ui headerText innerWidth_ "..." in
      let idx := match r.2 with
                 | Some _ => Some (loopIndex String_ r.1)
                 | None => None
                 end in
      let st' := match idx with Some i => i.1 | None => r.1 end in
      let right := match idx with
                   | Some i => dim ("[" +:+ i.2 +:+ "]")
                   | None => ""
                   end in
      let rightW := Widget.visibleWidth ui right in
      let left :=
        Widget.truncateToWidth ui (accent header)
          (Z.max 0 (innerWidth_ - rightW - 1)) "..." in
      let headerLine :=
        left
        +:+ copies (Z.to_nat (Z.max 1 (innerWidth_
                                        - Widget.visibleWidth ui left
                                        - rightW))) " "
        +:+ right in
      let hint0 :=
        "←→ loop  s stop  m merge  d discard  r retry  a attach  H history  D diff  Esc close" in
      let hint1 :=
        if negb (bool_decide (view o = Pty))
        then default "View" (textViewTitle o) +:+ " (q back, ↑↓ scroll)"
        else hint0 in
      let hint :=
        match confirm o with
        | Some c => warn ("Confirm " +:+ action c +:+ "? (y/n)")
        | None => hint1
        end in
      let hintLine :=
        row innerWidth_
            (dim (Widget.truncateToWidth ui hint innerWidth_ "...")) in
      let rule_mid := border ("├" +:+ rule +:+ "┤") in
      let dims := overlayColsRows term in
      let changed :=
        negb (bool_decide (cols dims = lastWidth lay))
        || negb (bool_decide (termRows dims = lastRows lay)) in
      let lay' := if changed then mkLayout (cols dims) (termRows dims)
                  else lay in
      let resized_ :=
        if changed then
          match sv with
          | Some _ => Some (cols dims, termRows dims)
          | None => None
          end
        else None in
      let content :=
        if bool_decide (view o = Pty) then
          let viewport := match sv with
                          | Some s => viewportLines s
                          | None => []
                          end in
          content_rows (termRows dims)
            (λ i, row innerWidth_
                    (Widget.truncateToWidth ui
                       (default "" (at_index viewport i)) innerWidth_ ""))
        else if textLoading o then
          content_rows (termRows dims)
            (λ i, row innerWidth_
                    (dim (if decide (i = 0) then "Loading..." else "")))
        else
          let start := textScroll o in
          let slice :=
            array_slice (textViewLines o) start (start + termRows dims) in
          content_rows (termRows dims)
            (λ i, row innerWidth_
                    (Widget.truncateToWidth ui
                       (default "" (at_index slice i)) innerWidth_ "")) in
      let footerLine :=
        if truthy (footerMessage o) then
          row innerWidth_
              (dim (Widget.truncateToWidth ui
                      (default "" (footerMessage o)) innerWidth_ "..."))
        else
          match sv with
          | Some s =>
              if isScrolledUp s
              then row innerWidth_ (dim "Scrolled up (Shift+Down to follow)")
              else row innerWidth_ (dim "")
          | None => row innerWidth_ (dim "")
          end in
      let bottom := border ("╰" +:+ rule +:+ "╯") in
      Some {| lines :=
                [top; row innerWidth_ headerLine; hintLine; rule_mid]
                ++ content ++ [rule_mid; footerLine; bottom];
              layout := lay';
              managerAfter := st';
              resized := resized_ |}
  end.
End render.

End OverlayView.

(** ** ralph-loop-tool.ts *)

Module LoopTool.
Import Js LoopManager.

(** The parameters of the tool, after validation against its schema. *)
Record RalphLoopInput : Type := mkInput {
  p_prompt : string;
  p_directory : string;
  p_config : option string;
  p_maxIterations : option Z;
  p_backend : option string;
  p_customArgs : option (list string);
}.

Definition double_quote : ascii := Ascii.ascii_of_nat 34.

(** The replacement text of [shQuote]: a single quote, closed, quoted by
    double quotes, and opened again. *)
Definition escaped_quote : string :=
  String "'"%char
    (String double_quote (String "'"%char (String double_quote "'"))).

(** [s.replace(/'/g, r)] *)
Fixpoint replace_quotes (r : string) (s : string) : string :=
  match s with
  | EmptyString => EmptyString
  | String c s' =>
      if decide (c = "'"%char) then r +:+ replace_quotes r s'
      else String c (replace_quotes r s')
  end.

Definition shQuote (s : string) : string :=
  "'" +:+ replace_quotes escaped_quote s +:+ "'".

(** The array [parts] of [buildRalphRunCommand]; [String_] is JavaScript's
    conversion of a number to a string. *)
Definition command_parts (String_ : Z → string) (params : RalphLoopInput)
  : list string :=
  ["ralph"; "run"; "-p"; p_prompt params]
  ++ (match p_config params with
      | Some c => if truthy (Some c) then ["--config"; c] else []
      | None => []
      end)
  ++ (match p_maxIterations params with
      | Some n => if decide (n = 0) then [] else ["--max-iterations"; String_ n]
      | None => []
      end)
  ++ (match p_backend params with
      | Some b => if truthy (Some b) then ["--agent"; b] else []
      | None => []
      end)
  ++ (match p_customArgs params with
      | Some (a :: args) => "--" :: a :: args
      | _ => []
      end).

Definition buildRalphRunCommand (String_ : Z → string)
    (params : RalphLoopInput) : string :=
  match command_parts String_ params with
  | bin :: args => bin +:+ " " +:+ String.concat " " (shQuote <$> args)
  | [] => "undefined "
  end.

(** [typeof item?.id === "string" ? item.id : typeof item?.loop_id ===
    "string" ? item.loop_id : undefined], kept when it is truthy. *)
Definition item_id (item : json) : option string :=
  let id_ :=
    match as_string (prop item "id") with
    | Some s => Some s
    | None => as_string (prop item "loop_id")
    end in
  if truthy id_ then id_ else None.

(** [None] when [JSON.parse] throws. *)
Definition extractLoopIds (host : Host) (jsonText : string)
  : option (list string) :=
  let trimmed := trim host jsonText in
  if negb (truthy (Some trimmed)) then Some []
  else
    match JSON_parse host trimmed with
    | None => None
    | Some (JArr data) => Some (omap item_id data)
    | Some _ => Some []
    end.


(** What one turn of the loop of [waitForNewLoopId] observes: the clock
    at the test of the loop, the outcome of the enumeration, and the
    content of the loop-id file ([None] when the read throws). *)
Record Turn : Type := mkTurn {
  clock : Z;
  listing : ExecOutcome;
  idFile : option string;
}.

(** [afterIds.filter((id) => !beforeIds.has(id))[0]] *)
Definition first_new (beforeIds : gset string) (afterIds : list string)
  : option string :=
  head (filter (λ i, i ∉ beforeIds) afterIds).

(** [waitForNewLoopId] over the turns the world offers. The outer [None]
    says that the turns ran out before the function returned; a
    rejected enumeration is thrown on to the caller. *)
Fixpoint waitForNewLoopId (host : Host) (beforeIds : gset string)
    (beforePrimaryId : option string) (timeoutMs started : Z)
    (turns : list Turn) : option (Completion (option string)) :=
  match turns with
  | [] => None
  | turn :: rest =>
      if clock turn - started <? timeoutMs then
        match listing turn with
        | Rejected message => Some (Throw message)
        | Exited code out =>
            let found :=
              if decide (code = 0) then
                match extractLoopIds host (default "" out) with
                | Some afterIds => first_new beforeIds afterIds
                | None => None
                end
              else None in
            match found with
            | Some i => Some (Normal (Some i))
            | None =>
                let currentId := trim host <$> idFile turn in
                if truthy currentId
                   && negb (bool_decide (currentId = beforePrimaryId))
                then Some (Normal currentId)
                else waitForNewLoopId host beforeIds beforePrimaryId
                       timeoutMs started rest
            end
        end
      else Some (Normal None)
  end.

End LoopTool.

(** ** The shell that runs the command *)

(** How a POSIX shell splits a command line into words, for the part of
    its grammar that the command builder uses: words are separated by
    spaces; between single quotes every character stands for itself;
    between double quotes every character other than the dollar sign,
    the backquote and the backslash does; outside quotes only letters,
    digits and a few punctuation marks are taken. [None] is a command
    line outside this part of the grammar. *)
Module Shell.

Inductive Quoting : Type := Bare | Single | Double.

Definition plain (c : ascii) : bool :=
  let n := Ascii.nat_of_ascii c in
  ((48 <=? n) && (n <=? 57) || (65 <=? n) && (n <=? 90)
   || (97 <=? n) && (n <=? 122))%nat
  || bool_decide (c ∈ ["-"; "_"; "."; "/"]%char).

Definition special_in_double (c : ascii) : bool :=
  bool_decide (c ∈ ["$"; "`"; "\"]%char).

Definition push (cur : option string) (c : ascii) : option string :=
  Some (default "" cur +:+ String c "").

Fixpoint scan (mode : Quoting) (cur : option string) (s : string)
  : option (list string) :=
  match s with
  | EmptyString =>
      match mode with
      | Bare => Some (option_list cur)
      | _ => None
      end
  | String c s' =>
      match mode with
      | Bare =>
          if decide (c = " "%char)
          then (λ ws, option_list cur ++ ws) <$> scan Bare None s'
          else if decide (c = "'"%char)
          then scan Single (Some (default "" cur)) s'
          else if decide (c = LoopTool.double_quote)
          then scan Double (Some (default "" cur)) s'
          else if plain c then scan Bare (push cur c) s'
          else None
      | Single =>
          if decide (c = "'"%char) then scan Bare cur s'
          else scan Single (push cur c) s'
      | Double =>
          if decide (c = LoopTool.double_quote) then scan Bare cur s'
          else if special_in_double c then None
          else scan Double (push cur c) s'
      end
  end.

Definition words (line : string) : option (list string) :=
  scan Bare None line.

End Shell.

(** ** index.ts: the focus kept across sessions *)

Module Extension.
Import Js LoopManager.

Definition STATE_TYPE : string := "pi-ralph-state".

(** An entry of the session branch, as far as the extension reads it. *)
Record Entry : Type := mkEntry {
  entry_type : string;
  customType : option string;
  data : json;
}.

(** [pi.appendEntry(customType, data)] adds a custom entry to the branch. *)
Definition appendEntry (customType_ : string) (data_ : json) : Entry :=
  {| entry_type := "custom"; customType := Some customType_; data := data_ |}.

(** The loop of [session_start] that looks for the focus to restore. *)
Definition restoredFocusId (branch : list Entry) : option string :=
  fold_left
    (λ restored entry,
       if bool_decide (entry_type entry = "custom")
          && bool_decide (customType entry = Some STATE_TYPE)
       then
         match as_string (prop (data entry) "focusedId") with
         | Some i => if truthy (Some i) then Some i else restored
         | None => restored
         end
       else restored)
    branch None.

(** The listener that persists the focus: the manager as [getFocused]
    leaves it, the entries it appends, and [lastPersistedFocusId]. *)
Definition persistFocus (st : State) (lastPersistedFocusId : option string)
  : State * list Entry * option string :=
  let r := getFocused st in
  let id_ := id <$> r.2 in
  if truthy id_ && negb (bool_decide (id_ = lastPersistedFocusId))
  then (r.1,
        [appendEntry STATE_TYPE (JObj [("focusedId", JStr (default "" id_))])],
        id_)
  else (r.1, [], lastPersistedFocusId).

(** The listener over the notifications of a session, each with the
    manager as it is then. *)
Fixpoint persisted (sts : list State) (last : option string)
  : list Entry * option string :=
  match sts with
  | [] => ([], last)
  | st :: rest =>
      let r := persistFocus st last in
      let r' := persisted rest r.2 in
      (r.1.2 ++ r'.1, r'.2)
  end.

End Extension.

(** * Vocabulary of the properties *)

Import Js LoopManager.

#[local] Set Warnings "-clear-no-such-hyp".

(** ** Collections and the Map of a merge *)

Definition ids (ls : list TrackedLoop) : list string := id <$> ls.

(** Every binding of [byId] is filed under the identity of its record, and
    no key occurs twice. *)
Definition keyed (m : Map TrackedLoop) : Prop :=
  ∀ k v, (k, v) ∈ m → id v = k.

Definition well_formed (m : Map TrackedLoop) : Prop :=
  NoDup (keys m) ∧ keyed m.

(** The three ways one turn of the loop changes [byId]. *)
Inductive step_case (now : Z) (m : Map TrackedLoop) (next : TrackedLoop)
  : Map TrackedLoop → Prop :=
  | step_update existing :
      get (id next) m = Some existing →
      rekey_target m next = None →
      step_case now m next
        (set (id next) (merge_existing now existing next) m)
  | step_rekey existId existLoop :
      get (id next) m = None →
      id next = "(primary)" →
      rekey_target m next = Some (existId, existLoop) →
      (existId, existLoop) ∈ m →
      source existLoop = Tool →
      startsWith existId "primary-" = true →
      directory existLoop = directory next →
      step_case now m next
        (set (id next) (merge_existing now existLoop next) (delete existId m))
  | step_insert :
      get (id next) m = None →
      rekey_target m next = None →
      step_case now m next (set (id next) (insert_new now next) m).

(** What lines 312-316 leave in place of a record. *)
Definition marked (seen : gset string) (l : TrackedLoop) : TrackedLoop :=
  if bool_decide (id l ∉ seen) && bool_decide (source l ≠ Tool)
  then mark l else l.

(** The Map at the end of [mergePolled], after the marking. *)
Definition final_map (now : Z) (polled ls : list TrackedLoop)
  : Map TrackedLoop :=
  mark_missing (merge_loop now polled (start_map ls, ∅)).2
               (merge_loop now polled (start_map ls, ∅)).1.

(** A record of the old collection is carried on by the loop: under its
    own key, or under the placeholder key once the rekey step has moved
    it there; its source and its session go with it. *)
Definition carried (m : Map TrackedLoop) (r0 : TrackedLoop) : Prop :=
  ∃ v, source v = source r0 ∧ ptySession v = ptySession r0
       ∧ (get (id r0) m = Some v
          ∨ (get "(primary)" m = Some v
             ∧ startsWith (id r0) "primary-" = true ∧ source r0 = Tool)).

(** A directory that the merge does not take from a candidate: [null],
    the empty string, or a display value in parentheses. *)
Definition placeholder_directory (d : option string) : Prop :=
  d = None ∨ d = Some "" ∨ ∃ s, d = Some s ∧ startsWith s "(" = true.

(** The records as a pass holds them when it has merged the candidates
    [earlier]: the Map [byId] at the turn of the next candidate. *)
Definition reached (now : Z) (earlier ls : list TrackedLoop)
  : Map TrackedLoop :=
  (merge_loop now earlier (start_map ls, ∅)).1.

(** A record that the placeholder candidate [c] can be matched with: a
    tool record under a primary- key with the directory of [c]. *)
Definition rekeyable (c : TrackedLoop) (k : string) (r : TrackedLoop)
  : Prop :=
  source r = Tool ∧ startsWith k "primary-" = true
  ∧ directory r = directory c.

(** ** A second merge of the same candidates *)

(** No candidate re-keys a record whose identity an earlier candidate of
    the same pass has carried. *)
Fixpoint rekey_clean (now : Z) (polled : list TrackedLoop)
    (acc : Map TrackedLoop * gset string) : bool :=
  match polled with
  | [] => true
  | next :: rest =>
      match rekey_target acc.1 next with
      | Some (existId, _) => bool_decide (existId ∉ acc.2)
      | None => true
      end && rekey_clean now rest (merge_step now acc next)
  end.

(** A record observed again at [now]. *)
Definition touch (now : Z) (l : TrackedLoop) : TrackedLoop :=
  {| id := id l; pid := pid l; directory := directory l;
     worktree := worktree l; status := status l; iteration := iteration l;
     maxIterations := maxIterations l; hat := hat l;
     elapsedSecs := elapsedSecs l; backend := backend l;
     source := source l; ptySession := ptySession l;
     removed := removed l; lastSeenAt := now |}.

(** What a second merge of [polled] makes of a record of the first. *)
Definition refreshed (now : Z) (polled : list TrackedLoop) (l : TrackedLoop)
  : TrackedLoop :=
  if bool_decide (id l ∈ ids polled) then touch now l else l.

(** The candidates for one key, and their successive application to the
    record under that key. *)
Definition candidates_for (k : string) (polled : list TrackedLoop)
  : list TrackedLoop :=
  filter (λ c, id c = k) polled.

Definition updates (now : Z) (cs : list TrackedLoop) (v : TrackedLoop)
  : TrackedLoop :=
  fold_left (merge_existing now) cs v.

(** Every identity a candidate has carried is a key of [byId], and the
    record under it carries the stamp of this pass and is only
    refreshed when its candidates are applied to it again. *)
Definition settled (now : Z) (pre : list TrackedLoop)
    (a : Map TrackedLoop * gset string) : Prop :=
  well_formed a.1
  ∧ (∀ k, k ∈ ids pre → k ∈ keys a.1)
  ∧ (∀ k v, get k a.1 = Some v → k ∈ ids pre →
            lastSeenAt v = now
            ∧ ∀ n', updates n' (candidates_for k pre) v = touch n' v).

(** ** Outcomes of the enumerator *)

Definition failed (o : ExecOutcome) : Prop :=
  match o with
  | Exited code _ => code ≠ 0
  | Rejected _ => True
  end.

Definition exited (o : ExecOutcome) : Prop :=
  match o with
  | Exited _ _ => True
  | Rejected _ => False
  end.

Definition succeeded (o : ExecOutcome) : Prop :=
  match o with
  | Exited code _ => code = 0
  | Rejected _ => False
  end.

(** The message of the first rejected call, in the order of the
    directories. *)
Definition first_rejection (outcome : string → ExecOutcome)
    (dirs : list string) : option string :=
  head (omap (λ d, match outcome d with
                   | Rejected message => Some message
                   | Exited _ _ => None
                   end) dirs).

(** An exit with 0 whose output [parseLoopsJson] throws on. *)
Definition unparsable (host : Host) (parsedAt : string → Z) (dir : string)
    (o : ExecOutcome) : Prop :=
  match o with
  | Exited code out =>
      code = 0
      ∧ ∃ message,
          parseLoopsJson host (parsedAt dir) (trim host (default "" out))
          = Throw message
  | Rejected _ => False
  end.

(** A source that gave nothing to merge: it failed, or its output was
    malformed. *)
Definition unusable (host : Host) (parsedAt : string → Z) (dir : string)
    (o : ExecOutcome) : Prop :=
  failed o ∨ unparsable host parsedAt dir o.

(** ** States of the manager *)

(** The states the manager goes through: the calls of its interface, with
    any arguments, from the state its constructor leaves. A poll is taken
    as not interleaved with other calls. *)
Inductive reachable : State → Prop :=
  | reach_init : reachable init
  | reach_getFocused st : reachable st → reachable (getFocused st).1
  | reach_cycleFocus d st : reachable st → reachable (cycleFocus d st).1
  | reach_upsertToolLoop now loop st :
      reachable st → reachable (upsertToolLoop now loop st)
  | reach_setFocusById target st :
      reachable st → reachable (setFocusById target st)
  | reach_mergePolled now polled st :
      reachable st → reachable (mergePolled now polled st)
  | reach_poll host parsedAt now outcome st :
      reachable st →
      reachable (poll host parsedAt now (quiet outcome) st).1.

(** The cursor points into the active loops, or is 0 when there is none. *)
Definition focus_in_range (st : State) : Prop :=
  0 ≤ focusedIndex st
  ≤ Z.max 0 (Z.of_nat (length (active (loops st))) - 1).

(** ** Further vocabulary *)

(** [n] successive calls of [cycleFocus]: the state they leave and the
    loops they return, in order. *)
Fixpoint cycle_many (d : Direction) (n : nat) (st : State)
  : State * list (option TrackedLoop) :=
  match n with
  | O => (st, [])
  | S n' =>
      let r := cycleFocus d st in
      let rest := cycle_many d n' r.1 in
      (rest.1, r.2 :: rest.2)
  end.

(** The record shows what the candidate reported. *)
Definition reports (v c : TrackedLoop) : Prop :=
  id v = id c ∧ pid v = pid c ∧ status v = status c
  ∧ iteration v = iteration c ∧ maxIterations v = maxIterations c
  ∧ hat v = hat c ∧ elapsedSecs v = elapsedSecs c ∧ backend v = backend c.

(** What an empty poll result leaves of a record. *)
Definition unlisted (l : TrackedLoop) : TrackedLoop :=
  if decide (source l = Tool) then l else mark l.

(** Every loop of the collection has a directory. *)
Definition located (ls : list TrackedLoop) : Prop :=
  ∀ l, l ∈ ls → directory l ≠ None.

(** The poll names no loop that is marked removed and leaves out no
    discovered loop that is active. *)
Definition same_membership (polled ls : list TrackedLoop) : Prop :=
  ∀ r0, r0 ∈ ls →
    (id r0 ∈ ids polled → removed r0 = false)
    ∧ (id r0 ∉ ids polled → removed r0 = false → source r0 = Tool).

(** An item of the enumerator's output that carries its identity in at
    most one of the two fields the readers look at. *)
Definition one_identity (item : json) : Prop :=
  as_string (prop item "id") = None ∨ as_string (prop item "loop_id") = None.

(** The characters of a string, and the string of a line break. *)
Definition chars (s : string) : list ascii := String.list_ascii_of_string s.

Definition newline : string := String OverlayView.line_feed "".

(** The reading of an abbreviated path: a leading tilde stands for the
    home directory. *)
Definition expand (home : string) (shown : string) : string :=
  match shown with
  | String "~" rest => home +:+ rest
  | _ => shown
  end.

(** Each turn of the waiting loop comes at least 400 ms after the one
    before: the loop sleeps that long. *)
Definition paced (started : Z) (turns : list LoopTool.Turn) : Prop :=
  ∀ k turn, turns !! k = Some turn →
            started + 400 * Z.of_nat k ≤ LoopTool.clock turn.

Section overlay_vocabulary.
Import Overlay OverlayView.


(** What arrives at the overlay once it is constructed: an input, with
    the collaborators as they are then; the end of the command that a
    text view or an action has started, with its result; and a
    notification of the manager, which the listener hears as long as the
    overlay is subscribed. *)
Inductive Event : Type :=
  | Input (host : Collaborators) (data : string)
  | TextViewEnded (command_ : list string) (res : ExecResult)
  | ActionEnded (host : Host) (label_ : string) (res : ExecResult)
  | Changed (host : Collaborators).

Definition step (String_ : Z → string) (e : Event) (o : Overlay) : Overlay :=
  match e with
  | Input host data => (handleInput host data o).1
  | TextViewEnded command_ res =>
      (runTextView_settled String_ command_ res o).1
  | ActionEnded host label_ res => runAction_settled String_ host label_ res o
  | Changed host => if subscribed o then (onChange host o).1 else o
  end.

(** The overlay after a sequence of events. *)
Definition run (String_ : Z → string) (events : list Event) (o : Overlay)
  : Overlay :=
  fold_left (λ o e, step String_ e o) events o.

(** No command of a text view ends while the view is not loading. (One
    does when a second text view is started before the first has ended:
    the end of the first stops the loading, and the second ends
    later.) *)
Fixpoint orderly (String_ : Z → string) (events : list Event) (o : Overlay)
  : Prop :=
  match events with
  | [] => True
  | e :: rest =>
      match e with
      | TextViewEnded _ _ => textLoading o = true
      | _ => True
      end
      ∧ orderly String_ rest (step String_ e o)
  end.

Definition scroll_in_range (o : Overlay) : Prop :=
  0 ≤ textScroll o ≤ last_line o.

(** The scroll position is inside the text, and the text is empty while
    the view is loading. *)
Definition text_in_order (o : Overlay) : Prop :=
  scroll_in_range o ∧ (textLoading o = true → textViewLines o = []).

(** The discipline of the log-following sessions, checked along a
    sequence of effects: a session is created only when none is live,
    only the live one is disposed, and the session of a tool-started loop
    is never disposed. The result is the session that is live at the end;
    [None] is a breach. *)
Fixpoint log_sessions (live : option nat) (effects : list PaneEffect)
  : option (option nat) :=
  match effects with
  | [] => Some live
  | Spawn n _ _ _ _ :: rest =>
      match live with
      | None => log_sessions (Some n) rest
      | Some _ => None
      end
  | Dispose (LogSession n) :: rest =>
      if decide (live = Some n) then log_sessions None rest else None
  | Dispose (ToolSession _) :: rest => None
  | Resize _ _ _ :: rest => log_sessions live rest
  end.

(** The log-following session a pane holds. *)
Definition held (p : Pane) : option nat :=
  match paneSession p with
  | Some (LogSession n) => if paneEphemeral p then Some n else None
  | _ => None
  end.

(** The session of a tool-started loop is never held as one to dispose. *)
Definition owned (p : Pane) : Prop :=
  ∀ s, paneSession p = Some (ToolSession s) → paneEphemeral p = false.

End overlay_vocabulary.

(** * Sample data *)

(** A worktree loop that an earlier poll discovered in [/p]. *)
Definition worktree_loop : TrackedLoop :=
  mkLoop "wt-1" None (Some "/p") None "running" 2 5 (Some "builder") 40
         (Some "claude") Discovered None false 10.

(** Tool-started default loops, with the identities the tool assigns. *)
Definition primary_x : TrackedLoop :=
  tool_record 11 (mkToolLoop "primary-20260207-x" 7 "/p" None (Some 1%nat)).

Definition primary_a : TrackedLoop :=
  tool_record 11 (mkToolLoop "primary-a" 7 "/p" None (Some 1%nat)).

Definition primary_b : TrackedLoop :=
  tool_record 12 (mkToolLoop "primary-b" 8 "/p" None (Some 2%nat)).

Definition collection : list TrackedLoop := [worktree_loop; primary_x].

(** A manager that holds them, after two polls that failed. *)
Definition manager : State :=
  mkState collection 1 false 2 (Some "all poll attempts failed") 4.

(** Three active loops and a cursor beyond them. *)
Definition overshoot : State :=
  mkState [primary_a; primary_b; worktree_loop] 4 false 0 None 0.

(** Candidates as the resolver yields them. *)
Definition candidate (i : string) (d : option string) : TrackedLoop :=
  mkLoop i None d None "running" 4 10 None 75 None Discovered None false 0.

Definition placeholder_candidate : TrackedLoop :=
  candidate "(primary)" (Some "/p").

Definition in_place_candidate : TrackedLoop :=
  candidate "wt-1" (Some "(in-place)").

Definition in_place_json : json :=
  JObj [("id", JStr "wt-1"); ("directory", JStr "(in-place)");
        ("location", JStr "chipper-crane")].

Definition quoted (s : string) : string :=
  String (Ascii.ascii_of_nat 34) (s +:+ String (Ascii.ascii_of_nat 34) "").

(** The output of the enumerator for one worktree loop. *)
Definition one_loop_json : string :=
  "[{" +:+ quoted "id" +:+ ":" +:+ quoted "wt-2" +:+ "}]".

(** A host whose [JSON.parse] knows the two outputs used below. *)
Definition sample_host : Host :=
  {| JSON_parse := λ s,
       if bool_decide (s = "[]") then Some (JArr [])
       else if bool_decide (s = one_loop_json)
       then Some (JArr [JObj [("id", JStr "wt-2")]])
       else None;
     trim := λ s, s;
     process_cwd := "/home/dev" |}.

Definition all_fail : string → ExecOutcome := λ _, Exited 1 None.
Definition all_abort : string → ExecOutcome := λ _, Rejected "aborted".
Definition all_list : string → ExecOutcome :=
  λ _, Exited 0 (Some one_loop_json).
Definition all_garbage : string → ExecOutcome :=
  λ _, Exited 0 (Some "garbage").

(** A key matcher in the manner of a terminal: escape is the byte 27. *)
Definition tty_matches (data key : string) : bool :=
  bool_decide (key = Overlay.Key_escape
               ∧ data = String (Ascii.ascii_of_nat 27) EmptyString).

(** A terminal of 100 columns and 40 rows. *)
Definition terminal : Overlay.Terminal :=
  Overlay.mkTerminal 100 40 (Some "/home/dev") "/home/dev/proj".

Definition tty : Overlay.Collaborators :=
  {| Overlay.matchesKey := tty_matches; Overlay.focused := None;
     Overlay.cycled := λ _, None;
     Overlay.readLoopId := λ _, None;
     Overlay.sessionRows := λ _, None;
     Overlay.tui_terminal := terminal |}.

Definition stop_confirm : Overlay.Confirm :=
  Overlay.mkConfirm "stop" ["loops"; "stop"; "wt-1"] "Stop".

Definition stop_pending : Overlay.Overlay :=
  {| Overlay.view := Overlay.Pty; Overlay.textViewTitle := None;
     Overlay.textViewLines := []; Overlay.textScroll := 0;
     Overlay.textLoading := false; Overlay.confirm := Some stop_confirm;
     Overlay.pane := Overlay.fresh_pane; Overlay.subscribed := true |}.

Definition three_candidates : list TrackedLoop :=
  [candidate "wt-9" None; candidate "wt-1" None; candidate "wt-3" None].

(** A poll result that names the default loop by the placeholder. *)
Definition second_poll : list TrackedLoop :=
  [placeholder_candidate; in_place_candidate].

(** ** Further sample data *)

(** Two loops as the tool starts them, and the manager after it has. *)
Definition tool_a : ToolLoop :=
  mkToolLoop "primary-a" 7 "/p" None (Some 1%nat).

Definition tool_w : ToolLoop :=
  mkToolLoop "wt-7" 9 "/q" (Some "/q/.worktrees/wt-7") (Some 3%nat).

Definition two_started : State :=
  upsertToolLoop 12 tool_w (upsertToolLoop 11 tool_a init).

(** A poll result that finds one more loop. *)
Definition one_more : list TrackedLoop := [candidate "wt-9" (Some "/q")].

(** Decimal notation, for the conversion of a number to a string. *)
Definition decimal (n : Z) : string := pretty n.

(** A TUI without colours that cuts a text to a width by characters. *)
Definition plain_ui : Widget.Ui :=
  {| Widget.fg := λ _ s, s;
     Widget.truncateToWidth :=
       λ s w _, OverlayView.slice_to (Z.to_nat w) s;
     Widget.visibleWidth := λ s, Z.of_nat (String.length s) |}.

(** The overlay with nothing pending. *)
Definition idle : Overlay.Overlay :=
  Overlay.set_confirm None None stop_pending.

(** The collaborators when the default loop is focused and its identity
    is on file. *)
Definition on_default : Overlay.Collaborators :=
  {| Overlay.matchesKey := tty_matches;
     Overlay.focused := Some (candidate "(primary)" (Some "/p"));
     Overlay.cycled := λ _, Some (candidate "wt-9" (Some "/q"));
     Overlay.readLoopId := λ _, Some "primary-20260207-x";
     Overlay.sessionRows := λ _, None;
     Overlay.tui_terminal := terminal |}.

Definition escape_key : string := String (Ascii.ascii_of_nat 27) EmptyString.

(** A key matcher that also knows the right arrow, and the collaborators
    when a cycle forward reaches a discovered worktree loop. *)
Definition right_arrow : string := "<right>".

Definition with_arrows : Overlay.Collaborators :=
  {| Overlay.matchesKey :=
       λ data key,
         tty_matches data key
         || bool_decide (key = Overlay.Key_right ∧ data = right_arrow);
     Overlay.focused := Some (candidate "wt-1" (Some "/p"));
     Overlay.cycled := λ _, Some (candidate "wt-9" (Some "/q"));
     Overlay.readLoopId := λ _, None;
     Overlay.sessionRows := λ _, None;
     Overlay.tui_terminal := terminal |}.

(** The collaborators when a cycle forward reaches the default loop and
    its identity is on file. *)
Definition placeholder_ahead : Overlay.Collaborators :=
  {| Overlay.matchesKey := Overlay.matchesKey with_arrows;
     Overlay.focused := Some (candidate "wt-1" (Some "/p"));
     Overlay.cycled := λ _, Some (candidate "(primary)" (Some "/p"));
     Overlay.readLoopId := λ _, Some "primary-20260207-x";
     Overlay.sessionRows := λ _, None;
     Overlay.tui_terminal := terminal |}.

(** A command that failed, and one that printed two lines. *)
Definition failed_result : OverlayView.ExecResult :=
  OverlayView.mkExecResult 1 None (Some "boom").

Definition two_lines : OverlayView.ExecResult :=
  OverlayView.mkExecResult 0
    (Some ("a" +:+ String OverlayView.line_feed "b")) None.

(** The history is asked for, arrives with two lines and is scrolled
    down twice. *)
Definition reading : list Event :=
  [Input on_default "H";
   Changed with_arrows;
   TextViewEnded ["loops"; "history"; "primary-20260207-x"] two_lines;
   Input on_default "j"; Input on_default "j"].

(** The history is asked for and left, the diff is asked for, the
    history arrives and is scrolled down, and the diff fails. *)
Definition overlapping : list Event :=
  [Input on_default "H"; Input on_default "q"; Input on_default "D";
   TextViewEnded ["loops"; "history"; "primary-20260207-x"] two_lines;
   Input on_default "j"; Input on_default "j";
   TextViewEnded ["loops"; "diff"; "primary-20260207-x"]
     (OverlayView.mkExecResult 0 (Some "boom") None)].

(** The waiting loop sees nothing new, then the identity on file. *)
Definition two_turns : list LoopTool.Turn :=
  [LoopTool.mkTurn 1000 (Exited 0 (Some "[]")) None;
   LoopTool.mkTurn 1400 (Exited 0 (Some "[]")) (Some "primary-20260207-x")].

(** A command that failed without a word. *)
Definition silent_failure : OverlayView.ExecResult :=
  OverlayView.mkExecResult 2 None None.

(** A loop in a worktree below the home directory, and one whose
    worktree is the empty string. *)
Definition home_loop : TrackedLoop :=
  mkLoop "wt-7" None (Some "/q") (Some "/home/dev/proj/.worktrees/wt-7")
         "running" 1 5 None 12 None Discovered None false 10.

Definition blank_worktree : TrackedLoop :=
  mkLoop "wt-5" None (Some "/q") (Some "") "running" 1 5 None 12 None
         Discovered None false 10.

(** * Properties *)

(** ** The insertion-ordered Map *)

Section map_facts.
Context {V : Type}.
Implicit Types (m : Map V) (k : string) (v : V).

Lemma get_Some_elem k v m : get k m = Some v → (k, v) ∈ m.
Proof.
  induction m as [|[k' v'] m IH]; simpl; [done|].
  destruct (decide (k' = k)) as [->|]; intros H.
  - injection H as ->. left.
  - right. auto.
Qed.

Lemma get_is_Some k m : is_Some (get k m) ↔ k ∈ keys m.
Proof.
  unfold keys. induction m as [|[k' v'] m IH]; simpl.
  - split.
    + intros [? ?]. done.
    + intros H. inversion H.
  - destruct (decide (k' = k)) as [->|Hne].
    + split; [intros _; left | eauto].
    + rewrite IH. split; [intros H; by right|].
      intros H. apply elem_of_cons in H as [H|H]; [congruence | done].
Qed.

Lemma get_None k m : get k m = None ↔ k ∉ keys m.
Proof.
  rewrite <- get_is_Some, eq_None_not_Some. done.
Qed.

Lemma has_true k m : has k m = true ↔ k ∈ keys m.
Proof.
  rewrite <- get_is_Some. unfold has.
  destruct (get k m); split; try done; eauto.
Qed.

Lemma has_false k m : has k m = false ↔ k ∉ keys m.
Proof.
  rewrite <- has_true. destruct (has k m); split; congruence.
Qed.

Lemma elem_get k v m : NoDup (keys m) → (k, v) ∈ m → get k m = Some v.
Proof.
  unfold keys. induction m as [|[k' v'] m IH]; simpl; intros Hnd Hin.
  - inversion Hin.
  - apply NoDup_cons in Hnd as [Hk' Hnd].
    apply elem_of_cons in Hin as [Heq|Hin].
    + injection Heq as -> ->. by rewrite decide_True.
    + destruct (decide (k' = k)) as [->|]; [|auto].
      exfalso. apply Hk'. apply list_elem_of_fmap. by exists (k, v).
Qed.

Lemma get_set k' k v m :
  get k' (set k v m) = if decide (k = k') then Some v else get k' m.
Proof.
  induction m as [|[k0 v0] m IH]; simpl.
  - done.
  - destruct (decide (k0 = k)) as [->|Hne]; simpl.
    + destruct (decide (k = k')); done.
    + rewrite IH. destruct (decide (k0 = k')) as [->|]; [|done].
      by rewrite decide_False.
Qed.

Lemma get_set_eq k v m : get k (set k v m) = Some v.
Proof. rewrite get_set. by rewrite decide_True. Qed.

Lemma get_set_ne k' k v m : k ≠ k' → get k' (set k v m) = get k' m.
Proof. intros. rewrite get_set. by rewrite decide_False. Qed.

Lemma keys_set k v m :
  keys (set k v m) = if has k m then keys m else keys m ++ [k].
Proof.
  unfold keys, has. induction m as [|[k0 v0] m IH]; csimpl; [done|].
  destruct (decide (k0 = k)) as [->|Hne]; csimpl; [done|].
  rewrite IH. by destruct (get k m).
Qed.

Lemma keys_set_present k v m : k ∈ keys m → keys (set k v m) = keys m.
Proof. intros H. rewrite keys_set. apply has_true in H. by rewrite H. Qed.

Lemma keys_set_absent k v m : k ∉ keys m → keys (set k v m) = keys m ++ [k].
Proof. intros H. rewrite keys_set. apply has_false in H. by rewrite H. Qed.

Lemma NoDup_keys_set k v m : NoDup (keys m) → NoDup (keys (set k v m)).
Proof.
  intros Hnd. rewrite keys_set. destruct (has k m) eqn:Hh; [done|].
  apply has_false in Hh. apply NoDup_app. split_and!; [done| |apply NoDup_singleton].
  intros x Hx Hx'. apply list_elem_of_singleton in Hx'. by subst.
Qed.

Lemma elem_of_set k v k' v' m :
  NoDup (keys m) →
  (k', v') ∈ set k v m ↔ (k' = k ∧ v' = v) ∨ (k' ≠ k ∧ (k', v') ∈ m).
Proof.
  intros Hnd. split.
  - intros Hin. apply elem_get in Hin; [|by apply NoDup_keys_set].
    rewrite get_set in Hin. destruct (decide (k = k')) as [->|Hne].
    + left. by injection Hin as ->.
    + right. split; [done|]. by apply get_Some_elem.
  - intros [[-> ->]|[Hne Hin]].
    + apply get_Some_elem, get_set_eq.
    + apply get_Some_elem. rewrite get_set_ne by done. by apply elem_get.
Qed.

Lemma keys_delete_sublist k m : keys (delete k m) `sublist_of` keys m.
Proof.
  unfold keys. induction m as [|[k0 v0] m IH]; simpl; [done|].
  destruct (decide (k0 = k)); simpl.
  - by apply sublist_cons.
  - by apply sublist_skip.
Qed.

Lemma NoDup_keys_delete k m : NoDup (keys m) → NoDup (keys (delete k m)).
Proof. intros H. eapply sublist_NoDup; [done | apply keys_delete_sublist]. Qed.

Lemma get_delete_ne k' k m : k ≠ k' → get k' (delete k m) = get k' m.
Proof.
  intros Hne. induction m as [|[k0 v0] m IH]; simpl; [done|].
  destruct (decide (k0 = k)) as [->|]; simpl.
  - by rewrite decide_False.
  - by rewrite IH.
Qed.

Lemma get_delete_eq k m : NoDup (keys m) → get k (delete k m) = None.
Proof.
  unfold keys. induction m as [|[k0 v0] m IH]; simpl; [done|].
  intros Hnd. apply NoDup_cons in Hnd as [Hk0 Hnd].
  destruct (decide (k0 = k)) as [->|Hne]; simpl.
  - by apply get_None.
  - rewrite decide_False by done. auto.
Qed.

Lemma elem_of_delete k k' v' m :
  NoDup (keys m) → (k', v') ∈ delete k m ↔ k' ≠ k ∧ (k', v') ∈ m.
Proof.
  intros Hnd. split.
  - intros Hin. apply elem_get in Hin; [|by apply NoDup_keys_delete].
    destruct (decide (k = k')) as [->|Hne].
    + by rewrite get_delete_eq in Hin.
    + rewrite get_delete_ne in Hin by done.
      split; [done|]. by apply get_Some_elem.
  - intros [Hne Hin]. apply get_Some_elem.
    rewrite get_delete_ne by done. by apply elem_get.
Qed.

Lemma length_set k v m :
  length (set k v m) = if has k m then length m else S (length m).
Proof.
  rewrite <- !(length_fmap fst). fold (keys (set k v m)). fold (keys m).
  rewrite keys_set. destruct (has k m); [done|].
  rewrite length_app. simpl. lia.
Qed.

Lemma length_delete k m : k ∈ keys m → S (length (delete k m)) = length m.
Proof.
  unfold keys. induction m as [|[k0 v0] m IH]; simpl; intros Hin.
  - inversion Hin.
  - destruct (decide (k0 = k)) as [->|Hne]; simpl; [done|].
    apply elem_of_cons in Hin as [?|Hin]; [congruence|].
    by rewrite IH.
Qed.

Lemma fold_set_fresh (l acc : list (string * V)) :
  NoDup ((acc ++ l).*1) →
  fold_left (λ m kv, set kv.1 kv.2 m) l acc = acc ++ l.
Proof.
  revert acc. induction l as [|[k v] l IH]; intros acc Hnd; simpl.
  - by rewrite app_nil_r.
  - assert (k ∉ keys acc) as Hk.
    { unfold keys. rewrite fmap_app in Hnd. apply NoDup_app in Hnd as (_ & Hd & _).
      intros Hin. apply (Hd k Hin). simpl. left. }
    assert (set k v acc = acc ++ [(k, v)]) as ->.
    { clear -Hk. unfold keys in Hk. induction acc as [|[k0 v0] acc IH]; simpl; [done|].
      simpl in Hk. apply not_elem_of_cons in Hk as [Hne Hk].
      rewrite decide_False by done. by rewrite IH. }
    rewrite IH; rewrite <- app_assoc; done.
Qed.

Lemma of_entries_NoDup (l : list (string * V)) :
  NoDup (l.*1) → of_entries l = l.
Proof. intros. unfold of_entries. by rewrite fold_set_fresh. Qed.

Lemma NoDup_keys_of_entries (l : list (string * V)) :
  NoDup (keys (of_entries l)).
Proof.
  unfold of_entries.
  assert (∀ acc : Map V, NoDup (keys acc) →
            NoDup (keys (fold_left (λ m kv, set kv.1 kv.2 m) l acc))) as H.
  { induction l as [|[k v] l IH]; intros acc Hacc; simpl; [done|].
    apply IH. by apply NoDup_keys_set. }
  apply H. constructor.
Qed.
End map_facts.

Section array_facts.
Context {A : Type}.
Implicit Types (p : A → bool) (a : list A).

Lemma findIndex_Some p a i :
  findIndex p a = Some i →
  ∃ x, a !! i = Some x ∧ p x = true
       ∧ ∀ j y, (j < i)%nat → a !! j = Some y → p y = false.
Proof.
  revert i. induction a as [|x a IH]; intros i; simpl; [done|].
  destruct (p x) eqn:Hpx.
  - intros [= <-]. exists x. split_and!; [done..|]. lia.
  - destruct (findIndex p a) as [i'|] eqn:Hf; simpl; [|done].
    intros [= <-]. destruct (IH i' eq_refl) as (y & Hy & Hpy & Hmin).
    exists y. split_and!; [done..|].
    intros [|j] z Hj Hz; simpl in Hz.
    + by injection Hz as <-.
    + apply (Hmin j); [lia | done].
Qed.

Lemma findIndex_None p a :
  findIndex p a = None → ∀ x, x ∈ a → p x = false.
Proof.
  induction a as [|x a IH]; simpl; intros Hf y Hy; [inversion Hy|].
  destruct (p x) eqn:Hpx; [done|].
  destruct (findIndex p a); [done|].
  apply elem_of_cons in Hy as [->|Hy]; auto.
Qed.

End array_facts.

Lemma fmap_id_on {A} (f : A → A) (l : list A) :
  (∀ x, x ∈ l → f x = x) → f <$> l = l.
Proof.
  induction l as [|x l IH]; intros Hf; [done|]. csimpl.
  rewrite (Hf x) by left. f_equal. apply IH. intros y Hy. apply Hf. by right.
Qed.

Lemma fmap_ext_on {A B} (f g : A → B) (l : list A) :
  (∀ x, x ∈ l → f x = g x) → f <$> l = g <$> l.
Proof.
  induction l as [|x l IH]; intros Hf; [done|]. csimpl.
  rewrite (Hf x) by left. f_equal. apply IH. intros y Hy. apply Hf. by right.
Qed.

(** ** upsertToolLoop *)

(** C10. Upserting an identity that the collection already holds replaces
    the first record with that identity, in place, by a record that is
    running with zeroed progress, empty hat and backend, source tool, the
    supplied session, not removed and freshly stamped; nothing a poll had
    filled in survives, and neither the other records nor the focus move. *)
Theorem upsert_existing_resets (now : Z) (loop : ToolLoop) (st : State) :
  tl_id loop ∈ id <$> loops st →
  ∃ (i : nat) (existing : TrackedLoop),
    loops st !! i = Some existing
    ∧ id existing = tl_id loop
    ∧ (∀ j y, (j < i)%nat → loops st !! j = Some y → id y ≠ tl_id loop)
    ∧ loops (upsertToolLoop now loop st)
      = <[i := {| id := tl_id loop;
                  pid := Some (tl_pid loop);
                  directory := Some (tl_directory loop);
                  worktree := tl_worktree loop;
                  status := "running";
                  iteration := 0;
                  maxIterations := 0;
                  hat := None;
                  elapsedSecs := 0;
                  backend := None;
                  source := Tool;
                  ptySession := tl_ptySession loop;
                  removed := false;
                  lastSeenAt := now |}]> (loops st)
    ∧ focusedIndex (upsertToolLoop now loop st) = focusedIndex st.
Proof.
  intros Hin. apply list_elem_of_fmap in Hin as (r & Hr & Hrin).
  unfold upsertToolLoop.
  destruct (findIndex _ (loops st)) as [i|] eqn:Hf.
  - destruct (findIndex_Some _ _ _ Hf) as (x & Hx & Hpx & Hmin).
    apply bool_decide_eq_true in Hpx.
    exists i, x. rewrite Hx. split_and!; [done..| |done|done].
    intros j y Hj Hy. specialize (Hmin j y Hj Hy).
    by apply bool_decide_eq_false in Hmin.
  - pose proof (findIndex_None _ _ Hf r Hrin) as Hfalse.
    apply bool_decide_eq_false in Hfalse. congruence.
Qed.

Lemma upsert_existing_resets_witness :
  "wt-1" ∈ id <$> loops manager
  ∧ loops (upsertToolLoop 50 (mkToolLoop "wt-1" 9 "/q" None (Some 3%nat))
                          manager)
    = [ mkLoop "wt-1" (Some 9) (Some "/q") None "running" 0 0 None 0 None
               Tool (Some 3%nat) false 50;
        primary_x ].
Proof.
  assert ("wt-1" ∈ id <$> loops manager) as Hin by left.
  split; [exact Hin|].
  destruct (upsert_existing_resets 50
              (mkToolLoop "wt-1" 9 "/q" None (Some 3%nat)) manager Hin)
    as (i & existing & Hi & Hid & _ & Hloops & _).
  rewrite Hloops. destruct i as [|[|i]]; [reflexivity| |discriminate Hi].
  injection Hi as <-. discriminate Hid.
Defined.

(** ** The confirmation prompt of the overlay *)

Section confirmation.
Import Overlay.

(** C9, as the code has it. While a confirmation is pending: [y] or [Y]
    starts the pending command, once, and clears the pending state;
    escape, [n] or [N] clears it and starts nothing; every other input is
    swallowed: it starts nothing and leaves the overlay, the pending
    confirmation included, exactly as it was. *)
Theorem confirm_pending_input
    (host : Collaborators) (data : string) (o : Overlay) (c : Confirm) :
  confirm o = Some c →
  let r := handleInput host data o in
  (matchesKey host data Key_escape = false → data = "y" ∨ data = "Y" →
   confirm r.1 = None ∧ executed r.2 = [command c])
  ∧ (matchesKey host data Key_escape = true ∨ data = "n" ∨ data = "N" →
     confirm r.1 = None ∧ executed r.2 = [])
  ∧ (matchesKey host data Key_escape = false →
     data ≠ "y" → data ≠ "Y" → data ≠ "n" → data ≠ "N" →
     r = (o, []))
  ∧ (executed r.2 ≠ [] → data = "y" ∨ data = "Y").
Proof.
  intros Hc r. subst r. unfold handleInput. rewrite Hc.
  destruct (matchesKey host data Key_escape) eqn:Hesc.
  - split_and!; done.
  - destruct (decide (data = "y")) as [->|Hy];
      [|destruct (decide (data = "Y")) as [->|HY];
        [|destruct (decide (data = "n")) as [->|Hn];
          [|destruct (decide (data = "N")) as [->|HN]]]];
      repeat (rewrite ?bool_decide_eq_true_2, ?bool_decide_eq_false_2 by done);
      cbn; split_and!; try done; intuition congruence.
Qed.

Lemma confirm_pending_input_witness :
  confirm stop_pending = Some stop_confirm
  ∧ (confirm (handleInput tty "y" stop_pending).1 = None
     ∧ executed (handleInput tty "y" stop_pending).2
       = [["loops"; "stop"; "wt-1"]])
  ∧ (confirm (handleInput tty "n" stop_pending).1 = None
     ∧ executed (handleInput tty "n" stop_pending).2 = [])
  ∧ handleInput tty "x" stop_pending = (stop_pending, []).
Proof.
  split; [reflexivity|].
  destruct (confirm_pending_input tty "y" stop_pending _ eq_refl)
    as (Hy & _ & _ & _).
  destruct (confirm_pending_input tty "n" stop_pending _ eq_refl)
    as (_ & Hn & _ & _).
  destruct (confirm_pending_input tty "x" stop_pending _ eq_refl)
    as (_ & _ & Hx & _).
  split; [|split].
  - apply Hy; [reflexivity | by left].
  - apply Hn. right. by left.
  - apply Hx; [reflexivity | done..].
Defined.

(** The input [x] arrives while a stop is pending: nothing is executed,
    and the confirmation is still pending afterwards. *)
Lemma confirm_other_input_stays_pending :
  ¬ (∀ (host : Collaborators) (data : string) (o : Overlay) (c : Confirm),
       confirm o = Some c →
       matchesKey host data Key_escape = false →
       data ≠ "y" → data ≠ "Y" →
       confirm (handleInput host data o).1 = None
       ∧ executed (handleInput host data o).2 = []).
Proof.
  intros H.
  destruct (H tty "x" stop_pending _ eq_refl eq_refl) as [Hcleared _];
    [done..|].
  discriminate Hcleared.
Qed.
End confirmation.

(** ** poll *)

Section poll_facts.
Context (host : Host) (parsedAt : string → Z).
Implicit Types (st : State) (dirs : list string) (exec : Exec).

(** When every source fails, the loop over the directories ends with
    [anySuccess] as it was, or it is left by the first rejection. *)
Lemma poll_each_all_failed (outcome : string → ExecOutcome) dirs acc st :
  (∀ d, d ∈ dirs → failed (outcome d)) →
  poll_each host parsedAt (quiet outcome) dirs acc st = (Normal acc, st)
  ∨ ∃ message,
      poll_each host parsedAt (quiet outcome) dirs acc st
      = (Throw message, st).
Proof.
  induction dirs as [|d dirs IH]; intros Hall; simpl; [by left|].
  pose proof (Hall d ltac:(left)) as Hd.
  destruct (outcome d) as [code out|message]; simpl in *.
  - rewrite decide_False by done. apply IH.
    intros d' Hd'. apply Hall. by right.
  - right. by exists message.
Qed.

Lemma poll_each_first_rejection (outcome : string → ExecOutcome) dirs acc st :
  (∀ d, d ∈ dirs → failed (outcome d)) →
  poll_each host parsedAt (quiet outcome) dirs acc st
  = (match first_rejection outcome dirs with
     | Some message => Throw message
     | None => Normal acc
     end, st).
Proof.
  unfold first_rejection.
  induction dirs as [|d dirs IH]; intros Hall; cbn [poll_each]; [done|].
  pose proof (Hall d ltac:(left)) as Hd.
  unfold quiet at 1 2. cbn [fst snd omap list_omap].
  destruct (outcome d) as [code out|message]; cbn in *; [|done].
  rewrite decide_False by done. apply IH.
  intros d' Hd'. apply Hall. by right.
Qed.

Lemma poll_each_unparsable (outcome : string → ExecOutcome) dirs acc st :
  (∀ d, d ∈ dirs → unparsable host parsedAt d (outcome d)) →
  poll_each host parsedAt (quiet outcome) dirs acc st
  = (Normal (acc.1, if dirs is [] then acc.2 else true), st).
Proof.
  revert acc. induction dirs as [|d dirs IH]; intros acc Hall;
    cbn [poll_each]; [by destruct acc|].
  pose proof (Hall d ltac:(left)) as Hd.
  unfold quiet at 1 2. cbn [fst snd].
  destruct (outcome d) as [code out|message]; cbn in Hd; [|done].
  destruct Hd as [-> [message Hthrow]].
  rewrite decide_True by done. cbv zeta. rewrite Hthrow.
  rewrite IH by (intros d' Hd'; apply Hall; by right).
  cbn [fst snd]. by destruct dirs.
Qed.

Lemma poll_each_exited (outcome : string → ExecOutcome) dirs acc st :
  (∀ d, d ∈ dirs → exited (outcome d)) →
  ∃ parsed any,
    poll_each host parsedAt (quiet outcome) dirs acc st
    = (Normal (parsed, any), st)
    ∧ (acc.2 = true ∨ (∃ d, d ∈ dirs ∧ succeeded (outcome d)) → any = true).
Proof.
  revert acc. induction dirs as [|d dirs IH]; intros acc Hall; simpl.
  - exists acc.1, acc.2. split; [by destruct acc|].
    intros [H|(d & Hd & _)]; [done | inversion Hd].
  - pose proof (Hall d ltac:(left)) as Hd.
    destruct (outcome d) as [code out|message] eqn:Ho; simpl in *; [|done].
    destruct (decide (code = 0)) as [->|Hne].
    + edestruct IH as (parsed & any & Heq & Hany);
        [intros d' Hd'; apply Hall; by right|].
      exists parsed, any. split; [exact Heq|].
      intros _. apply Hany. by left.
    + destruct (IH acc) as (parsed & any & Heq & Hany);
        [intros d' Hd'; apply Hall; by right|].
      exists parsed, any. split; [exact Heq|].
      intros [H|(d' & Hd' & Hs)]; [auto|].
      apply elem_of_cons in Hd' as [->|Hd'].
      * rewrite Ho in Hs. simpl in Hs. done.
      * apply Hany. right. eauto.
Qed.

Lemma poll_in_flight (now : Z) exec st :
  pollInFlight st = true → poll host parsedAt now exec st = (st, None).
Proof. intros H. unfold poll. by rewrite H. Qed.

(** While the flag is up, a poll that arrives during an [await] of the
    outstanding one changes nothing, so the outstanding poll runs as if
    it had not arrived. *)
Lemma poll_each_nested_poll (outcome : string → ExecOutcome)
    (parsedAt' : string → Z) (now' : Z) (exec' : Exec) dirs acc st :
  pollInFlight st = true →
  poll_each host parsedAt
    (λ dir s, (outcome dir, (poll host parsedAt' now' exec' s).1))
    dirs acc st
  = poll_each host parsedAt (quiet outcome) dirs acc st.
Proof.
  intros Hflag. revert acc.
  induction dirs as [|d dirs IH]; intros acc; cbn [poll_each]; [done|].
  unfold quiet at 1 2 3. cbn [fst snd].
  assert (poll host parsedAt' now' exec' st = (st, None)) as ->.
  { unfold poll. by rewrite Hflag. }
  cbn [fst snd].
  destruct (outcome d) as [code out|message]; [|done].
  destruct (decide (code = 0)); apply IH.
Qed.
End poll_facts.

(** C6, with a failure taken as the code takes it. A poll that starts
    with no other poll outstanding and is not interleaved with other
    calls. If every queried directory fails by a non-zero exit or a
    rejected call, the poll returns none, adds one to the failure
    counter, records an error and leaves the loops, the focus and the
    notification count as they were; the error is the message of the
    first rejection, and the fixed message when every call exited. If
    every call exits and one of them exits with 0, the poll returns the
    active loops, resets the counter to zero and clears the error; this
    is so also when the output of that exit cannot be parsed, and when
    that is the case in every directory the poll merges an empty
    result. *)
Theorem poll_failure_accounting
    (host : Host) (parsedAt : string → Z) (now : Z)
    (outcome : string → ExecOutcome) (st : State) :
  pollInFlight st = false →
  let r := poll host parsedAt now (quiet outcome) st in
  ((∀ d, d ∈ poll_dirs host st → failed (outcome d)) →
   r.2 = None
   ∧ consecutivePollFailures r.1 = consecutivePollFailures st + 1
   ∧ lastPollError r.1
     = Some (default "all poll attempts failed"
                     (first_rejection outcome (poll_dirs host st)))
   ∧ ((∀ d, d ∈ poll_dirs host st → exited (outcome d)) →
      lastPollError r.1 = Some "all poll attempts failed")
   ∧ loops r.1 = loops st
   ∧ focusedIndex r.1 = focusedIndex st
   ∧ notifications r.1 = notifications st
   ∧ pollInFlight r.1 = false)
  ∧ ((∀ d, d ∈ poll_dirs host st → exited (outcome d)) →
     (∃ d, d ∈ poll_dirs host st ∧ succeeded (outcome d)) →
     consecutivePollFailures r.1 = 0
     ∧ lastPollError r.1 = None
     ∧ r.2 = Some (active (loops r.1))
     ∧ pollInFlight r.1 = false)
  ∧ ((∀ d, d ∈ poll_dirs host st →
           unparsable host parsedAt d (outcome d)) →
     loops r.1 = loops (mergePolled now [] st)
     ∧ consecutivePollFailures r.1 = 0
     ∧ lastPollError r.1 = None
     ∧ r.2 = Some (active (loops r.1))).
Proof.
  intros Hflag r. subst r. unfold poll. rewrite Hflag.
  assert (poll_dirs host (with_inFlight true st) = poll_dirs host st) as ->
    by done.
  split_and!.
  - intros Hall.
    rewrite (poll_each_first_rejection host parsedAt outcome _ ([], false)
               (with_inFlight true st) Hall).
    destruct (first_rejection outcome (poll_dirs host st)) as [message|] eqn:Hr;
      cbn; (split_and!; try done).
    intros Hex. exfalso. unfold first_rejection in Hr.
    apply head_Some_elem_of in Hr.
    apply list_elem_of_omap in Hr as (d & Hd & Hm).
    specialize (Hex d Hd). by destruct (outcome d).
  - intros Hex Hsome.
    destruct (poll_each_exited host parsedAt outcome _ ([], false)
                (with_inFlight true st) Hex) as (parsed & any & Heq & Hany).
    rewrite Heq. rewrite Hany by (by right). cbn. done.
  - intros Hun.
    rewrite (poll_each_unparsable host parsedAt outcome _ ([], false)
               (with_inFlight true st) Hun).
    assert (poll_dirs host st ≠ []) as Hne.
    { unfold poll_dirs. destruct (decide _) as [Hlen|Hlen].
      - apply nil_length_inv in Hlen. rewrite Hlen. discriminate.
      - intros Heq. apply Hlen. by rewrite Heq. }
    destruct (poll_dirs host st); [done|].
    cbn [fst snd negb with_inFlight with_diagnostics loops
         consecutivePollFailures lastPollError getLoops].
    change (values (start_map [])) with (@nil TrackedLoop).
    split_and!; try done.
    unfold mergePolled. cbn [with_inFlight loops].
    by destruct (decide _).
Qed.

Lemma poll_failure_accounting_witness :
  pollInFlight manager = false
  ∧ ((∀ d, d ∈ poll_dirs sample_host manager → failed (all_fail d))
     ∧ (poll sample_host (λ _, 20) 21 (quiet all_fail) manager).2 = None
     ∧ consecutivePollFailures
         (poll sample_host (λ _, 20) 21 (quiet all_fail) manager).1 = 3
     ∧ lastPollError (poll sample_host (λ _, 20) 21 (quiet all_fail) manager).1
       = Some "all poll attempts failed"
     ∧ loops (poll sample_host (λ _, 20) 21 (quiet all_fail) manager).1
       = loops manager)
  ∧ ((∀ d, d ∈ poll_dirs sample_host manager → failed (all_abort d))
     ∧ lastPollError
         (poll sample_host (λ _, 20) 21 (quiet all_abort) manager).1
       = Some "aborted")
  ∧ ((∃ d, d ∈ poll_dirs sample_host manager ∧ succeeded (all_list d))
     ∧ consecutivePollFailures
         (poll sample_host (λ _, 20) 21 (quiet all_list) manager).1 = 0
     ∧ lastPollError
         (poll sample_host (λ _, 20) 21 (quiet all_list) manager).1 = None)
  ∧ ((∀ d, d ∈ poll_dirs sample_host manager →
           unparsable sample_host (λ _, 20) d (all_garbage d))
     ∧ loops (poll sample_host (λ _, 20) 21 (quiet all_garbage) manager).1
       = [mark worktree_loop; primary_x]).
Proof.
  assert (∀ d, d ∈ poll_dirs sample_host manager → failed (all_fail d))
    as Hfail by (intros d _; simpl; lia).
  assert (∀ d, d ∈ poll_dirs sample_host manager → failed (all_abort d))
    as Habort by (intros d _; exact I).
  assert (∃ d, d ∈ poll_dirs sample_host manager ∧ succeeded (all_list d))
    as Hsome by (exists "/p"; split; [left | reflexivity]).
  assert (∀ d, d ∈ poll_dirs sample_host manager →
               unparsable sample_host (λ _, 20) d (all_garbage d)) as Hgarbage.
  { intros d _. split; [reflexivity|]. eexists. vm_compute. reflexivity. }
  destruct (poll_failure_accounting sample_host (λ _, 20) 21 all_fail
              manager eq_refl) as (H & _ & _).
  destruct (H Hfail) as (H1 & H2 & _ & H3 & H4 & _).
  destruct (poll_failure_accounting sample_host (λ _, 20) 21 all_abort
              manager eq_refl) as (Ha & _ & _).
  destruct (Ha Habort) as (_ & _ & Ha3 & _).
  destruct (poll_failure_accounting sample_host (λ _, 20) 21 all_list
              manager eq_refl) as (_ & H' & _).
  destruct (H' (λ _ _, I) Hsome) as (H5 & H6 & _).
  destruct (poll_failure_accounting sample_host (λ _, 20) 21 all_garbage
              manager eq_refl) as (_ & _ & Hg).
  destruct (Hg Hgarbage) as (Hg1 & _).
  split; [reflexivity|].
  split.
  { split; [exact Hfail|]. split; [exact H1|]. split; [exact H2|].
    split; [|exact H4]. apply H3. intros d _. exact I. }
  split; [split; [exact Habort | exact Ha3]|].
  split; [split; [exact Hsome | split; [exact H5 | exact H6]]|].
  split; [exact Hgarbage|]. rewrite Hg1. vm_compute. reflexivity.
Defined.

(** Every directory answers with exit code 0 and an output that is not
    JSON. No source gave anything to merge, and yet the poll counts as a
    success: the counter is reset, the error cleared, an empty result
    merged, and the discovered loop marked removed. *)
Lemma poll_takes_malformed_output_for_success :
  ¬ (∀ (host : Host) (parsedAt : string → Z) (now : Z)
       (outcome : string → ExecOutcome) (st : State),
       pollInFlight st = false →
       (∀ d, d ∈ poll_dirs host st →
             unusable host parsedAt d (outcome d)) →
       let r := poll host parsedAt now (quiet outcome) st in
       r.2 = None
       ∧ consecutivePollFailures r.1 = consecutivePollFailures st + 1
       ∧ (∃ message, lastPollError r.1 = Some message)
       ∧ loops r.1 = loops st).
Proof.
  intros H.
  destruct (H sample_host (λ _, 20) 21 all_garbage manager eq_refl)
    as (Hnone & _).
  - intros d _. right. split; [reflexivity|]. eexists. vm_compute.
    reflexivity.
  - vm_compute in Hnone. discriminate Hnone.
Qed.

(** C7. A poll that arrives while the in-flight flag is up returns none
    and leaves the whole manager as it was: nothing is merged, counted or
    queued. A poll that starts with the flag down ends with the flag down
    on every path, whatever the external calls do (exit with any code,
    reject on failure or cancellation) and whatever runs on the manager
    during the awaits. And polls that arrive during the awaits of an
    outstanding poll do not change its course. *)
Theorem poll_single_flight
    (host : Host) (parsedAt : string → Z) (now : Z) (exec : Exec)
    (st : State) :
  (pollInFlight st = true → poll host parsedAt now exec st = (st, None))
  ∧ (pollInFlight st = false →
     pollInFlight (poll host parsedAt now exec st).1 = false)
  ∧ (pollInFlight st = false →
     ∀ (outcome : string → ExecOutcome) (parsedAt' : string → Z) (now' : Z),
       poll host parsedAt now
            (λ dir s, (outcome dir, (poll host parsedAt' now' exec s).1)) st
       = poll host parsedAt now (quiet outcome) st).
Proof.
  split_and!.
  - apply poll_in_flight.
  - intros Hflag. unfold poll. rewrite Hflag. done.
  - intros Hflag outcome parsedAt' now'. unfold poll at 1 3. rewrite Hflag.
    by rewrite poll_each_nested_poll.
Qed.

Lemma poll_single_flight_witness :
  pollInFlight (with_inFlight true manager) = true
  ∧ poll sample_host (λ _, 20) 21 (quiet all_list)
         (with_inFlight true manager)
    = (with_inFlight true manager, None)
  ∧ pollInFlight manager = false
  ∧ pollInFlight
      (poll sample_host (λ _, 20) 21 (quiet all_abort) manager).1 = false
  ∧ poll sample_host (λ _, 20) 21
         (λ dir s, (all_list dir,
                    (poll sample_host (λ _, 30) 31 (quiet all_list) s).1))
         manager
    = poll sample_host (λ _, 20) 21 (quiet all_list) manager.
Proof.
  split; [reflexivity|]. split.
  { destruct (poll_single_flight sample_host (λ _, 20) 21 (quiet all_list)
                (with_inFlight true manager)) as (H & _ & _).
    apply H. reflexivity. }
  split; [reflexivity|]. split.
  { destruct (poll_single_flight sample_host (λ _, 20) 21 (quiet all_abort)
                manager) as (_ & H & _).
    apply H. reflexivity. }
  destruct (poll_single_flight sample_host (λ _, 20) 21 (quiet all_list)
              manager) as (_ & _ & H).
  apply (H eq_refl all_list (λ _, 30) 31).
Defined.

(** ** mergePolled: the loop over the candidates *)

Lemma find_primary_Some m next e el :
  find_primary m next = Some (e, el) →
  (e, el) ∈ m ∧ source el = Tool ∧ startsWith e "primary-" = true
  ∧ directory el = directory next.
Proof.
  intros H. apply List.find_some in H as [Hin Hp].
  apply list_elem_of_In in Hin. unfold primary_match in Hp. simpl in Hp.
  apply andb_true_iff in Hp as [Hp Hd]. apply andb_true_iff in Hp as [Hs Hp].
  apply bool_decide_eq_true in Hs, Hd. done.
Qed.

Lemma merge_step_case now acc next :
  step_case now acc.1 next (merge_step now acc next).1
  ∧ (merge_step now acc next).2 = {[ id next ]} ∪ acc.2.
Proof.
  unfold merge_step.
  destruct (get (id next) acc.1) as [existing|] eqn:Hget.
  - split; [|done]. apply step_update; [done|].
    unfold rekey_target. by rewrite Hget.
  - destruct (rekey_target acc.1 next) as [[e el]|] eqn:Hre.
    + split; [|done]. pose proof Hre as Hre'. unfold rekey_target in Hre'.
      rewrite Hget in Hre'. case_decide as Hp; [|done].
      apply find_primary_Some in Hre' as (? & ? & ? & ?).
      by apply step_rekey.
    + split; [|done]. by apply step_insert.
Qed.

Lemma merge_loop_snoc now pre next acc :
  merge_loop now (pre ++ [next]) acc
  = merge_step now (merge_loop now pre acc) next.
Proof. unfold merge_loop. by rewrite fold_left_app. Qed.

(** Induction over the candidates in the order the loop takes them. *)
Lemma merge_loop_ind now polled acc
    (P : list TrackedLoop → Map TrackedLoop * gset string → Prop) :
  P [] acc →
  (∀ pre next post a,
     polled = pre ++ next :: post → a = merge_loop now pre acc →
     P pre a → P (pre ++ [next]) (merge_step now a next)) →
  P polled (merge_loop now polled acc).
Proof.
  intros H0 Hstep.
  assert (∀ pre post, polled = pre ++ post → P pre (merge_loop now pre acc))
    as H.
  { induction pre as [|x pre IH] using rev_ind; intros post Heq; [done|].
    rewrite merge_loop_snoc. rewrite <- app_assoc in Heq. simpl in Heq.
    eapply Hstep; [exact Heq | done | by eapply IH]. }
  apply (H polled []). by rewrite app_nil_r.
Qed.

Lemma merge_existing_id now e next : id (merge_existing now e next) = id next.
Proof. done. Qed.

Lemma step_case_well_formed now m next m' :
  well_formed m → step_case now m next m' → well_formed m'.
Proof.
  intros [Hnd Hk] Hcase.
  assert (∀ v m0, well_formed m0 → id v = id next →
                  well_formed (set (id next) v m0)) as Hset.
  { intros v m0 [Hnd0 Hk0] Hid. split; [by apply NoDup_keys_set|].
    intros k' v' Hin. apply elem_of_set in Hin as [[-> ->]|[_ Hin]]; auto. }
  destruct Hcase; apply Hset; try done.
  split; [by apply NoDup_keys_delete|].
  intros k' v' Hin. apply elem_of_delete in Hin as [_ Hin]; auto.
Qed.

Lemma merge_loop_well_formed now polled acc :
  well_formed acc.1 → well_formed (merge_loop now polled acc).1.
Proof.
  intros Hwf.
  apply (merge_loop_ind now polled acc (λ _ a, well_formed a.1)); [done|].
  intros pre next post a _ _ Ha.
  destruct (merge_step_case now a next) as [Hcase _].
  by eapply step_case_well_formed.
Qed.

Lemma merge_loop_seen now polled acc :
  (merge_loop now polled acc).2 = list_to_set (ids polled) ∪ acc.2.
Proof.
  apply (merge_loop_ind now polled acc
           (λ pre a, a.2 = list_to_set (ids pre) ∪ acc.2)).
  - simpl. set_solver.
  - intros pre next post a _ _ Ha.
    destruct (merge_step_case now a next) as [_ ->]. rewrite Ha.
    unfold ids. rewrite fmap_app, list_to_set_app_L. simpl. set_solver.
Qed.

(** *** The starting Map *)

Lemma start_map_well_formed ls : well_formed (start_map ls).
Proof.
  unfold start_map, of_entries.
  assert (∀ (l : list TrackedLoop) (acc : Map TrackedLoop),
            well_formed acc →
            well_formed (fold_left (λ m kv, set kv.1 kv.2 m)
                                   ((λ l, (id l, l)) <$> l) acc)) as H.
  { induction l as [|x l IH]; intros acc Hacc; simpl; [done|].
    apply IH. destruct Hacc as [Hnd Hk]. split; [by apply NoDup_keys_set|].
    intros k v Hin. apply elem_of_set in Hin as [[-> ->]|[_ Hin]]; auto. }
  apply H. split; [constructor|]. intros k v Hin. inversion Hin.
Qed.

Lemma start_map_NoDup ls :
  NoDup (ids ls) → start_map ls = (λ l, (id l, l)) <$> ls.
Proof.
  intros Hnd. unfold start_map. apply of_entries_NoDup.
  rewrite <- list_fmap_compose. exact Hnd.
Qed.

Lemma start_map_elem ls k v : (k, v) ∈ start_map ls → v ∈ ls.
Proof.
  unfold start_map, of_entries.
  assert (∀ (l : list TrackedLoop) (acc : Map TrackedLoop),
            NoDup (keys acc) →
            (k, v) ∈ fold_left (λ m kv, set kv.1 kv.2 m)
                               ((λ l, (id l, l)) <$> l) acc →
            (k, v) ∈ acc ∨ v ∈ l) as H.
  { induction l as [|x l IH]; intros acc Hnd Hin; simpl in *; [by left|].
    apply IH in Hin; [|by apply NoDup_keys_set].
    destruct Hin as [Hin|Hin]; [|right; by right].
    apply elem_of_set in Hin as [[-> ->]|[_ Hin]]; [|by left|done].
    right. left. }
  intros Hin. apply H in Hin as [Hin|Hin]; [inversion Hin | done | constructor].
Qed.

Lemma start_map_keys ls k : k ∈ keys (start_map ls) ↔ k ∈ ids ls.
Proof.
  unfold start_map, of_entries.
  assert (∀ (l : list TrackedLoop) (acc : Map TrackedLoop),
            k ∈ keys (fold_left (λ m kv, set kv.1 kv.2 m)
                                ((λ l, (id l, l)) <$> l) acc)
            ↔ k ∈ keys acc ∨ k ∈ ids l) as H.
  { induction l as [|x l IH]; intros acc; csimpl.
    - split; [by left|]. intros [?|H]; [done | inversion H].
    - rewrite IH. rewrite keys_set. unfold ids.
      destruct (has (id x) acc) eqn:Hh.
      + apply has_true in Hh. rewrite elem_of_cons.
        split; [intros [?|?]; auto|]. intros [?|[->|?]]; auto.
      + rewrite elem_of_app, list_elem_of_singleton, elem_of_cons.
        split; [intros [[?|?]|?]; auto | intros [?|[?|?]]; auto]. }
  rewrite H. split; [intros [Hin|?]; [inversion Hin | done] | by right].
Qed.

(** *** Marking and ordering *)

Lemma mark_missing_keys seen m : keys (mark_missing seen m) = keys m.
Proof.
  unfold keys, mark_missing. rewrite <- list_fmap_compose.
  by apply list_fmap_ext.
Qed.

Lemma mark_missing_get seen m k :
  get k (mark_missing seen m) = marked seen <$> get k m.
Proof.
  unfold mark_missing. induction m as [|[k' v'] m IH]; csimpl; [done|].
  destruct (decide (k' = k)); [done|]. exact IH.
Qed.

Lemma mark_missing_elem seen m k v :
  (k, v) ∈ mark_missing seen m ↔ ∃ v0, (k, v0) ∈ m ∧ v = marked seen v0.
Proof.
  unfold mark_missing. rewrite list_elem_of_fmap. split.
  - intros ([k0 v0] & Heq & Hin). simpl in Heq. injection Heq as -> ->.
    by exists v0.
  - intros (v0 & Hin & ->). by exists (k, v0).
Qed.

Lemma marked_id seen l : id (marked seen l) = id l.
Proof. unfold marked. by destruct (_ && _). Qed.

Lemma mark_missing_well_formed seen m :
  well_formed m → well_formed (mark_missing seen m).
Proof.
  intros [Hnd Hk]. split; [by rewrite mark_missing_keys|].
  intros k v Hin. apply mark_missing_elem in Hin as (v0 & Hin & ->).
  rewrite marked_id. auto.
Qed.

Lemma filter_iff_on {A} (P1 P2 : A → Prop)
    `{!∀ x, Decision (P1 x), !∀ x, Decision (P2 x)} (l : list A) :
  (∀ x, x ∈ l → P1 x ↔ P2 x) → filter P1 l = filter P2 l.
Proof.
  induction l as [|a l IH]; intros Hiff; [done|].
  rewrite !filter_cons.
  rewrite IH by (intros x Hx; apply Hiff; by right).
  apply decide_ext, Hiff. left.
Qed.

Lemma ordered_ids_spec (prev : list string) (m : Map TrackedLoop) :
  NoDup (keys m) →
  ordered_ids prev m
  = filter (λ i, i ∈ keys m) prev ++ filter (λ i, i ∉ prev) (keys m).
Proof.
  intros Hnd. unfold ordered_ids.
  assert (∀ (l acc : list string),
            fold_left (λ acc i, if has i m then acc ++ [i] else acc) l acc
            = acc ++ filter (λ i, i ∈ keys m) l) as ->.
  { induction l as [|i l IH]; intros acc; simpl; [by rewrite app_nil_r|].
    rewrite IH. destruct (has i m) eqn:Hh.
    - apply has_true in Hh. rewrite filter_cons_True by done.
      by rewrite <- app_assoc.
    - apply has_false in Hh. by rewrite filter_cons_False by done. }
  simpl.
  assert (∀ (l acc : list string), NoDup l →
            fold_left (λ acc i, if bool_decide (i ∈ acc) then acc
                                else acc ++ [i]) l acc
            = acc ++ filter (λ i, i ∉ acc) l) as Hsecond.
  { induction l as [|i l IH]; intros acc Hl; simpl; [by rewrite app_nil_r|].
    apply NoDup_cons in Hl as [Hi Hl]. rewrite IH by done.
    case_bool_decide as Hin.
    - rewrite filter_cons_False by (intros H; by apply H). done.
    - rewrite filter_cons_True by done. rewrite <- app_assoc. simpl.
      do 2 f_equal. apply filter_iff_on.
      intros j Hj. rewrite elem_of_app, list_elem_of_singleton.
      split; [tauto|]. intros H [?| ->]; tauto. }
  rewrite Hsecond by done.
  f_equal. apply filter_iff_on. intros i Hi.
  rewrite list_elem_of_filter. tauto.
Qed.

Lemma ordered_ids_elem (prev : list string) (m : Map TrackedLoop) i :
  NoDup (keys m) → i ∈ ordered_ids prev m ↔ i ∈ keys m.
Proof.
  intros Hnd. rewrite ordered_ids_spec by done.
  rewrite elem_of_app, !list_elem_of_filter.
  destruct (decide (i ∈ prev)); tauto.
Qed.

Lemma omap_get_ids (m : Map TrackedLoop) (l : list string) :
  keyed m → (∀ i, i ∈ l → i ∈ keys m) →
  ids (omap (λ i, get i m) l) = l.
Proof.
  intros Hk. induction l as [|i l IH]; intros Hl; csimpl; [done|].
  destruct (proj2 (get_is_Some i m) (Hl i ltac:(left))) as [v Hv].
  rewrite Hv. unfold ids in *. csimpl. rewrite IH by (intros; apply Hl; by right).
  f_equal. apply Hk. by apply get_Some_elem.
Qed.

Lemma final_map_well_formed now polled ls :
  well_formed (final_map now polled ls).
Proof.
  apply mark_missing_well_formed, merge_loop_well_formed,
    start_map_well_formed.
Qed.

Lemma merged_loops_ids now polled ls :
  ids (merged_loops now polled ls)
  = ordered_ids (ids ls) (final_map now polled ls).
Proof.
  destruct (final_map_well_formed now polled ls) as [Hnd Hk].
  unfold merged_loops. apply omap_get_ids; [done|].
  intros i Hi. by apply ordered_ids_elem in Hi.
Qed.

Lemma elem_of_merged_loops now polled ls r :
  r ∈ merged_loops now polled ls ↔ (id r, r) ∈ final_map now polled ls.
Proof.
  destruct (final_map_well_formed now polled ls) as [Hnd Hk].
  unfold merged_loops. fold (final_map now polled ls).
  rewrite list_elem_of_omap. split.
  - intros (i & Hi & Hget). apply get_Some_elem in Hget.
    by rewrite (Hk _ _ Hget).
  - intros Hin. exists (id r). split; [|by apply elem_get].
    apply ordered_ids_elem; [done|].
    apply get_is_Some. exists r. by apply elem_get.
Qed.

Lemma merged_loops_NoDup now polled ls :
  NoDup (ids ls) → NoDup (ids (merged_loops now polled ls)).
Proof.
  intros Hls. destruct (final_map_well_formed now polled ls) as [Hnd Hk].
  rewrite merged_loops_ids, ordered_ids_spec by done.
  apply NoDup_app. split_and!.
  - by apply NoDup_filter.
  - intros i Hi Hi'. apply list_elem_of_filter in Hi as [_ Hi].
    apply list_elem_of_filter in Hi' as [Hi' _]. done.
  - by apply NoDup_filter.
Qed.

(** ** Removal marks *)

Section removal.
Context (now : Z) (polled ls : list TrackedLoop).

(** A binding of [byId] is either one the loop has written, for a
    candidate it has seen, and then it is not removed; or it is a record
    of the old collection that no candidate has touched. *)
Lemma merge_loop_touched k v :
  (k, v) ∈ (merge_loop now polled (start_map ls, ∅)).1 →
  (k ∈ ids polled ∧ removed v = false) ∨ ((k ∉ ids polled) ∧ v ∈ ls).
Proof.
  revert k v.
  cut (well_formed (merge_loop now polled (start_map ls, ∅)).1 ∧
       ∀ k v, (k, v) ∈ (merge_loop now polled (start_map ls, ∅)).1 →
         (k ∈ ids polled ∧ removed v = false) ∨ ((k ∉ ids polled) ∧ v ∈ ls)).
  { intros [_ H]. exact H. }
  apply (merge_loop_ind now polled (start_map ls, ∅)
           (λ pre a, well_formed a.1 ∧ (∀ k v, (k, v) ∈ a.1 →
              (k ∈ ids pre ∧ removed v = false) ∨ ((k ∉ ids pre) ∧ v ∈ ls)))).
  2:{ intros pre next post a _ _ [Hwf IH].
    destruct (merge_step_case now a next) as [Hcase _].
    split; [by eapply step_case_well_formed|].
    intros k v Hin. unfold ids. rewrite fmap_app, elem_of_app. simpl.
    rewrite list_elem_of_singleton.
    assert (∀ v0 m0, NoDup (keys m0) → removed v0 = false →
              (∀ k v, (k, v) ∈ m0 → (k, v) ∈ a.1) →
              (k, v) ∈ set (id next) v0 m0 →
              ((k ∈ id <$> pre) ∨ k = id next) ∧ removed v = false
              ∨ ¬ ((k ∈ id <$> pre) ∨ k = id next) ∧ v ∈ ls) as Hset.
    { intros v0 m0 Hnd0 Hrem Hsub Hin0.
      apply (elem_of_set _ _ _ _ _ Hnd0) in Hin0 as [[-> ->]|[Hne Hin0]].
      - left. auto.
      - destruct (IH k v (Hsub _ _ Hin0)) as [[? ?]|[? ?]]; [left; auto|].
        right. split; [|done]. intros [?|?]; done. }
    destruct Hwf as [Hnd Hk].
    destruct Hcase as [existing Hex _|e el Hnone Hid _ Hel Htool Hpre _
                      |Hnone _].
    - exact (Hset (merge_existing now existing next) _ Hnd eq_refl
                   (λ _ _ H, H) Hin).
    - refine (Hset (merge_existing now el next) _
                   (NoDup_keys_delete _ _ Hnd) eq_refl _ Hin).
      intros k' v' Hin'. by apply elem_of_delete in Hin' as [_ ?].
    - exact (Hset (insert_new now next) _ Hnd eq_refl (λ _ _ H, H) Hin). }
  split; [apply start_map_well_formed|]. intros k v Hin. right.
  split; [intros H; inversion H | by eapply start_map_elem].
Qed.

Lemma step_case_carried m next m' r0 :
  well_formed m → step_case now m next m' → carried m r0 → carried m' r0.
Proof.
  intros [Hnd Hk] Hcase (v & Hs & Hp & Hget).
  destruct Hget as [Hget|(Hget & Hpre & Htool)].
  - (* still under its own key *)
    destruct (decide (id next = id r0)) as [Heq|Hne].
    + destruct Hcase as [existing Hex _|e el Hnone|Hnone _];
        rewrite Heq in *; [|congruence..].
      assert (existing = v) as -> by congruence.
      exists (merge_existing now v next). split_and!; [done..|].
      left. rewrite <- Heq. apply get_set_eq.
    + destruct Hcase as [existing Hex _|e el Hnone Hid _ Hin Htool Hpre Hdir
                        |Hnone _].
      * exists v. split_and!; [done..|]. left. by rewrite get_set_ne.
      * destruct (decide (e = id r0)) as [->|Hne'].
        -- assert (el = v) as -> by (apply elem_get in Hin; congruence).
           exists (merge_existing now v next). split_and!; [done..|].
           right. rewrite <- Hid. rewrite get_set_eq.
           split_and!; [done..|]. congruence.
        -- exists v. split_and!; [done..|]. left.
           rewrite get_set_ne by done. by rewrite get_delete_ne.
      * exists v. split_and!; [done..|]. left. by rewrite get_set_ne.
  - (* already moved under the placeholder key *)
    destruct (decide (id next = "(primary)")) as [Heq|Hne].
    + destruct Hcase as [existing Hex _|e el Hnone|Hnone _];
        rewrite Heq in *; [|congruence..].
      assert (existing = v) as -> by congruence.
      exists (merge_existing now v next). split_and!; [done..|].
      right. split_and!; [|done..]. rewrite <- Heq. apply get_set_eq.
    + destruct Hcase as [existing Hex _|e el Hnone Hid|Hnone _];
        [|done|]; exists v; (split_and!; [done..|]); right;
        (split_and!; [|done..]); by rewrite get_set_ne.
Qed.

Lemma merge_loop_carried r0 :
  NoDup (ids ls) → r0 ∈ ls →
  carried (merge_loop now polled (start_map ls, ∅)).1 r0.
Proof.
  intros Hnd Hr0.
  apply (merge_loop_ind now polled (start_map ls, ∅)
           (λ _ a, well_formed a.1 ∧ carried a.1 r0)).
  - split; [apply start_map_well_formed|].
    exists r0. split_and!; [done..|]. left.
    apply elem_get; [apply start_map_well_formed|].
    rewrite start_map_NoDup by done.
    apply list_elem_of_fmap. by exists r0.
  - intros pre next post a _ _ [Hwf Hc].
    destruct (merge_step_case now a next) as [Hcase _].
    split; [by eapply step_case_well_formed | by eapply step_case_carried].
Qed.

Lemma step_case_length m next m' :
  well_formed m → step_case now m next m' →
  (length m ≤ length m')%nat.
Proof.
  intros [Hnd Hk] Hcase.
  destruct Hcase as [existing Hex _|e el Hnone Hid _ Hin Htool Hpre _|Hnone _];
    rewrite length_set.
  - destruct (has _ _); lia.
  - assert (has (id next) (delete e m) = false) as ->.
    { apply has_false. intros Hin'.
      apply get_None in Hnone. apply Hnone.
      eapply elem_of_sublist; [exact Hin'|apply keys_delete_sublist]. }
    rewrite length_delete; [done|].
    apply get_is_Some. exists el. by apply elem_get.
  - destruct (has _ _); lia.
Qed.

Lemma merge_loop_length :
  NoDup (ids ls) →
  (length ls ≤ length (merge_loop now polled (start_map ls, ∅)).1)%nat.
Proof.
  intros Hnd.
  apply (merge_loop_ind now polled (start_map ls, ∅)
           (λ _ a, well_formed a.1 ∧ (length ls ≤ length a.1)%nat)).
  - split; [apply start_map_well_formed|].
    cbn [fst]. rewrite start_map_NoDup by done. by rewrite length_fmap.
  - intros pre next post a _ _ [Hwf Hc].
    destruct (merge_step_case now a next) as [Hcase _].
    split; [by eapply step_case_well_formed|].
    pose proof (step_case_length _ _ _ Hwf Hcase). simpl in *. lia.
Qed.

Lemma ordered_ids_length (prev : list string) (m : Map TrackedLoop) :
  NoDup prev → NoDup (keys m) → length (ordered_ids prev m) = length m.
Proof.
  intros Hprev Hnd. rewrite <- (length_fmap fst m). fold (keys m).
  apply Permutation_length, NoDup_Permutation; [|done|].
  - rewrite ordered_ids_spec by done. apply NoDup_app. split_and!.
    + by apply NoDup_filter.
    + intros i Hi Hi'. apply list_elem_of_filter in Hi as [_ Hi].
      apply list_elem_of_filter in Hi' as [Hi' _]. done.
    + by apply NoDup_filter.
  - intros i. by apply ordered_ids_elem.
Qed.

Lemma merged_loops_length :
  NoDup (ids ls) →
  length (merged_loops now polled ls)
  = length (merge_loop now polled (start_map ls, ∅)).1.
Proof.
  intros Hls. destruct (final_map_well_formed now polled ls) as [Hnd Hk].
  rewrite <- (length_fmap id). fold (ids (merged_loops now polled ls)).
  rewrite merged_loops_ids, ordered_ids_length by done.
  unfold final_map, mark_missing. by rewrite length_fmap.
Qed.
End removal.

Lemma NoDup_ids_inj (ls : list TrackedLoop) (r1 r2 : TrackedLoop) :
  NoDup (ids ls) → r1 ∈ ls → r2 ∈ ls → id r1 = id r2 → r1 = r2.
Proof.
  intros Hnd H1 H2 Heq.
  apply list_elem_of_lookup in H1 as [i1 H1].
  apply list_elem_of_lookup in H2 as [i2 H2].
  assert (i1 = i2) as ->; [|congruence].
  eapply (NoDup_lookup (ids ls)); [done| |].
  - unfold ids. rewrite list_lookup_fmap, H1. done.
  - unfold ids. rewrite list_lookup_fmap, H2. simpl. by rewrite Heq.
Qed.

Lemma marked_source seen l : source (marked seen l) = source l.
Proof. unfold marked. by destruct (_ && _). Qed.

Lemma marked_ptySession seen l : ptySession (marked seen l) = ptySession l.
Proof. unfold marked. by destruct (_ && _). Qed.

Lemma get_final_map now polled ls k v :
  get k (merge_loop now polled (start_map ls, ∅)).1 = Some v →
  marked (merge_loop now polled (start_map ls, ∅)).2 v
  ∈ merged_loops now polled ls.
Proof.
  intros Hget.
  pose proof (merge_loop_well_formed now polled (start_map ls, ∅)
                (start_map_well_formed ls)) as [Hnd Hk].
  apply elem_of_merged_loops. unfold final_map.
  apply mark_missing_elem. exists v. split; [|done].
  rewrite marked_id. apply get_Some_elem in Hget.
  by rewrite (Hk _ _ Hget).
Qed.

(** C1. After a merge, a record that is marked removed is a record of the
    old collection whose identity no candidate carried: marked by this
    pass if its source is not tool, and otherwise left exactly as it was,
    so removed already. Hence no tool record that was live is removed by
    a merge. And no record is dropped: every record of the old collection
    lives on with its source and its session, under its own identity or,
    for a tool record with a primary- identity that the pass re-keyed,
    under the placeholder identity; the collection never shrinks. *)
Theorem merge_never_removes_tool_records
    (now : Z) (polled ls : list TrackedLoop) :
  (∀ r, r ∈ merged_loops now polled ls → removed r = true →
     (id r ∉ ids polled)
     ∧ ∃ r0, r0 ∈ ls
             ∧ ((source r0 ≠ Tool ∧ r = mark r0)
                ∨ (source r0 = Tool ∧ r = r0)))
  ∧ (NoDup (ids ls) →
     (∀ r0 r, r0 ∈ ls → source r0 = Tool → removed r0 = false →
              r ∈ merged_loops now polled ls → id r = id r0 →
              removed r = false)
     ∧ (∀ r0, r0 ∈ ls →
          ∃ r, r ∈ merged_loops now polled ls
               ∧ source r = source r0 ∧ ptySession r = ptySession r0
               ∧ (id r = id r0
                  ∨ (id r = "(primary)"
                     ∧ startsWith (id r0) "primary-" = true
                     ∧ source r0 = Tool)))
     ∧ (length ls ≤ length (merged_loops now polled ls))%nat).
Proof.
  pose proof (merge_loop_well_formed now polled (start_map ls, ∅)
                (start_map_well_formed ls)) as [Hnd1 Hk1].
  assert (∀ r, r ∈ merged_loops now polled ls → removed r = true →
            (id r ∉ ids polled)
            ∧ ∃ r0, r0 ∈ ls
                    ∧ ((source r0 ≠ Tool ∧ r = mark r0)
                       ∨ (source r0 = Tool ∧ r = r0))) as Hmarked.
  { intros r Hr Hrem. apply elem_of_merged_loops in Hr.
    unfold final_map in Hr. apply mark_missing_elem in Hr as (v0 & Hin & ->).
    rewrite marked_id in Hin |- *. pose proof (Hk1 _ _ Hin) as Hid.
    clear Hid. rewrite merge_loop_seen in Hrem |- *. unfold marked in *.
    destruct (merge_loop_touched now polled ls _ _ Hin) as [[Hseen Hlive]|[Hnew Hold]].
    - rewrite bool_decide_eq_false_2 in Hrem; [simpl in Hrem; congruence|].
      intros Hn. apply Hn. apply elem_of_union_l.
      by apply elem_of_list_to_set.
    - split; [done|]. exists v0. split; [done|].
      rewrite bool_decide_eq_true_2.
      2:{ rewrite elem_of_union, elem_of_list_to_set.
          intros [?|H]; [done | inversion H]. }
      simpl. destruct (decide (source v0 = Tool)) as [Ht|Ht].
      + right. by rewrite bool_decide_eq_false_2 by (intros H; by apply H).
      + left. by rewrite bool_decide_eq_true_2. }
  split; [exact Hmarked|]. intros Hnd. split_and!.
  - intros r0 r Hr0 Htool Hlive Hr Hid.
    destruct (removed r) eqn:Hrem; [|done].
    destruct (Hmarked r Hr Hrem) as (_ & r1 & Hr1 & Hcases).
    assert (r1 = r0) as ->.
    { apply (NoDup_ids_inj ls); [done..|].
      destruct Hcases as [[_ ->]|[_ ->]]; done. }
    destruct Hcases as [[? _]|[_ ->]]; congruence.
  - intros r0 Hr0.
    destruct (merge_loop_carried now polled ls r0 Hnd Hr0)
      as (v & Hs & Hp & Hget).
    exists (marked (merge_loop now polled (start_map ls, ∅)).2 v).
    rewrite marked_source, marked_ptySession, marked_id.
    destruct Hget as [Hget|(Hget & Hpre & Htool)].
    + split_and!; [by eapply get_final_map|done..|].
      left. apply get_Some_elem in Hget. by apply Hk1 in Hget.
    + split_and!; [by eapply get_final_map|done..|].
      right. split_and!; [|done..].
      apply get_Some_elem in Hget. by apply Hk1 in Hget.
  - rewrite merged_loops_length by done. by apply merge_loop_length.
Qed.

Lemma merge_never_removes_tool_records_witness :
  NoDup (ids collection)
  ∧ mark worktree_loop ∈ merged_loops 20 [] collection
  ∧ (∃ r0, r0 ∈ collection
           ∧ ((source r0 ≠ Tool ∧ mark worktree_loop = mark r0)
              ∨ (source r0 = Tool ∧ mark worktree_loop = r0)))
  ∧ (∀ r, r ∈ merged_loops 20 [] collection →
          id r = id primary_x → removed r = false)
  ∧ (∃ r, r ∈ merged_loops 20 [] collection
          ∧ source r = Tool ∧ ptySession r = Some 1%nat)
  ∧ (length collection ≤ length (merged_loops 20 [] collection))%nat.
Proof.
  assert (NoDup (ids collection)) as Hnd.
  { apply (bool_decide_unpack _). vm_compute. exact I. }
  assert (mark worktree_loop ∈ merged_loops 20 [] collection) as Hin
    by (vm_compute; left).
  assert (primary_x ∈ collection) as Hx by (right; left).
  destruct (merge_never_removes_tool_records 20 [] collection)
    as [Hmarked H].
  destruct (Hmarked _ Hin eq_refl) as [_ Horigin].
  destruct (H Hnd) as (Hlive & Hkept & Hlen).
  destruct (Hkept primary_x Hx) as (r & Hr & Hs & Hp & _).
  split_and!; [exact Hnd | exact Hin | exact Horigin | | | exact Hlen].
  - intros r' Hr' Hid.
    exact (Hlive primary_x r' Hx eq_refl eq_refl Hr' Hid).
  - exists r. split_and!; [exact Hr | exact Hs | exact Hp].
Defined.

(** ** Order of the collection *)

Section sublists.
Context {A : Type} `{EqDecision A}.
Implicit Types l k : list A.

Lemma filter_sublist_mono (P : A → Prop) `{!∀ x, Decision (P x)} l k :
  l `sublist_of` k → filter P l `sublist_of` filter P k.
Proof.
  induction 1 as [|x l k Hlk IH|x l k Hlk IH].
  - done.
  - rewrite !filter_cons. destruct (decide (P x)); [by constructor | done].
  - rewrite filter_cons. destruct (decide (P x)); [by constructor | done].
Qed.

(** In a list without repetition a sublist is fixed by its members. *)
Lemma sublist_NoDup_filter l k :
  l `sublist_of` k → NoDup k → l = filter (λ x, x ∈ l) k.
Proof.
  induction 1 as [|x l k Hlk IH|x l k Hlk IH]; intros Hnd.
  - done.
  - apply NoDup_cons in Hnd as [Hx Hnd].
    rewrite filter_cons_True by left. f_equal.
    rewrite (IH Hnd) at 1. apply filter_iff_on.
    intros y Hy. rewrite elem_of_cons. split; [auto|].
    intros [->|?]; done.
  - apply NoDup_cons in Hnd as [Hx Hnd].
    rewrite filter_cons_False; [by apply IH|].
    intros Hin. apply Hx. by eapply elem_of_sublist.
Qed.
End sublists.

Lemma ids_snoc (pre : list TrackedLoop) (next : TrackedLoop) :
  ids (pre ++ [next]) = ids pre ++ [id next].
Proof. unfold ids. by rewrite fmap_app. Qed.

Section order.
Context (now : Z) (polled ls : list TrackedLoop).

(** The keys the loop has added to [byId] stand in it in the order in
    which the candidates brought them. *)
Lemma merge_loop_new_keys :
  filter (λ i, i ∉ ids ls) (keys (merge_loop now polled (start_map ls, ∅)).1)
  `sublist_of` ids polled.
Proof.
  apply (merge_loop_ind now polled (start_map ls, ∅)
           (λ pre a, filter (λ i, i ∉ ids ls) (keys a.1)
                     `sublist_of` ids pre)).
  - cbn [fst]. rewrite (elem_of_nil_inv (filter _ _)); [done|].
    intros i Hi. apply list_elem_of_filter in Hi as [Hnew Hi].
    by apply start_map_keys in Hi.
  - intros pre next post a _ _ IH.
    destruct (merge_step_case now a next) as [Hcase _].
    rewrite ids_snoc.
    assert (∀ v (m0 : Map TrackedLoop), keys m0 `sublist_of` keys a.1 →
              filter (λ i, i ∉ ids ls) (keys (set (id next) v m0))
              `sublist_of` ids pre ++ [id next]) as Hset.
    { intros v m0 Hsub. rewrite keys_set.
      assert (filter (λ i, i ∉ ids ls) (keys m0) `sublist_of` ids pre)
        as Hm0.
      { etrans; [|exact IH]. by apply filter_sublist_mono. }
      destruct (has (id next) m0).
      - by apply sublist_inserts_r.
      - rewrite filter_app. apply sublist_app; [done|].
        apply sublist_filter. }
    destruct Hcase; apply Hset; try done.
    apply keys_delete_sublist.
Qed.
End order.

(** The candidates that [poll] hands to the merge, after its
    de-duplication by identity, name no identity twice. *)
Lemma poll_candidates_unique (parsed : list TrackedLoop) :
  NoDup (ids (values (start_map parsed))).
Proof.
  destruct (start_map_well_formed parsed) as [Hnd Hk].
  assert (ids (values (start_map parsed)) = keys (start_map parsed)) as ->;
    [|done].
  unfold ids, values, keys. rewrite <- list_fmap_compose.
  apply fmap_ext_on. intros [k v] Hin. by apply Hk.
Qed.

(** C4. The identities of the merged collection are the old identities
    that are still held, in their old relative order, followed by the
    identities that are new. The new ones stand in the order of the poll
    result: they form a sublist of the candidates' identities, which for
    a poll result without repeated identities determines them. *)
Theorem merge_keeps_discovery_order (now : Z) (polled ls : list TrackedLoop) :
  let old := ids ls in
  let new := ids (merged_loops now polled ls) in
  ∃ appended : list string,
    new = filter (λ i, i ∈ new) old ++ appended
    ∧ appended `sublist_of` ids polled
    ∧ (∀ i, i ∈ appended → i ∉ old)
    ∧ NoDup appended
    ∧ (NoDup (ids polled) →
       appended = filter (λ i, i ∈ new ∧ i ∉ old) (ids polled)).
Proof.
  intros old new.
  destruct (final_map_well_formed now polled ls) as [Hnd Hk].
  set (K := keys (final_map now polled ls)) in *.
  assert (new = filter (λ i, i ∈ K) old ++ filter (λ i, i ∉ old) K) as Hnew.
  { subst new. rewrite merged_loops_ids. by apply ordered_ids_spec. }
  assert (∀ i, i ∈ new ↔ i ∈ K) as Hmem.
  { intros i. subst new. rewrite merged_loops_ids.
    by apply ordered_ids_elem. }
  assert (filter (λ i, i ∉ old) K `sublist_of` ids polled) as Hsub.
  { subst K. unfold final_map. rewrite mark_missing_keys.
    apply merge_loop_new_keys. }
  exists (filter (λ i, i ∉ old) K). split_and!.
  - rewrite Hnew at 1. f_equal. apply filter_iff_on. intros i _.
    by rewrite Hmem.
  - exact Hsub.
  - intros i Hi. by apply list_elem_of_filter in Hi as [? _].
  - by apply NoDup_filter.
  - intros Hp. rewrite (sublist_NoDup_filter _ _ Hsub Hp) at 1.
    apply filter_iff_on. intros i _.
    rewrite list_elem_of_filter, Hmem. tauto.
Qed.

Lemma merge_keeps_discovery_order_witness :
  NoDup (ids three_candidates)
  ∧ ids (merged_loops 20 three_candidates collection)
    = ["wt-1"; "primary-20260207-x"; "wt-9"; "wt-3"].
Proof.
  assert (NoDup (ids three_candidates)) as Hnd.
  { apply (bool_decide_unpack _). vm_compute. exact I. }
  split; [exact Hnd|].
  destruct (merge_keeps_discovery_order 20 three_candidates collection)
    as (appended & Hnew & _ & _ & _ & Happ).
  rewrite Hnew, (Happ Hnd). vm_compute. reflexivity.
Defined.

(** ** Directories *)

Lemma usable_directory_false d :
  usable_directory d = false ↔ placeholder_directory d.
Proof.
  unfold usable_directory, placeholder_directory.
  destruct d as [[|c s]|]; cbn [truthy andb].
  - split; [intros _; right; by left | done].
  - destruct (startsWith (String c s) "(") eqn:Hp; cbn [negb].
    + split; [|done]. intros _. right. right. eauto.
    + split; [done|]. intros [?|[?|(s' & [= <-] & ?)]]; congruence.
  - split; [intros _; by left | done].
Qed.

Lemma merge_loop_cons now next rest acc :
  merge_loop now (next :: rest) acc
  = merge_loop now rest (merge_step now acc next).
Proof. done. Qed.

(** A record that the pass does not re-key stays under its key, and its
    directory stays as long as the candidates for that key bring none. *)
Lemma merge_loop_directory now k polled :
  ∀ acc v,
    well_formed acc.1 → get k acc.1 = Some v →
    (∀ c, c ∈ polled → id c = k → placeholder_directory (directory c)) →
    k ∉ rekey_trace now polled acc →
    ∃ v', get k (merge_loop now polled acc).1 = Some v'
          ∧ directory v' = directory v.
Proof.
  induction polled as [|next rest IH]; intros acc v Hwf Hget Hdirs Htrace.
  - exists v. done.
  - rewrite merge_loop_cons. cbn [rekey_trace] in Htrace.
    apply not_elem_of_app in Htrace as [Hhere Hrest].
    destruct (merge_step_case now acc next) as [Hcase _].
    pose proof (step_case_well_formed _ _ _ _ Hwf Hcase) as Hwf'.
    assert (∃ v1, get k (merge_step now acc next).1 = Some v1
                  ∧ directory v1 = directory v) as (v1 & Hget1 & Hdir1).
    { destruct Hcase as [existing Hex _|e el Hnone Hid Hre Hel _ _ _|Hnone _].
      - destruct (decide (id next = k)) as [Heq|Hne].
        + exists (merge_existing now existing next).
          rewrite Heq, get_set_eq. split; [done|]. simpl.
          assert (usable_directory (directory next) = false) as ->.
          { apply usable_directory_false, Hdirs; [left | done]. }
          congruence.
        + exists v. by rewrite get_set_ne.
      - rewrite Hre in Hhere. apply not_elem_of_cons in Hhere as [Hke _].
        exists v. rewrite get_set_ne by congruence.
        by rewrite get_delete_ne.
      - exists v. rewrite get_set_ne by congruence. done. }
    destruct (IH _ v1 Hwf' Hget1) as (v' & Hget' & Hdir'); [|done|].
    + intros c Hc. apply Hdirs. by right.
    + exists v'. split; [done | congruence].
Qed.

Lemma marked_directory seen l : directory (marked seen l) = directory l.
Proof. unfold marked. by destruct (_ && _). Qed.

Lemma parse_directory_absolute raw :
  parse_directory raw = None ∨ isAbsPath (parse_directory raw) = true.
Proof.
  unfold parse_directory.
  repeat match goal with
         | |- context [if isAbsPath ?x then _ else _] =>
             destruct (isAbsPath x) eqn:?; [by right|]
         end.
  by left.
Qed.

Lemma isAbsPath_true d :
  isAbsPath d = true → ∃ p, d = Some p ∧ p ≠ "" ∧ startsWith p "/" = true.
Proof.
  destruct d as [[|c s]|]; cbn [isAbsPath truthy andb]; try done.
  intros H. exists (String c s). done.
Qed.

(** C5. A candidate whose directory is null, empty or a display value in
    parentheses leaves the directory of the record it updates as it was.
    Across a whole merge: a record that the pass does not re-key, and
    whose candidates all bring such a directory, is still held under its
    identity with its directory unchanged. And the resolver yields either
    no directory or an absolute path: when none of the four directory-like
    fields is an absolute path, it yields none. *)
Theorem merge_keeps_known_directory (now : Z) :
  (∀ existing next,
     placeholder_directory (directory next) →
     directory (merge_existing now existing next) = directory existing)
  ∧ (∀ polled ls r0,
       NoDup (ids ls) → r0 ∈ ls →
       (∀ c, c ∈ polled → id c = id r0 →
             placeholder_directory (directory c)) →
       id r0 ∉ rekey_trace now polled (start_map ls, ∅) →
       ∃ r, r ∈ merged_loops now polled ls
            ∧ id r = id r0 ∧ directory r = directory r0)
  ∧ (∀ raw l,
       parse_record now raw = Some l →
       (directory l = None
        ∨ ∃ p, directory l = Some p ∧ p ≠ "" ∧ startsWith p "/" = true)
       ∧ ((∀ field, field ∈ ["directory"; "path"; "workspace"; "worktree_path"] →
             isAbsPath (as_string (prop raw field)) = false) →
          directory l = None)).
Proof.
  split_and!.
  - intros existing next Hp. simpl.
    apply usable_directory_false in Hp. by rewrite Hp.
  - intros polled ls r0 Hnd Hr0 Hdirs Htrace.
    destruct (merge_loop_directory now (id r0) polled (start_map ls, ∅) r0)
      as (v' & Hget & Hdir); [apply start_map_well_formed| |done..|].
    { apply elem_get; [apply start_map_well_formed|].
      rewrite start_map_NoDup by done. apply list_elem_of_fmap. by exists r0. }
    exists (marked (merge_loop now polled (start_map ls, ∅)).2 v').
    split_and!; [by eapply get_final_map| |by rewrite marked_directory].
    rewrite marked_id.
    pose proof (merge_loop_well_formed now polled (start_map ls, ∅)
                  (start_map_well_formed ls)) as [_ Hk].
    apply Hk. by apply get_Some_elem.
  - intros raw l Hparse. unfold parse_record in Hparse.
    destruct (negb _); [done|]. injection Hparse as <-. cbn [directory].
    split.
    + destruct (parse_directory_absolute raw) as [?|Habs]; [by left|].
      right. by apply isAbsPath_true.
    + intros Hnone. unfold parse_directory.
      rewrite !Hnone; [done|set_solver..].
Qed.

Lemma merge_keeps_known_directory_witness :
  NoDup (ids collection)
  ∧ placeholder_directory (directory in_place_candidate)
  ∧ directory (merge_existing 20 worktree_loop in_place_candidate)
    = Some "/p"
  ∧ (∃ r, r ∈ merged_loops 20 [in_place_candidate] collection
          ∧ id r = "wt-1" ∧ directory r = Some "/p")
  ∧ (∃ l, parse_record 20 in_place_json = Some l ∧ directory l = None).
Proof.
  assert (NoDup (ids collection)) as Hnd.
  { apply (bool_decide_unpack _). vm_compute. exact I. }
  assert (placeholder_directory (directory in_place_candidate)) as Hph.
  { right. right. exists "(in-place)". split; reflexivity. }
  destruct (merge_keeps_known_directory 20) as (Hone & Hmerge & Hparse).
  split_and!; [exact Hnd | exact Hph | | |].
  - exact (Hone worktree_loop in_place_candidate Hph).
  - apply (Hmerge [in_place_candidate] collection worktree_loop).
    + exact Hnd.
    + left.
    + intros c Hc _. apply list_elem_of_singleton in Hc as ->. exact Hph.
    + vm_compute. apply not_elem_of_nil.
  - eexists. split; [reflexivity|].
    apply (Hparse in_place_json); [reflexivity|].
    intros field Hf.
    repeat (apply elem_of_cons in Hf as [->|Hf]; [reflexivity|]).
    inversion Hf.
Defined.

(** ** The rekey step *)

Lemma merge_loop_app now l1 l2 acc :
  merge_loop now (l1 ++ l2) acc = merge_loop now l2 (merge_loop now l1 acc).
Proof. unfold merge_loop. by rewrite fold_left_app. Qed.

Lemma rekey_trace_app now l1 l2 acc :
  rekey_trace now (l1 ++ l2) acc
  = rekey_trace now l1 acc ++ rekey_trace now l2 (merge_loop now l1 acc).
Proof.
  revert acc. induction l1 as [|x l1 IH]; intros acc; [done|].
  cbn [app rekey_trace]. rewrite IH, merge_loop_cons. by rewrite app_assoc.
Qed.

Lemma rekey_target_placeholder m next e el :
  rekey_target m next = Some (e, el) →
  id next = "(primary)" ∧ get "(primary)" m = None.
Proof.
  unfold rekey_target. destruct (get (id next) m) eqn:Hget; [done|].
  case_decide as Hid; [|done]. intros _. by rewrite <- Hid.
Qed.

Lemma step_case_placeholder now m next m' :
  is_Some (get "(primary)" m) → step_case now m next m' →
  is_Some (get "(primary)" m') ∧ rekey_target m next = None.
Proof.
  intros Hp Hcase.
  destruct Hcase as [existing Hex Hre|e el Hnone Hid Hre|Hnone Hre].
  - split; [|done]. rewrite get_set. by case_decide.
  - apply rekey_target_placeholder in Hre as [_ Hre].
    rewrite Hre in Hp. by destruct Hp.
  - split; [|done]. rewrite get_set. by case_decide.
Qed.

Lemma rekey_trace_placeholder now polled acc :
  is_Some (get "(primary)" acc.1) → rekey_trace now polled acc = [].
Proof.
  revert acc. induction polled as [|next rest IH]; intros acc Hp; [done|].
  destruct (merge_step_case now acc next) as [Hcase _].
  destruct (step_case_placeholder _ _ _ _ Hp Hcase) as [Hp' Hre].
  cbn [rekey_trace]. rewrite Hre. by apply IH.
Qed.

(** The placeholder key is in [byId] from the turn that re-keys on, so a
    pass re-keys at most once. *)
Lemma rekey_trace_length now polled acc :
  (length (rekey_trace now polled acc) ≤ 1)%nat.
Proof.
  revert acc. induction polled as [|next rest IH]; intros acc; [simpl; lia|].
  cbn [rekey_trace].
  destruct (rekey_target acc.1 next) as [[e el]|] eqn:Hre; [|apply IH].
  destruct (merge_step_case now acc next) as [Hcase _].
  rewrite rekey_trace_placeholder; [simpl; lia|].
  apply rekey_target_placeholder in Hre as [Hid _].
  destruct Hcase; rewrite <- Hid, get_set_eq; done.
Qed.

Section find_facts.
Context {A : Type}.
Implicit Types (f : A → bool) (l : list A).

Lemma find_first f l1 x l2 :
  (∀ y, y ∈ l1 → f y = false) → f x = true →
  List.find f (l1 ++ x :: l2) = Some x.
Proof.
  intros Hl1 Hx. induction l1 as [|y l1 IH]; simpl.
  - by rewrite Hx.
  - rewrite (Hl1 y) by left. apply IH. intros z Hz. apply Hl1. by right.
Qed.

End find_facts.

Lemma filter_one_id (l : list TrackedLoop) (x : TrackedLoop) :
  NoDup (ids l) → x ∈ l → filter (λ y, id y = id x) l = [x].
Proof.
  unfold ids. induction l as [|y l IH]; intros Hnd Hx; [inversion Hx|].
  rewrite fmap_cons in Hnd. apply NoDup_cons in Hnd as [Hy Hnd].
  assert (∀ z, z ∈ l → id z ≠ id y) as Hfresh.
  { intros z Hz Heq. apply Hy. rewrite <- Heq.
    apply list_elem_of_fmap. by exists z. }
  apply elem_of_cons in Hx as [->|Hx].
  - rewrite filter_cons_True by done. f_equal.
    apply elem_of_nil_inv. intros z Hz.
    apply list_elem_of_filter in Hz as [Heq Hz]. by apply (Hfresh z).
  - rewrite filter_cons_False; [by apply IH|].
    intros Heq. by apply (Hfresh x).
Qed.

Lemma merge_loop_keys_origin now polled acc k :
  k ∈ keys (merge_loop now polled acc).1 → k ∈ keys acc.1 ∨ k ∈ ids polled.
Proof.
  apply (merge_loop_ind now polled acc
           (λ pre a, k ∈ keys a.1 → k ∈ keys acc.1 ∨ k ∈ ids pre)).
  - by left.
  - intros pre next post a _ _ IH Hk. rewrite ids_snoc, elem_of_app.
    destruct (merge_step_case now a next) as [Hcase _].
    assert (∀ v (m0 : Map TrackedLoop),
              keys m0 `sublist_of` keys a.1 →
              k ∈ keys (set (id next) v m0) →
              k ∈ keys acc.1 ∨ k ∈ ids pre ∨ k ∈ [id next]) as Hset.
    { intros v m0 Hsub Hin. rewrite keys_set in Hin.
      assert (k ∈ keys m0 → k ∈ keys acc.1 ∨ k ∈ ids pre ∨ k ∈ [id next]).
      { intros H. apply (elem_of_sublist _ _ _ H) in Hsub.
        destruct (IH Hsub); auto. }
      destruct (has (id next) m0); [auto|].
      apply elem_of_app in Hin as [?|?]; auto. }
    destruct Hcase; (eapply Hset; [|exact Hk]); try done.
    apply keys_delete_sublist.
Qed.

Lemma merged_loops_ids_keys now polled ls k :
  k ∈ ids (merged_loops now polled ls)
  ↔ k ∈ keys (merge_loop now polled (start_map ls, ∅)).1.
Proof.
  destruct (final_map_well_formed now polled ls) as [Hnd Hk].
  rewrite merged_loops_ids, ordered_ids_elem by done.
  unfold final_map. by rewrite mark_missing_keys.
Qed.

Lemma merge_loop_placeholder_stays now polled acc :
  is_Some (get "(primary)" acc.1) →
  is_Some (get "(primary)" (merge_loop now polled acc).1).
Proof.
  revert acc. induction polled as [|next rest IH]; intros acc Hp; [done|].
  rewrite merge_loop_cons. apply IH.
  destruct (merge_step_case now acc next) as [Hcase _].
  by destruct (step_case_placeholder _ _ _ _ Hp Hcase).
Qed.

(** While no record is keyed as the placeholder, the pass has re-keyed
    nothing. *)
Lemma rekey_trace_none now polled acc :
  get "(primary)" (merge_loop now polled acc).1 = None →
  rekey_trace now polled acc = [].
Proof.
  revert acc. induction polled as [|next rest IH]; intros acc Hnone; [done|].
  rewrite merge_loop_cons in Hnone. cbn [rekey_trace].
  rewrite (IH _ Hnone), app_nil_r.
  destruct (rekey_target acc.1 next) as [[e el]|] eqn:Hre; [|done].
  exfalso.
  destruct (merge_step_case now acc next) as [Hcase _].
  apply rekey_target_placeholder in Hre as [Hid _].
  assert (is_Some (get "(primary)" (merge_step now acc next).1)) as Hp.
  { destruct Hcase; rewrite <- Hid, get_set_eq; done. }
  apply (merge_loop_placeholder_stays now rest) in Hp.
  rewrite Hnone in Hp. by destruct Hp.
Qed.

Section rekey.
Context (now : Z) (r : TrackedLoop).

(** Once the record sits under the placeholder key it stays there, and
    keeps its source and its session. *)
Lemma merge_loop_later later acc p :
  well_formed acc.1 →
  get "(primary)" acc.1 = Some p →
  source p = Tool → ptySession p = ptySession r →
  ∃ p', get "(primary)" (merge_loop now later acc).1 = Some p'
        ∧ source p' = Tool ∧ ptySession p' = ptySession r.
Proof.
  intros Hwf Hget Hs Hp.
  cut (well_formed (merge_loop now later acc).1
       ∧ ∃ p', get "(primary)" (merge_loop now later acc).1 = Some p'
               ∧ source p' = Tool ∧ ptySession p' = ptySession r).
  { intros [_ H]. exact H. }
  apply (merge_loop_ind now later acc
           (λ _ a, well_formed a.1
                   ∧ ∃ p', get "(primary)" a.1 = Some p'
                           ∧ source p' = Tool
                           ∧ ptySession p' = ptySession r)).
  - split; [done|]. by exists p.
  - intros pre next post a _ _ [Hwfa (p' & Hget' & Hs' & Hp')].
    destruct (merge_step_case now a next) as [Hcase _].
    split; [by eapply step_case_well_formed|].
    destruct Hcase as [existing Hex _|e el Hnone Hid Hre|Hnone _].
    + destruct (decide (id next = "(primary)")) as [Heq|Hne].
      * rewrite Heq in *. assert (existing = p') as -> by congruence.
        exists (merge_existing now p' next). by rewrite get_set_eq.
      * exists p'. by rewrite get_set_ne.
    + apply rekey_target_placeholder in Hre as [_ Hre]. congruence.
    + exists p'. rewrite get_set_ne by congruence. done.
Qed.

Context (ls earlier later : list TrackedLoop) (c : TrackedLoop).
Context (before after : Map TrackedLoop).
Let polled := earlier ++ c :: later.

Hypothesis ls_unique : NoDup (ids ls).
Hypothesis c_placeholder : id c = "(primary)".
Hypothesis r_reached : reached now earlier ls = before ++ (id r, r) :: after.
Hypothesis no_placeholder : "(primary)" ∉ keys (reached now earlier ls).
Hypothesis r_rekeyable : rekeyable c (id r) r.
Hypothesis r_first : ∀ k x, (k, x) ∈ before → ¬ rekeyable c k x.

Lemma rekey_at_candidate :
  let a := merge_loop now earlier (start_map ls, ∅) in
  rekey_target a.1 c = Some (id r, r)
  ∧ (merge_step now a c).1
    = set "(primary)" (merge_existing now r c) (delete (id r) a.1).
Proof.
  intros a. unfold reached in *. fold a in r_reached, no_placeholder.
  apply get_None in no_placeholder as Hnone.
  destruct r_rekeyable as (Hsource & Hkey & Hdir).
  assert (rekey_target a.1 c = Some (id r, r)) as Hre.
  { unfold rekey_target. rewrite c_placeholder, Hnone.
    rewrite decide_True by done. unfold find_primary.
    rewrite r_reached. apply find_first.
    - intros [k x] Hin. unfold primary_match. cbn [fst snd].
      destruct (decide (source x = Tool)) as [Ht|Ht];
        [|by rewrite (bool_decide_eq_false_2 _ Ht)].
      destruct (startsWith k "primary-") eqn:Hpre;
        [|by rewrite andb_false_r].
      destruct (decide (directory x = directory c)) as [Hd|Hd];
        [|by rewrite (bool_decide_eq_false_2 _ Hd), andb_false_r].
      exfalso. by apply (r_first k x).
    - unfold primary_match. cbn [fst snd].
      rewrite Hkey, !bool_decide_eq_true_2; done. }
  split; [done|]. unfold merge_step.
  rewrite c_placeholder at 1. rewrite Hnone, Hre. by rewrite c_placeholder.
Qed.

Lemma rekey_result :
  (∃ p, filter (λ x, id x = "(primary)") (merged_loops now polled ls) = [p]
        ∧ source p = Tool ∧ ptySession p = ptySession r)
  ∧ (id r ∈ ids (merged_loops now polled ls) → id r ∈ ids later)
  ∧ rekey_trace now polled (start_map ls, ∅) = [id r].
Proof.
  set (a := merge_loop now earlier (start_map ls, ∅)).
  destruct rekey_at_candidate as [Hre Hstep]. fold a in Hre, Hstep.
  destruct r_rekeyable as (Hsource & Hkey & Hdir).
  pose proof (merge_loop_well_formed now earlier (start_map ls, ∅)
                (start_map_well_formed ls)) as Hwfa. fold a in Hwfa.
  destruct (merge_step_case now a c) as [Hcase _].
  pose proof (step_case_well_formed _ _ _ _ Hwfa Hcase) as Hwf2.
  assert (merge_loop now polled (start_map ls, ∅)
          = merge_loop now later (merge_step now a c)) as Hloop.
  { subst polled. by rewrite merge_loop_app, merge_loop_cons. }
  destruct (merge_loop_later later (merge_step now a c)
              (merge_existing now r c) Hwf2) as (p & Hp & Hps & Hpp);
    [by rewrite Hstep, get_set_eq|done..|].
  rewrite <- Hloop in Hp.
  split_and!.
  - exists (marked (merge_loop now polled (start_map ls, ∅)).2 p).
    rewrite marked_source, marked_ptySession. split_and!; [|done..].
    pose proof (get_final_map now polled ls _ _ Hp) as Hin.
    pose proof (merge_loop_well_formed now polled (start_map ls, ∅)
                  (start_map_well_formed ls)) as [_ Hk].
    assert (id (marked (merge_loop now polled (start_map ls, ∅)).2 p)
            = "(primary)") as Hid.
    { rewrite marked_id. apply Hk. by apply get_Some_elem. }
    rewrite <- Hid. apply filter_one_id; [|done].
    by apply merged_loops_NoDup.
  - intros Hin. apply merged_loops_ids_keys in Hin. rewrite Hloop in Hin.
    apply merge_loop_keys_origin in Hin as [Hin|Hin]; [|done].
    exfalso. apply get_is_Some in Hin as [v Hv].
    rewrite Hstep in Hv. rewrite get_set_ne in Hv.
    2:{ intros Heq. rewrite <- Heq in Hkey. done. }
    destruct Hwfa as [Hnd _]. by rewrite get_delete_eq in Hv.
  - subst polled. rewrite rekey_trace_app. cbn [rekey_trace]. fold a.
    rewrite (rekey_trace_none now earlier (start_map ls, ∅))
      by (apply get_None; exact no_placeholder).
    rewrite Hre. rewrite rekey_trace_placeholder; [done|].
    rewrite Hstep, get_set_eq. done.
Qed.
End rekey.

(** C2, with the conditions taken at the turn of the candidate. A pass
    re-keys at most once. Let [c] be a candidate keyed as the placeholder,
    and take the records as the pass holds them when it reaches [c], the
    candidates before [c] merged: let no record be keyed as the
    placeholder, and let [r] be a tool record under a primary- key whose
    directory is that of [c], the first such record in the order of the
    collection, which holds each identity once. Then the merged
    collection holds exactly one record keyed
    as the placeholder, it is a tool record with the session of [r], the
    identity of [r] is gone unless a later candidate brings it back, and
    the pass re-keyed [r] and nothing else. Before any candidate, the
    records are those of the collection. *)
Theorem primary_rekey (now : Z) :
  (∀ polled ls,
     (length (rekey_trace now polled (start_map ls, ∅)) ≤ 1)%nat)
  ∧ (∀ ls earlier later c before r after,
       NoDup (ids ls) →
       id c = "(primary)" →
       reached now earlier ls = before ++ (id r, r) :: after →
       "(primary)" ∉ keys (reached now earlier ls) →
       rekeyable c (id r) r →
       (∀ k x, (k, x) ∈ before → ¬ rekeyable c k x) →
       let result := merged_loops now (earlier ++ c :: later) ls in
       (∃ p, filter (λ x, id x = "(primary)") result = [p]
             ∧ source p = Tool ∧ ptySession p = ptySession r)
       ∧ (id r ∈ ids result → id r ∈ ids later)
       ∧ rekey_trace now (earlier ++ c :: later) (start_map ls, ∅)
         = [id r])
  ∧ (∀ ls, NoDup (ids ls) →
           reached now [] ls = (λ l, (id l, l)) <$> ls).
Proof.
  split_and!.
  - intros polled ls. apply rekey_trace_length.
  - intros. by eapply rekey_result.
  - intros ls Hnd. by apply start_map_NoDup.
Qed.

Lemma primary_rekey_witness :
  reached 20 [candidate "primary-zzz" (Some "/p")] [worktree_loop; primary_x]
  = [("wt-1", worktree_loop)]
    ++ (id primary_x, primary_x)
    :: [("primary-zzz",
         insert_new 20 (candidate "primary-zzz" (Some "/p")))]
  ∧ rekeyable placeholder_candidate (id primary_x) primary_x
  ∧ merged_loops 20
      ([candidate "primary-zzz" (Some "/p")] ++ placeholder_candidate :: [])
      [worktree_loop; primary_x]
    = [ mark worktree_loop;
        mkLoop "primary-zzz" None (Some "/p") None "running" 4 10 None 75
               None Discovered None false 20;
        mkLoop "(primary)" None (Some "/p") None "running" 4 10 None 75 None
               Tool (Some 1%nat) false 20 ]
  ∧ (∃ p, filter (λ x, id x = "(primary)")
                 (merged_loops 20
                    ([candidate "primary-zzz" (Some "/p")]
                     ++ placeholder_candidate :: [])
                    [worktree_loop; primary_x]) = [p]
          ∧ source p = Tool ∧ ptySession p = ptySession primary_x)
  ∧ rekey_trace 20
      ([candidate "primary-zzz" (Some "/p")] ++ placeholder_candidate :: [])
      (start_map [worktree_loop; primary_x], ∅)
    = [id primary_x].
Proof.
  assert (reached 20 [candidate "primary-zzz" (Some "/p")]
                  [worktree_loop; primary_x]
          = [("wt-1", worktree_loop)]
            ++ (id primary_x, primary_x)
            :: [("primary-zzz",
                 insert_new 20 (candidate "primary-zzz" (Some "/p")))])
    as Hreached by (vm_compute; reflexivity).
  assert (rekeyable placeholder_candidate (id primary_x) primary_x) as Hr
    by (split; [reflexivity | split; reflexivity]).
  split; [exact Hreached|]. split; [exact Hr|].
  split; [vm_compute; reflexivity|].
  destruct (primary_rekey 20) as (_ & H & _).
  destruct (H [worktree_loop; primary_x]
              [candidate "primary-zzz" (Some "/p")] []
              placeholder_candidate [("wt-1", worktree_loop)] primary_x
              [("primary-zzz",
                insert_new 20 (candidate "primary-zzz" (Some "/p")))])
    as (Hone & _ & Htrace).
  - apply (bool_decide_unpack _). vm_compute. exact I.
  - reflexivity.
  - exact Hreached.
  - apply (bool_decide_unpack _). vm_compute. exact I.
  - exact Hr.
  - intros k x Hx [Hs _]. apply list_elem_of_singleton in Hx.
    injection Hx as -> ->. discriminate Hs.
  - split; [exact Hone | exact Htrace].
Defined.

(** One tool record with a primary- identity in [/p], and two candidates:
    the first carries that identity with the directory [/q], the second
    is the placeholder in [/p]. When the pass reaches the placeholder the
    record has the directory [/q], the search finds nothing, and the
    placeholder is inserted as a discovered loop without a session. *)
Lemma primary_rekey_misses_moved_record :
  ¬ (∀ now ls polled r c,
       r ∈ ls → NoDup (ids ls) → "(primary)" ∉ ids ls →
       source r = Tool → startsWith (id r) "primary-" = true →
       (∀ x, x ∈ ls → source x = Tool →
             startsWith (id x) "primary-" = true →
             directory x = directory r → x = r) →
       c ∈ polled → id c = "(primary)" → directory c = directory r →
       ∃ p, filter (λ x, id x = "(primary)") (merged_loops now polled ls)
            = [p]
            ∧ source p = Tool ∧ ptySession p = ptySession r).
Proof.
  intros H.
  destruct (H 20 [primary_x]
              [candidate "primary-20260207-x" (Some "/q");
               placeholder_candidate]
              primary_x placeholder_candidate) as (p & Hp & Hsource & _).
  - left.
  - apply (bool_decide_unpack _). vm_compute. exact I.
  - apply (bool_decide_unpack _). vm_compute. exact I.
  - reflexivity.
  - reflexivity.
  - intros x Hx _ _ _. by apply list_elem_of_singleton in Hx.
  - right. left.
  - reflexivity.
  - reflexivity.
  - vm_compute in Hp. injection Hp as <-. discriminate Hsource.
Qed.

(** The same with an earlier candidate that is keyed as the placeholder
    and comes from another directory: it is inserted as a discovered
    loop, and the placeholder of [/p] then finds its key taken. *)
Lemma primary_rekey_blocked_by_earlier_placeholder :
  filter (λ x, id x = "(primary)")
         (merged_loops 20 [candidate "(primary)" (Some "/q");
                           placeholder_candidate] [primary_x])
  = [mkLoop "(primary)" None (Some "/p") None "running" 4 10 None 75 None
            Discovered None false 20]
  ∧ primary_x ∈ merged_loops 20 [candidate "(primary)" (Some "/q");
                                 placeholder_candidate] [primary_x].
Proof. split; [vm_compute; reflexivity | left]. Qed.

(** ** Merging the same candidates again *)

Lemma rekey_clean_at now polled acc pre next post e el :
  rekey_clean now polled acc = true →
  polled = pre ++ next :: post →
  rekey_target (merge_loop now pre acc).1 next = Some (e, el) →
  e ∉ (merge_loop now pre acc).2.
Proof.
  revert polled acc. induction pre as [|x pre IH]; intros polled acc Hc -> Hre.
  - cbn [app rekey_clean merge_loop fold_left] in *. rewrite Hre in Hc.
    apply andb_true_iff in Hc as [Hc _]. by apply bool_decide_eq_true in Hc.
  - cbn [app rekey_clean] in Hc. apply andb_true_iff in Hc as [_ Hc].
    rewrite merge_loop_cons in *. by eapply IH.
Qed.

Section record_algebra.
Implicit Types (v w c : TrackedLoop) (cs : list TrackedLoop).

Lemma updates_snoc n cs c v :
  updates n (cs ++ [c]) v = merge_existing n (updates n cs v) c.
Proof. unfold updates. by rewrite fold_left_app. Qed.

Lemma updates_source n cs v : source (updates n cs v) = source v.
Proof.
  revert v. induction cs as [|c cs IH]; intros v; [done|].
  cbn [updates fold_left]. fold (updates n cs (merge_existing n v c)).
  by rewrite IH.
Qed.

Lemma updates_ptySession n cs v :
  ptySession (updates n cs v) = ptySession v.
Proof.
  revert v. induction cs as [|c cs IH]; intros v; [done|].
  cbn [updates fold_left]. fold (updates n cs (merge_existing n v c)).
  by rewrite IH.
Qed.

Lemma updates_directory n cs v w :
  directory v = directory w →
  directory (updates n cs v) = directory (updates n cs w).
Proof.
  revert v w. induction cs as [|c cs IH]; intros v w Hvw; [done|].
  cbn [updates fold_left].
  fold (updates n cs (merge_existing n v c)).
  fold (updates n cs (merge_existing n w c)).
  apply IH. simpl. by rewrite Hvw.
Qed.

Lemma updates_worktree n cs v w :
  worktree v = worktree w →
  worktree (updates n cs v) = worktree (updates n cs w).
Proof.
  revert v w. induction cs as [|c cs IH]; intros v w Hvw; [done|].
  cbn [updates fold_left].
  fold (updates n cs (merge_existing n v c)).
  fold (updates n cs (merge_existing n w c)).
  apply IH. simpl. by rewrite Hvw.
Qed.

(** A record that its candidates so far only refresh is only refreshed
    by them again after one more candidate has updated it. *)
Lemma updates_absorb_snoc n n' cs c v :
  updates n' cs v = touch n' v →
  updates n' (cs ++ [c]) (merge_existing n v c)
  = touch n' (merge_existing n v c).
Proof.
  intros Habs. rewrite updates_snoc.
  pose proof (updates_source n' cs (merge_existing n v c)) as Hs.
  pose proof (updates_ptySession n' cs (merge_existing n v c)) as Hp.
  assert (directory (updates n' cs v) = directory v) as Hdv
    by (by rewrite Habs).
  assert (worktree (updates n' cs v) = worktree v) as Hwv
    by (by rewrite Habs).
  unfold merge_existing at 1, touch. f_equal; [| |done..].
  - destruct (usable_directory (directory c)) eqn:Hu; simpl; rewrite Hu;
      [done|].
    rewrite <- Hdv. apply updates_directory. simpl. by rewrite Hu.
  - destruct (worktree c) eqn:Hw; simpl; rewrite Hw; [done|].
    rewrite <- Hwv. apply updates_worktree. simpl. by rewrite Hw.
Qed.

Lemma merge_existing_again n n' v c :
  merge_existing n' (merge_existing n v c) c = touch n' (merge_existing n v c).
Proof.
  unfold merge_existing, touch. simpl. f_equal.
  - by destruct (usable_directory (directory c)).
  - by destruct (worktree c).
Qed.

Lemma merge_existing_inserted n n' c :
  merge_existing n' (insert_new n c) c = touch n' (insert_new n c).
Proof.
  unfold merge_existing, touch. simpl. f_equal.
  - by destruct (usable_directory (directory c)).
  - by destruct (worktree c).
Qed.

Lemma touch_same n v : lastSeenAt v = n → touch n v = v.
Proof. intros <-. by destruct v. Qed.
End record_algebra.

Lemma candidates_for_snoc k pre next :
  candidates_for k (pre ++ [next])
  = candidates_for k pre ++ (if decide (id next = k) then [next] else []).
Proof.
  unfold candidates_for. by rewrite filter_app.
Qed.

Lemma candidates_for_nil k pre : k ∉ ids pre → candidates_for k pre = [].
Proof.
  intros Hk. apply elem_of_nil_inv. intros c Hc.
  apply list_elem_of_filter in Hc as [Hid Hc]. apply Hk.
  apply list_elem_of_fmap. by exists c.
Qed.

Section first_pass.
Context (now : Z) (polled ls : list TrackedLoop).
Hypothesis clean : rekey_clean now polled (start_map ls, ∅) = true.

Lemma merge_loop_settled :
  settled now polled (merge_loop now polled (start_map ls, ∅)).
Proof.
  apply (merge_loop_ind now polled (start_map ls, ∅) (settled now)).
  { split_and!; [apply start_map_well_formed|..];
      intros k; [|intros v _]; intros Hk; inversion Hk. }
  intros pre next post a Heq Ha (Hwf & Hkeys & Hvals).
  destruct (merge_step_case now a next) as [Hcase _].
  pose proof (step_case_well_formed _ _ _ _ Hwf Hcase) as Hwf'.
  assert (a.2 = list_to_set (ids pre)) as Hseen.
  { rewrite Ha, merge_loop_seen. cbn [snd]. by rewrite union_empty_r_L. }
  (* the other keys that a candidate has carried keep their binding *)
  assert (∀ k, k ∈ ids pre → k ≠ id next →
            get k (merge_step now a next).1 = get k a.1) as Hother.
  { intros k Hk Hne.
    destruct Hcase as [existing Hex _|e el Hnone Hid Hre _ _ _ _|Hnone _];
      rewrite get_set_ne by done; [done| |done].
    apply get_delete_ne. intros ->.
    rewrite Ha in Hre.
    eapply (rekey_clean_at now polled (start_map ls, ∅)); [done..|].
    rewrite <- Ha, Hseen. by apply elem_of_list_to_set. }
  assert (get (id next) a.1 = None → id next ∉ ids pre) as Hfresh.
  { intros Hnone Hin. apply Hkeys, get_is_Some in Hin as [? ?]. congruence. }
  split_and!; [done|..].
  - intros k Hk. rewrite ids_snoc, elem_of_app, list_elem_of_singleton in Hk.
    apply get_is_Some.
    destruct (decide (k = id next)) as [->|Hne].
    + destruct Hcase; rewrite get_set_eq; done.
    + destruct Hk as [Hk|Hk]; [|done].
      rewrite Hother by done. by apply get_is_Some, Hkeys.
  - intros k v Hget Hk.
    rewrite ids_snoc, elem_of_app, list_elem_of_singleton in Hk.
    rewrite candidates_for_snoc.
    destruct (decide (id next = k)) as [<-|Hne].
    + destruct Hcase as [existing Hex _|e el Hnone Hid Hre _ _ _ _|Hnone _];
        rewrite get_set_eq in Hget; injection Hget as <-;
        (split; [done|]); intros n'.
      * destruct (decide (id next ∈ ids pre)) as [Hin|Hout].
        -- apply updates_absorb_snoc. by apply (Hvals _ _ Hex Hin).
        -- rewrite candidates_for_nil by done. apply merge_existing_again.
      * rewrite candidates_for_nil by auto. apply merge_existing_again.
      * rewrite candidates_for_nil by auto. apply merge_existing_inserted.
    + destruct Hk as [Hk|Hk]; [|congruence].
      rewrite Hother in Hget by done. rewrite app_nil_r. by apply Hvals.
Qed.
End first_pass.

Section more_map_facts.
Context {V : Type}.
Implicit Types (m : Map V) (k : string) (v : V).

(** On a key that is present, [set] rewrites the binding in place. *)
Lemma set_present_fmap k v m :
  NoDup (keys m) → k ∈ keys m →
  set k v m = (λ kv, if decide (kv.1 = k) then (k, v) else kv) <$> m.
Proof.
  unfold keys. induction m as [|[k' v'] m IH]; intros Hnd Hk; [inversion Hk|].
  csimpl in *. apply NoDup_cons in Hnd as [Hk' Hnd].
  destruct (decide (k' = k)) as [->|Hne].
  - f_equal. symmetry. apply fmap_id_on. intros [k0 v0] Hin.
    cbn [fst]. rewrite decide_False; [done|]. intros ->. apply Hk'.
    apply list_elem_of_fmap. by exists (k, v0).
  - f_equal. apply IH; [done|].
    apply elem_of_cons in Hk as [?|?]; [congruence | done].
Qed.

Lemma omap_get_keys m :
  NoDup (keys m) → omap (λ i, get i m) (keys m) = m.*2.
Proof.
  unfold keys. induction m as [|[k v] m IH]; intros Hnd; [done|].
  csimpl in *. apply NoDup_cons in Hnd as [Hk Hnd].
  rewrite decide_True by done. csimpl. f_equal.
  rewrite <- IH by done. apply list_omap_ext.
  apply Forall2_same_length_lookup. split; [done|].
  intros i x y Hx Hy. assert (x = y) as <- by congruence.
  rewrite decide_False; [done|]. intros ->. apply Hk.
  by eapply list_elem_of_lookup_2.
Qed.
End more_map_facts.

Lemma list_filter_True_on {A} `{EqDecision A} (l : list A) :
  filter (λ i, i ∈ l) l = l.
Proof.
  assert (∀ k : list A, (∀ x, x ∈ k → x ∈ l) → filter (λ i, i ∈ l) k = k) as H.
  { induction k as [|x k IH]; intros Hk; [done|].
    rewrite filter_cons_True by (apply Hk; left).
    f_equal. apply IH. intros y Hy. apply Hk. by right. }
  by apply H.
Qed.

(** When every candidate finds its key, the loop only updates. *)
Lemma merge_loop_updates now polled :
  ∀ (m : Map TrackedLoop) (s : gset string),
    well_formed m → (∀ c, c ∈ polled → id c ∈ keys m) →
    (merge_loop now polled (m, s)).1
    = (λ kv, (kv.1, updates now (candidates_for kv.1 polled) kv.2)) <$> m.
Proof.
  induction polled as [|c rest IH]; intros m s Hwf Hkeys.
  - cbn [merge_loop fold_left fst]. symmetry. apply fmap_id_on.
    by intros [k v] _.
  - rewrite merge_loop_cons.
    destruct (proj2 (get_is_Some (id c) m) (Hkeys c ltac:(left))) as [v Hv].
    assert (merge_step now (m, s) c
            = (set (id c) (merge_existing now v c) m, {[id c]} ∪ s)) as ->.
    { unfold merge_step. cbn [fst snd]. by rewrite Hv. }
    destruct Hwf as [Hnd Hk].
    assert (id c ∈ keys m) as Hc by (apply Hkeys; left).
    rewrite IH.
    + rewrite (set_present_fmap _ _ _ Hnd Hc), <- list_fmap_compose.
      apply fmap_ext_on. intros [k0 v0] Hin. cbn [compose fst snd].
      unfold candidates_for. rewrite filter_cons.
      destruct (decide (k0 = id c)) as [->|Hne].
      * rewrite decide_True by done. cbn [fst snd].
        assert (v0 = v) as -> by (apply (elem_get _ _ _ Hnd) in Hin; congruence).
        done.
      * rewrite decide_False by congruence. done.
    + split; [by apply NoDup_keys_set|].
      intros k' v' Hin. apply (elem_of_set _ _ _ _ _ Hnd) in Hin
        as [[-> ->]|[_ Hin]]; auto.
    + intros c' Hc'. rewrite keys_set_present by done. apply Hkeys. by right.
Qed.

Lemma marked_idem seen l : marked seen (marked seen l) = marked seen l.
Proof.
  destruct (bool_decide (id l ∉ seen) && bool_decide (source l ≠ Tool))
    eqn:H.
  - assert (marked seen l = mark l) as -> by (unfold marked; by rewrite H).
    unfold marked. cbn [id source mark]. by rewrite H.
  - assert (marked seen l = l) as -> by (unfold marked; by rewrite H).
    unfold marked. by rewrite H.
Qed.

Lemma marked_seen seen l : id l ∈ seen → marked seen l = l.
Proof.
  intros H. unfold marked. rewrite bool_decide_eq_false_2; [done|].
  intros Hn. by apply Hn.
Qed.

Lemma merge_loop_seen_all now polled (m : Map TrackedLoop) :
  (merge_loop now polled (m, ∅)).2 = list_to_set (ids polled).
Proof. rewrite merge_loop_seen. cbn [snd]. by rewrite union_empty_r_L. Qed.

Lemma merged_twice now1 now2 polled ls :
  NoDup (ids ls) →
  rekey_clean now1 polled (start_map ls, ∅) = true →
  merged_loops now2 polled (merged_loops now1 polled ls)
  = refreshed now2 polled <$> merged_loops now1 polled ls.
Proof.
  intros Hls Hclean.
  set (L1 := merged_loops now1 polled ls).
  pose proof (merged_loops_NoDup now1 polled ls Hls) as HL1. fold L1 in HL1.
  destruct (merge_loop_settled now1 polled ls Hclean) as (Hwf1 & Hkeys1 & Hvals1).
  pose proof (merge_loop_seen_all now1 polled (start_map ls)) as Hseen1.
  assert (∀ c, c ∈ polled → id c ∈ keys (start_map L1)) as Hpresent.
  { intros c Hc. apply start_map_keys. subst L1.
    apply merged_loops_ids_keys, Hkeys1.
    apply list_elem_of_fmap. by exists c. }
  unfold merged_loops at 1.
  rewrite (merge_loop_updates now2 polled _ _ (start_map_well_formed L1) Hpresent).
  rewrite merge_loop_seen_all.
  rewrite (start_map_NoDup L1 HL1).
  set (final2 := mark_missing _ _).
  assert (final2 = (λ l, (id l, refreshed now2 polled l)) <$> L1) as ->.
  { subst final2. unfold mark_missing. rewrite <- !list_fmap_compose.
    apply fmap_ext_on. intros l Hl. cbn [compose fst snd]. f_equal.
    subst L1. apply elem_of_merged_loops in Hl. unfold final_map in Hl.
    apply mark_missing_elem in Hl as (v0 & Hin & Heq).
    rewrite Hseen1 in Heq.
    pose proof (proj2 Hwf1 _ _ Hin) as Hid.
    unfold refreshed.
    destruct (decide (id l ∈ ids polled)) as [Hp|Hp].
    - rewrite (bool_decide_eq_true_2 (id l ∈ ids polled)) by done.
      assert (l = v0) as ->.
      { rewrite Heq. apply marked_seen. apply elem_of_list_to_set.
        by rewrite Hid. }
      apply (elem_get _ _ _ (proj1 Hwf1)) in Hin.
      destruct (Hvals1 _ _ Hin Hp) as [_ Habs]. rewrite Habs.
      apply marked_seen. cbn [touch id]. by apply elem_of_list_to_set.
    - rewrite (bool_decide_eq_false_2 (id l ∈ ids polled)) by done.
      rewrite candidates_for_nil by done. cbn [updates fold_left].
      rewrite Heq. apply marked_idem. }
  set (m2 := (λ l, (id l, refreshed now2 polled l)) <$> L1).
  assert (keys m2 = ids L1) as Hk2.
  { subst m2. unfold keys, ids. rewrite <- list_fmap_compose. done. }
  assert (ordered_ids (id <$> L1) m2 = keys m2) as ->.
  { rewrite ordered_ids_spec by (by rewrite Hk2).
    fold (ids L1). rewrite Hk2.
    rewrite (elem_of_nil_inv (filter (λ i, i ∉ ids L1) (ids L1))).
    2:{ intros i Hi. by apply list_elem_of_filter in Hi as [? ?]. }
    rewrite app_nil_r. apply list_filter_True_on. }
  rewrite omap_get_keys by (by rewrite Hk2).
  subst m2. by rewrite <- list_fmap_compose.
Qed.

Lemma loops_mergePolled now polled st :
  loops (mergePolled now polled st) = merged_loops now polled (loops st).
Proof. unfold mergePolled. by destruct (decide _). Qed.

Lemma focusedIndex_mergePolled now polled st :
  focusedIndex (mergePolled now polled st)
  = let n := length (active (merged_loops now polled (loops st))) in
    if decide (n = O) then 0 else Z.min (focusedIndex st) (Z.of_nat n - 1).
Proof. unfold mergePolled. cbv zeta. by destruct (decide _). Qed.

Lemma removed_refreshed now polled l :
  removed (refreshed now polled l) = removed l.
Proof. unfold refreshed. by case_bool_decide. Qed.

Lemma active_fmap_length (f : TrackedLoop → TrackedLoop) ls :
  (∀ l, removed (f l) = removed l) →
  length (active (f <$> ls)) = length (active ls).
Proof.
  intros Hf. unfold active. induction ls as [|l ls IH]; [done|].
  csimpl. rewrite Hf. destruct (removed l); simpl; by rewrite IH.
Qed.

Lemma merged_loops_stamped now polled ls l :
  rekey_clean now polled (start_map ls, ∅) = true →
  l ∈ merged_loops now polled ls → id l ∈ ids polled → lastSeenAt l = now.
Proof.
  intros Hclean Hl Hp.
  destruct (merge_loop_settled now polled ls Hclean) as (Hwf & _ & Hvals).
  apply elem_of_merged_loops in Hl. unfold final_map in Hl.
  apply mark_missing_elem in Hl as (v0 & Hin & Heq).
  rewrite merge_loop_seen_all in Heq.
  pose proof (proj2 Hwf _ _ Hin) as Hid.
  assert (l = v0) as ->.
  { rewrite Heq. apply marked_seen, elem_of_list_to_set. by rewrite Hid. }
  apply (elem_get _ _ _ (proj1 Hwf)) in Hin.
  by destruct (Hvals _ _ Hin Hp).
Qed.

(** C3, where it holds. Let the collection hold no identity twice, and
    let the first merge re-key no record whose identity an earlier
    candidate of the sequence carries. Then a second merge of the same
    candidates leaves the collection as the first made it, in content and
    in order, except that the records the candidates name carry the time
    of the second merge; the focus does not move; and when both merges
    read the same time the collection is exactly the same. *)
Theorem merge_again_refreshes
    (now1 now2 : Z) (polled : list TrackedLoop) (st : State) :
  NoDup (ids (loops st)) →
  rekey_clean now1 polled (start_map (loops st), ∅) = true →
  let once := mergePolled now1 polled st in
  let twice := mergePolled now2 polled once in
  loops twice = refreshed now2 polled <$> loops once
  ∧ focusedIndex twice = focusedIndex once
  ∧ (now2 = now1 → loops twice = loops once).
Proof.
  intros Hnd Hclean once twice.
  assert (loops twice = refreshed now2 polled <$> loops once) as Hloops.
  { subst twice once. rewrite !loops_mergePolled. by apply merged_twice. }
  split_and!; [done| |].
  - assert (length (active (loops twice)) = length (active (loops once)))
      as Hlen.
    { rewrite Hloops. apply active_fmap_length, removed_refreshed. }
    unfold twice at 1. rewrite focusedIndex_mergePolled. cbv zeta.
    rewrite <- loops_mergePolled. fold twice. rewrite Hlen.
    unfold once. rewrite focusedIndex_mergePolled, loops_mergePolled.
    cbv zeta. case_decide; [done|]. lia.
  - intros ->. rewrite Hloops. apply fmap_id_on. intros l Hl.
    unfold refreshed. case_bool_decide as Hp; [|done].
    apply touch_same. subst once. rewrite loops_mergePolled in Hl.
    by eapply merged_loops_stamped.
Qed.

Lemma merge_again_refreshes_witness :
  NoDup (ids (loops manager))
  ∧ rekey_clean 20 second_poll (start_map (loops manager), ∅) = true
  ∧ rekey_trace 20 second_poll (start_map (loops manager), ∅)
    = [id primary_x]
  ∧ ids (loops (mergePolled 20 second_poll manager)) = ["wt-1"; "(primary)"]
  ∧ loops (mergePolled 30 second_poll (mergePolled 20 second_poll manager))
    = refreshed 30 second_poll <$> loops (mergePolled 20 second_poll manager)
  ∧ loops (mergePolled 20 second_poll (mergePolled 20 second_poll manager))
    = loops (mergePolled 20 second_poll manager).
Proof.
  assert (NoDup (ids (loops manager))) as Hnd.
  { apply (bool_decide_unpack _). vm_compute. exact I. }
  assert (rekey_clean 20 second_poll (start_map (loops manager), ∅) = true)
    as Hclean by (vm_compute; reflexivity).
  destruct (merge_again_refreshes 20 30 second_poll manager Hnd Hclean)
    as (Hlater & _ & _).
  destruct (merge_again_refreshes 20 20 second_poll manager Hnd Hclean)
    as (_ & _ & Hsame).
  split_and!; [exact Hnd | exact Hclean | vm_compute; reflexivity
               | vm_compute; reflexivity | exact Hlater | exact (Hsame eq_refl)].
Defined.

(** A tool record [primary-20260207-x] in [/p]; the poll result names that
    identity and then the placeholder for [/p]. The first merge updates
    the record and then re-keys it, which leaves one record; the second
    merge finds the identity gone and inserts its candidate as a new
    record. *)
Lemma merge_again_inserts_rekeyed_identity :
  ¬ (∀ now polled st,
       NoDup (ids (loops st)) →
       loops (mergePolled now polled (mergePolled now polled st))
       = loops (mergePolled now polled st)).
Proof.
  intros H.
  specialize (H 20 [candidate "primary-20260207-x" None; placeholder_candidate]
                (mkState [primary_x] 0 false 0 None 0)).
  assert (NoDup (ids [primary_x])) as Hnd.
  { apply (bool_decide_unpack _). vm_compute. exact I. }
  specialize (H Hnd). vm_compute in H. discriminate H.
Qed.

(** ** The focus cursor *)

Lemma at_index_nat {A} (a : list A) (n : nat) :
  at_index a (Z.of_nat n) = a !! n.
Proof.
  unfold at_index. destruct (Z.ltb_spec (Z.of_nat n) 0); [lia|].
  by rewrite Nat2Z.id.
Qed.

Lemma getFocused_in_range (st : State) :
  0 ≤ focusedIndex st < Z.of_nat (length (active (loops st))) →
  getFocused st = (st, at_index (active (loops st)) (focusedIndex st)).
Proof.
  intros Hr. unfold getFocused, getLoops.
  destruct (decide (length (active (loops st)) = O)) as [Hz|Hnz]; [lia|].
  replace (Z.min (Z.max (focusedIndex st) 0) _) with (focusedIndex st) by lia.
  by destruct st.
Qed.

(** Inside the range, cycling is a step on the ring of active loops. *)
Lemma cycle_step (d : Direction) (st : State) :
  0 ≤ focusedIndex st < Z.of_nat (length (active (loops st))) →
  let f := focusedIndex st in
  let n := Z.of_nat (length (active (loops st))) in
  let f' := match d with
            | Forward => if decide (f + 1 < n) then f + 1 else 0
            | Backward => if decide (0 < f) then f - 1 else n - 1
            end in
  cycleFocus d st
  = (emitChange (with_focus f' st), at_index (active (loops st)) f').
Proof.
  intros Hr f n f'. unfold cycleFocus, getLoops.
  destruct (decide (length (active (loops st)) = O)) as [Hz|Hnz]; [lia|].
  fold n. fold f.
  assert (Z.rem (f + direction_value d + n) n = f') as ->; [|done].
  rewrite Z.rem_mod_nonneg by (destruct d; simpl; lia).
  subst f'. symmetry. destruct d; simpl; case_decide.
  - apply Z.mod_unique_pos with (q := 1); lia.
  - apply Z.mod_unique_pos with (q := 2); lia.
  - apply Z.mod_unique_pos with (q := 1); lia.
  - apply Z.mod_unique_pos with (q := 0); lia.
Qed.

Lemma cycle_round_trip (st : State) :
  0 ≤ focusedIndex st < Z.of_nat (length (active (loops st))) →
  let back := cycleFocus Backward (cycleFocus Forward st).1 in
  back.2 = (getFocused st).2
  ∧ (getFocused back.1).2 = (getFocused st).2
  ∧ focusedIndex back.1 = focusedIndex st.
Proof.
  intros Hr back. subst back.
  rewrite (cycle_step Forward st Hr). cbn [fst].
  set (n := Z.of_nat (length (active (loops st)))) in *.
  set (f := focusedIndex st) in *.
  set (f1 := if decide (f + 1 < n) then f + 1 else 0).
  assert (0 ≤ f1 < n) as Hr1 by (subst f1; case_decide; lia).
  rewrite cycle_step; [|exact Hr1].
  cbn [fst snd emitChange with_focus loops focusedIndex]. fold n.
  assert ((if decide (0 < f1) then f1 - 1 else n - 1) = f) as ->.
  { subst f1. repeat case_decide; lia. }
  rewrite (getFocused_in_range st) by done. cbn [snd]. fold f.
  split_and!; [done| |done].
  rewrite getFocused_in_range; [done|]. exact Hr.
Qed.

Lemma active_insert_length (ls : list TrackedLoop) (i : nat) (x : TrackedLoop) :
  removed x = false →
  (length (active ls) ≤ length (active (<[i := x]> ls)))%nat.
Proof.
  intros Hx. unfold active. revert i.
  induction ls as [|l ls IH]; intros i; [done|].
  destruct i as [|i]; simpl.
  - rewrite Hx. simpl. destruct (removed l); simpl; lia.
  - specialize (IH i). destruct (removed l); simpl; lia.
Qed.

Lemma active_snoc_length (ls : list TrackedLoop) (x : TrackedLoop) :
  removed x = false →
  length (active (ls ++ [x])) = S (length (active ls)).
Proof.
  intros Hx. unfold active. rewrite List.filter_app, length_app. simpl.
  rewrite Hx. simpl. lia.
Qed.

Lemma findIndex_lt {A} (p : A → bool) (a : list A) (i : nat) :
  findIndex p a = Some i → (i < length a)%nat.
Proof.
  intros H. apply findIndex_Some in H as (x & Hx & _).
  by apply lookup_lt_Some in Hx.
Qed.

Lemma poll_each_quiet host parsedAt outcome dirs acc st :
  (poll_each host parsedAt (quiet outcome) dirs acc st).2 = st.
Proof.
  revert acc. induction dirs as [|d dirs IH]; intros acc; [done|].
  cbn [poll_each]. unfold quiet at 1 2 3. cbn [fst snd].
  destruct (outcome d) as [code out|message]; [|done].
  destruct (decide (code = 0)); apply IH.
Qed.

Lemma mergePolled_invariant now polled st :
  NoDup (ids (loops st)) → 0 ≤ focusedIndex st →
  NoDup (ids (loops (mergePolled now polled st)))
  ∧ focus_in_range (mergePolled now polled st).
Proof.
  intros Hnd Hf. unfold focus_in_range.
  rewrite focusedIndex_mergePolled, loops_mergePolled. cbv zeta.
  split; [by apply merged_loops_NoDup|].
  case_decide as Hn; [rewrite Hn; simpl; lia | lia].
Qed.

(** Every state the manager goes through holds each identity once and has
    its cursor in range. *)
Lemma reachable_invariant (st : State) :
  reachable st → NoDup (ids (loops st)) ∧ focus_in_range st.
Proof.
  unfold focus_in_range.
  induction 1 as [|st _ [Hnd Hf]|d st _ [Hnd Hf]|now loop st _ [Hnd Hf]
                 |target st _ [Hnd Hf]|now polled st _ [Hnd Hf]
                 |host parsedAt now outcome st _ [Hnd Hf]].
  - split; [constructor | simpl; lia].
  - unfold getFocused, getLoops. case_decide; [done|]. cbn [fst snd with_focus with_loops emitChange loops focusedIndex]. split; [done|]. lia.
  - unfold cycleFocus, getLoops. case_decide as Hn.
    + cbn [fst snd with_focus with_loops emitChange loops focusedIndex]. split; [done|]. lia.
    + cbn [fst snd with_focus with_loops emitChange loops focusedIndex]. split; [done|].
      pose proof (Z.rem_bound_pos
                    (focusedIndex st + direction_value d
                     + Z.of_nat (length (active (loops st))))
                    (Z.of_nat (length (active (loops st))))) as Hb.
      destruct d; simpl in *; lia.
  - unfold upsertToolLoop.
    destruct (findIndex _ (loops st)) as [i|] eqn:Hfind.
    + destruct (findIndex_Some _ _ _ Hfind) as (x & Hx & Hpx & _).
      apply bool_decide_eq_true in Hpx. rewrite Hx. cbn [fst snd with_focus with_loops emitChange loops focusedIndex]. split.
      * unfold ids in *. rewrite list_fmap_insert.
        change (id (upsert_overwrite now x (tool_record now loop) loop))
          with (tl_id loop).
        rewrite list_insert_id; [done|].
        by rewrite list_lookup_fmap, Hx, <- Hpx.
      * pose proof (active_insert_length (loops st) i
                      (upsert_overwrite now x (tool_record now loop) loop)
                      eq_refl). lia.
    + assert (tl_id loop ∉ ids (loops st)) as Hfresh.
      { intros Hin. apply list_elem_of_fmap in Hin as (y & Hy & Hyin).
        pose proof (findIndex_None _ _ Hfind y Hyin) as Hfalse.
        apply bool_decide_eq_false in Hfalse. congruence. }
      pose proof (active_snoc_length (loops st) (tool_record now loop) eq_refl)
        as Hlen.
      unfold getLoops. cbn [loops with_loops].
      case_decide as Hone; cbn [fst snd with_focus with_loops emitChange loops focusedIndex]; (split; [|lia]);
        unfold ids in *; rewrite fmap_app; cbn [fst snd with_focus with_loops emitChange loops focusedIndex];
        (apply NoDup_app; split_and!; [done| |apply NoDup_singleton]);
        intros k Hk Hk'; apply list_elem_of_singleton in Hk'; by subst.
  - unfold setFocusById, getLoops.
    destruct (findIndex _ (active (loops st))) as [i|] eqn:Hfind; [|done].
    apply findIndex_lt in Hfind. cbn [fst snd with_focus with_loops emitChange loops focusedIndex]. split; [done|]. lia.
  - apply mergePolled_invariant; [done | lia].
  - unfold poll. destruct (pollInFlight st); [done|]. cbn [fst snd].
    pose proof (poll_each_quiet host parsedAt outcome
                  (poll_dirs host (with_inFlight true st)) ([], false)
                  (with_inFlight true st)) as Hst.
    destruct (poll_each _ _ _ _ _ _) as [[[parsed any]|message] st1];
      cbn [fst snd] in *; subst st1.
    + destruct (negb any); cbn [fst]; [done|].
      destruct (mergePolled_invariant now (values (start_map parsed))
                  (with_inFlight true st)) as [H1 H2];
        [done | cbn [with_inFlight focusedIndex]; lia |].
      done.
    + done.
Qed.

(** C8. With no active loop, cycling in either direction returns none,
    resets the cursor to 0 and changes no loop. In every state the manager
    goes through that has an active loop, whatever their number and
    whatever the cursor, cycling forward and then backward returns the
    record that was focused at the start, leaves it focused and restores
    the cursor. (The cursor is a private field; the same holds in every
    state whose cursor is inside the range of the active loops, which is
    where each operation of the manager leaves it.) *)
Theorem cycle_empty_and_round_trip (st : State) :
  (active (loops st) = [] →
   ∀ d, (cycleFocus d st).2 = None
        ∧ focusedIndex (cycleFocus d st).1 = 0
        ∧ loops (cycleFocus d st).1 = loops st)
  ∧ (reachable st → (1 ≤ length (active (loops st)))%nat →
     let back := cycleFocus Backward (cycleFocus Forward st).1 in
     back.2 = (getFocused st).2
     ∧ (getFocused back.1).2 = (getFocused st).2
     ∧ focusedIndex back.1 = focusedIndex st)
  ∧ (0 ≤ focusedIndex st < Z.of_nat (length (active (loops st))) →
     let back := cycleFocus Backward (cycleFocus Forward st).1 in
     back.2 = (getFocused st).2
     ∧ (getFocused back.1).2 = (getFocused st).2
     ∧ focusedIndex back.1 = focusedIndex st).
Proof.
  split_and!.
  - intros Hempty d. unfold cycleFocus, getLoops. rewrite Hempty. done.
  - intros Hreach Hne. apply cycle_round_trip.
    destruct (reachable_invariant st Hreach) as [_ Hf].
    unfold focus_in_range in Hf. lia.
  - apply cycle_round_trip.
Qed.

Lemma cycle_empty_and_round_trip_witness :
  (active (loops init) = []
   ∧ (cycleFocus Forward init).2 = None)
  ∧ (reachable two_started
     ∧ (1 ≤ length (active (loops two_started)))%nat
     ∧ (cycleFocus Backward (cycleFocus Forward two_started).1).2
       = (getFocused two_started).2
     ∧ (getFocused two_started).2 = Some (tool_record 11 tool_a))
  ∧ (0 ≤ focusedIndex manager < Z.of_nat (length (active (loops manager)))
     ∧ (cycleFocus Backward (cycleFocus Forward manager).1).2
       = Some primary_x).
Proof.
  assert (0 ≤ focusedIndex manager
          < Z.of_nat (length (active (loops manager)))) as Hr
    by (vm_compute; split; congruence).
  assert (reachable two_started) as Hreach
    by (apply reach_upsertToolLoop, reach_upsertToolLoop, reach_init).
  assert (1 ≤ length (active (loops two_started)))%nat as Hne
    by (vm_compute; lia).
  destruct (cycle_empty_and_round_trip init) as (Hempty & _ & _).
  destruct (Hempty eq_refl Forward) as (Hnone & _ & _).
  destruct (cycle_empty_and_round_trip two_started) as (_ & Hround & _).
  destruct (Hround Hreach Hne) as (Hback & _ & _).
  destruct (cycle_empty_and_round_trip manager) as (_ & _ & Hrange).
  destruct (Hrange Hr) as (Hback' & _ & _).
  split; [split; [reflexivity | exact Hnone]|].
  split.
  - split; [exact Hreach|]. split; [exact Hne|].
    split; [exact Hback | reflexivity].
  - split; [exact Hr|]. rewrite Hback'. reflexivity.
Defined.

(** * Further properties *)

(** ** The focus of the manager *)

Lemma active_elem (ls : list TrackedLoop) (l : TrackedLoop) :
  l ∈ active ls ↔ l ∈ ls ∧ removed l = false.
Proof.
  unfold active. rewrite !list_elem_of_In, List.filter_In.
  by rewrite negb_true_iff.
Qed.

Lemma active_app (l1 l2 : list TrackedLoop) :
  active (l1 ++ l2) = active l1 ++ active l2.
Proof. unfold active. apply List.filter_app. Qed.

Lemma active_snoc (ls : list TrackedLoop) (x : TrackedLoop) :
  removed x = false → active (ls ++ [x]) = active ls ++ [x].
Proof. intros Hx. rewrite active_app. unfold active. simpl. by rewrite Hx. Qed.

Lemma getFocused_keeps (st : State) :
  loops (getFocused st).1 = loops st
  ∧ notifications (getFocused st).1 = notifications st.
Proof. unfold getFocused. by case_decide. Qed.

Lemma getFocused_Some (st : State) :
  active (loops st) ≠ [] → is_Some (getFocused st).2.
Proof.
  intros Hne. unfold getFocused, getLoops.
  destruct (decide (length (active (loops st)) = O)) as [Hz|Hnz].
  { by apply length_zero_iff_nil in Hz. }
  cbn [snd]. unfold at_index.
  destruct (Z.ltb_spec (Z.min (Z.max (focusedIndex st) 0)
              (Z.of_nat (length (active (loops st))) - 1)) 0); [lia|].
  apply lookup_lt_is_Some_2. lia.
Qed.

(** X1. [getFocused] returns none exactly when no loop is active. What it
    returns is a loop of the collection that is not marked removed: the
    one at the stored cursor when the cursor is inside the range of the
    active loops, the first one when the cursor is below the range and
    the last one when it is above. The call leaves the cursor inside the
    range, changes no loop, notifies nobody, and a second call returns
    the same loop and changes nothing. *)
Theorem getFocused_clamps (st : State) :
  let act := active (loops st) in
  let after := (getFocused st).1 in
  ((getFocused st).2 = None ↔ act = [])
  ∧ (∀ l, (getFocused st).2 = Some l → l ∈ loops st ∧ removed l = false)
  ∧ (act ≠ [] →
     0 ≤ focusedIndex after < Z.of_nat (length act)
     ∧ (getFocused st).2 = act !! Z.to_nat (focusedIndex after)
     ∧ (0 ≤ focusedIndex st < Z.of_nat (length act) →
        focusedIndex after = focusedIndex st)
     ∧ (focusedIndex st ≤ 0 → (getFocused st).2 = head act)
     ∧ (Z.of_nat (length act) - 1 ≤ focusedIndex st →
        (getFocused st).2 = last act))
  ∧ loops after = loops st
  ∧ notifications after = notifications st
  ∧ getFocused after = (after, (getFocused st).2).
Proof.
  intros act after.
  assert (act ≠ [] →
          0 ≤ focusedIndex after < Z.of_nat (length act)
          ∧ (getFocused st).2 = act !! Z.to_nat (focusedIndex after)
          ∧ focusedIndex after
            = Z.min (Z.max (focusedIndex st) 0) (Z.of_nat (length act) - 1))
    as Hmain.
  { intros Hne. subst after. unfold getFocused, getLoops. fold act.
    destruct (decide (length act = O)) as [Hz|Hnz].
    { by destruct act. }
    cbn [fst snd with_focus focusedIndex].
    split_and!; [lia|lia| |done].
    unfold at_index. destruct (Z.ltb_spec
      (Z.min (Z.max (focusedIndex st) 0) (Z.of_nat (length act) - 1)) 0);
      [lia | done]. }
  split_and!.
  - split.
    + intros Hnone. destruct (decide (act = [])) as [|Hne]; [done|].
      destruct (Hmain Hne) as (Hr & Heq & _). rewrite Heq in Hnone.
      apply lookup_ge_None in Hnone. lia.
    + intros Hnil. unfold getFocused, getLoops. fold act. by rewrite Hnil.
  - intros l Hl. destruct (decide (act = [])) as [Hnil|Hne].
    + unfold getFocused, getLoops in Hl. fold act in Hl. by rewrite Hnil in Hl.
    + destruct (Hmain Hne) as (_ & Heq & _). rewrite Heq in Hl.
      apply list_elem_of_lookup_2 in Hl. by apply active_elem in Hl.
  - intros Hne. destruct (Hmain Hne) as (Hr & Heq & Hidx).
    split_and!; [lia..|done|lia| |].
    + intros Hlow. rewrite Heq, Hidx.
      replace (Z.min _ _) with 0 by lia. by destruct act.
    + intros Hhigh. rewrite Heq, Hidx.
      replace (Z.min _ _) with (Z.of_nat (length act) - 1) by lia.
      rewrite last_lookup. f_equal. lia.
  - apply getFocused_keeps.
  - apply getFocused_keeps.
  - destruct (decide (act = [])) as [Hnil|Hne].
    + subst after. unfold getFocused, getLoops. fold act. rewrite Hnil. simpl.
      fold act. by rewrite Hnil.
    + destruct (Hmain Hne) as (Hr & Heq & Hidx).
      assert (loops after = loops st) as Hl by apply getFocused_keeps.
      rewrite getFocused_in_range; rewrite Hl; fold act; [|done].
      f_equal. rewrite Heq. unfold at_index.
      destruct (Z.ltb_spec (focusedIndex after) 0); [lia | done].
Qed.

Lemma getFocused_clamps_witness :
  (active (loops overshoot) ≠ []
   ∧ Z.of_nat (length (active (loops overshoot))) - 1 ≤ focusedIndex overshoot
   ∧ (getFocused overshoot).2 = last (active (loops overshoot)))
  ∧ (active (loops manager) ≠ []
     ∧ 0 ≤ focusedIndex manager < Z.of_nat (length (active (loops manager)))
     ∧ focusedIndex (getFocused manager).1 = focusedIndex manager)
  ∧ (focusedIndex two_started ≤ 0
     ∧ (getFocused two_started).2 = head (active (loops two_started)))
  ∧ (∀ l, (getFocused manager).2 = Some l →
       l ∈ loops manager ∧ removed l = false).
Proof.
  assert (active (loops overshoot) ≠ []) as Hne by discriminate.
  assert (Z.of_nat (length (active (loops overshoot))) - 1
          ≤ focusedIndex overshoot) as Hhigh by (vm_compute; discriminate).
  assert (active (loops manager) ≠ []) as Hne' by discriminate.
  assert (0 ≤ focusedIndex manager
          < Z.of_nat (length (active (loops manager)))) as Hin
    by (vm_compute; split; [discriminate | reflexivity]).
  assert (active (loops two_started) ≠ []) as Hne'' by discriminate.
  assert (focusedIndex two_started ≤ 0) as Hlow
    by (vm_compute; discriminate).
  destruct (getFocused_clamps overshoot) as (_ & _ & H & _).
  destruct (H Hne) as (_ & _ & _ & _ & Hlast).
  destruct (getFocused_clamps manager) as (_ & Hmem & H' & _).
  destruct (H' Hne') as (_ & _ & Hsame & _ & _).
  destruct (getFocused_clamps two_started) as (_ & _ & H'' & _).
  destruct (H'' Hne'') as (_ & _ & _ & Hhead & _).
  split; [split; [exact Hne | split; [exact Hhigh | exact (Hlast Hhigh)]]|].
  split; [split; [exact Hne' | split; [exact Hin | exact (Hsame Hin)]]|].
  split; [split; [exact Hlow | exact (Hhead Hlow)]|].
  exact Hmem.
Defined.

Lemma cycle_forward_step (st : State) :
  0 ≤ focusedIndex st < Z.of_nat (length (active (loops st))) →
  let n := length (active (loops st)) in
  let i := Z.to_nat (focusedIndex st) in
  cycleFocus Forward st
  = (emitChange (with_focus (Z.of_nat ((i + 1) mod n)) st),
     active (loops st) !! ((i + 1) mod n)%nat).
Proof.
  intros Hr n i. rewrite (cycle_step Forward st Hr). cbv zeta. fold n.
  assert ((if decide (focusedIndex st + 1 < Z.of_nat n)
           then focusedIndex st + 1 else 0) = Z.of_nat ((i + 1) mod n)) as ->.
  { case_decide.
    - rewrite Nat.mod_small by lia. lia.
    - replace (i + 1)%nat with n by lia. rewrite Nat.Div0.mod_same. done. }
  by rewrite at_index_nat.
Qed.

Lemma cycle_many_forward (k : nat) (st : State) :
  0 ≤ focusedIndex st < Z.of_nat (length (active (loops st))) →
  let n := length (active (loops st)) in
  let i := Z.to_nat (focusedIndex st) in
  (cycle_many Forward k st).2
  = (λ j, active (loops st) !! ((i + 1 + j) mod n)%nat) <$> seq 0 k
  ∧ focusedIndex (cycle_many Forward k st).1 = Z.of_nat ((i + k) mod n)
  ∧ loops (cycle_many Forward k st).1 = loops st
  ∧ notifications (cycle_many Forward k st).1 = (notifications st + k)%nat.
Proof.
  revert st. induction k as [|k IH]; intros st Hr n i.
  - simpl. rewrite Nat.add_0_r, Nat.mod_small by lia. split_and!; [done|lia|done|lia].
  - cbn [cycle_many]. rewrite (cycle_forward_step st Hr). fold n i.
    cbn [fst snd].
    set (st' := emitChange (with_focus (Z.of_nat ((i + 1) mod n)) st)).
    assert ((i + 1) mod n < n)%nat as Hlt by (apply Nat.mod_upper_bound; lia).
    destruct (IH st') as (H1 & H2 & H3 & H4).
    { subst st'. simpl. fold n. lia. }
    subst st'. cbn [emitChange with_focus loops focusedIndex notifications] in *.
    fold n in H1, H2. rewrite Nat2Z.id in H1, H2.
    split_and!.
    + rewrite H1. cbn [seq]. csimpl. rewrite Nat.add_0_r. f_equal.
      rewrite <- fmap_S_seq, <- list_fmap_compose. apply list_fmap_ext.
      intros _ j _. simpl. f_equal.
      rewrite <- Nat.add_assoc, Nat.Div0.add_mod_idemp_l. done.
    + rewrite H2. f_equal. rewrite Nat.Div0.add_mod_idemp_l. f_equal. lia.
    + done.
    + lia.
Qed.

Lemma rotation_lookup {A} (a : list A) (i : nat) :
  (i < length a)%nat →
  (λ j, a !! ((i + 1 + j) mod length a)%nat) <$> seq 0 (length a)
  = Some <$> (drop (S i) a ++ take (S i) a).
Proof.
  intros Hi. apply list_eq. intros j.
  rewrite !list_lookup_fmap.
  destruct (decide (j < length a)%nat) as [Hj|Hj].
  - rewrite lookup_seq_lt by done. simpl.
    destruct (decide (i + 1 + j < length a)%nat) as [Hs|Hs].
    + rewrite Nat.mod_small by done.
      rewrite lookup_app_l by (rewrite length_drop; lia).
      rewrite lookup_drop. replace (S i + j)%nat with (i + 1 + j)%nat by lia.
      destruct (lookup_lt_is_Some_2 a (i + 1 + j)%nat Hs) as [x Hx].
      by rewrite Hx.
    + assert ((i + 1 + j) mod length a = i + 1 + j - length a)%nat as ->.
      { symmetry. apply Nat.mod_unique with (q := 1%nat); lia. }
      rewrite lookup_app_r by (rewrite length_drop; lia).
      rewrite length_drop. rewrite lookup_take_lt by lia.
      replace (j - (length a - S i))%nat with (i + 1 + j - length a)%nat by lia.
      assert (i + 1 + j - length a < length a)%nat as Hlt by lia.
      destruct (lookup_lt_is_Some_2 a _ Hlt) as [x Hx]. by rewrite Hx.
  - rewrite lookup_seq_ge by lia. simpl.
    symmetry. apply fmap_None. apply lookup_ge_None.
    rewrite length_app, length_drop, length_take. lia.
Qed.

(** X2. With the cursor inside the range of the active loops, as many
    calls of [cycleFocus] forward as there are active loops return every
    active loop once, in the order of the collection starting behind the
    focused one and wrapping around, and leave the cursor where it was;
    each call notifies once and none changes a loop. *)
Theorem cycle_forward_visits_all (st : State) :
  0 ≤ focusedIndex st < Z.of_nat (length (active (loops st))) →
  let act := active (loops st) in
  let i := Z.to_nat (focusedIndex st) in
  let r := cycle_many Forward (length act) st in
  r.2 = Some <$> (drop (S i) act ++ take (S i) act)
  ∧ focusedIndex r.1 = focusedIndex st
  ∧ loops r.1 = loops st
  ∧ notifications r.1 = (notifications st + length act)%nat.
Proof.
  intros Hr act i r.
  destruct (cycle_many_forward (length act) st Hr) as (H1 & H2 & H3 & H4).
  fold act i in H1, H2. fold r in H1, H2, H3, H4.
  assert (i < length act)%nat as Hi by (subst i act; lia).
  split_and!; [|..|done|done].
  - rewrite H1. by apply rotation_lookup.
  - rewrite H2.
    replace (i + length act)%nat with (i + 1 * length act)%nat by lia.
    rewrite Nat.Div0.mod_add, Nat.mod_small by done. subst i. lia.
Qed.


Lemma cycle_forward_visits_all_witness :
  0 ≤ focusedIndex manager < Z.of_nat (length (active (loops manager)))
  ∧ (cycle_many Forward 2 manager).2 = [Some worktree_loop; Some primary_x]
  ∧ focusedIndex (cycle_many Forward 2 manager).1 = 1.
Proof.
  assert (0 ≤ focusedIndex manager
          < Z.of_nat (length (active (loops manager)))) as Hr
    by (vm_compute; split; [discriminate | reflexivity]).
  split; [exact Hr|].
  destruct (cycle_forward_visits_all manager Hr) as (H1 & H2 & _).
  split; [exact H1 | exact H2].
Defined.

(** X3. When the stored cursor is not negative, the loop that
    [cycleFocus] returns is the loop that [getFocused] reports
    afterwards, and that call moves nothing; [cycleFocus] returns none
    exactly when no loop is active, and it notifies once either way. *)
Theorem cycle_then_getFocused (d : Direction) (st : State) :
  0 ≤ focusedIndex st →
  getFocused (cycleFocus d st).1 = ((cycleFocus d st).1, (cycleFocus d st).2)
  ∧ ((cycleFocus d st).2 = None ↔ active (loops st) = [])
  ∧ notifications (cycleFocus d st).1 = S (notifications st).
Proof.
  intros Hf. unfold cycleFocus, getLoops.
  destruct (decide (length (active (loops st)) = O)) as [Hz|Hnz].
  - cbn [fst snd]. apply length_zero_iff_nil in Hz.
    split_and!; [|done|done].
    unfold getFocused, getLoops. cbn [emitChange with_focus loops].
    by rewrite Hz.
  - cbn [fst snd].
    set (n := Z.of_nat (length (active (loops st)))).
    set (idx := Z.rem (focusedIndex st + direction_value d + n) n).
    assert (0 ≤ idx < n) as Hidx.
    { subst idx. apply Z.rem_bound_pos; destruct d; simpl; lia. }
    split_and!; [| |done].
    + rewrite getFocused_in_range; [done|].
      cbn [emitChange with_focus loops focusedIndex]. by fold n.
    + split.
      * intros Hnone. unfold at_index in Hnone.
        destruct (Z.ltb_spec idx 0); [lia|].
        apply lookup_ge_None in Hnone. lia.
      * intros Hnil. by rewrite Hnil in Hnz.
Qed.

Lemma cycle_then_getFocused_witness :
  0 ≤ focusedIndex manager
  ∧ getFocused (cycleFocus Forward manager).1
    = ((cycleFocus Forward manager).1, (cycleFocus Forward manager).2).
Proof.
  assert (0 ≤ focusedIndex manager) as Hf by (vm_compute; discriminate).
  split; [exact Hf|].
  exact (proj1 (cycle_then_getFocused Forward manager Hf)).
Defined.

Lemma findIndex_is_Some {A} (p : A → bool) (a : list A) (x : A) :
  x ∈ a → p x = true → is_Some (findIndex p a).
Proof.
  intros Hx Hp. destruct (findIndex p a) eqn:Hf; [eauto|].
  pose proof (findIndex_None p a Hf x Hx). congruence.
Qed.

(** X4. [setFocusById] with an identity that an active loop carries moves
    the cursor to the first active loop with that identity, so that
    [getFocused] then returns it, notifies once and changes no loop. With
    an identity that no active loop carries, also one that only loops
    marked removed carry, it changes nothing and notifies nobody. *)
Theorem setFocusById_focuses (target : string) (st : State) :
  ((∃ l, l ∈ loops st ∧ removed l = false ∧ id l = target) →
   ∃ (i : nat) (l : TrackedLoop),
     active (loops st) !! i = Some l
     ∧ id l = target
     ∧ (∀ j y, (j < i)%nat → active (loops st) !! j = Some y → id y ≠ target)
     ∧ getFocused (setFocusById target st)
       = (setFocusById target st, Some l)
     ∧ focusedIndex (setFocusById target st) = Z.of_nat i
     ∧ loops (setFocusById target st) = loops st
     ∧ notifications (setFocusById target st) = S (notifications st))
  ∧ ((∀ l, l ∈ loops st → id l = target → removed l = true) →
     setFocusById target st = st).
Proof.
  split.
  - intros (l0 & Hin & Hrem & Hid).
    assert (l0 ∈ active (loops st)) as Hact by by apply active_elem.
    destruct (findIndex_is_Some (λ l, bool_decide (id l = target))
                (active (loops st)) l0 Hact) as [i Hi].
    { by apply bool_decide_eq_true. }
    destruct (findIndex_Some _ _ _ Hi) as (l & Hl & Hp & Hmin).
    apply bool_decide_eq_true in Hp.
    exists i, l. unfold setFocusById, getLoops. rewrite Hi.
    cbn [emitChange with_focus loops focusedIndex notifications].
    split_and!; [done..| | |done|done|done].
    + intros j y Hj Hy Hy'. specialize (Hmin j y Hj Hy).
      apply bool_decide_eq_false in Hmin. done.
    + rewrite getFocused_in_range.
      * cbn [emitChange with_focus loops focusedIndex].
        by rewrite at_index_nat, Hl.
      * cbn [emitChange with_focus loops focusedIndex].
        apply lookup_lt_Some in Hl. lia.
  - intros Hnone. unfold setFocusById, getLoops.
    destruct (findIndex _ _) as [i|] eqn:Hi; [|done].
    destruct (findIndex_Some _ _ _ Hi) as (l & Hl & Hp & _).
    apply bool_decide_eq_true in Hp.
    apply list_elem_of_lookup_2, active_elem in Hl as [Hin Hrem].
    rewrite (Hnone l Hin Hp) in Hrem. done.
Qed.

Lemma setFocusById_focuses_witness :
  (∃ l, l ∈ loops manager ∧ removed l = false ∧ id l = "wt-1")
  ∧ (∃ (i : nat) (l : TrackedLoop),
       active (loops manager) !! i = Some l
       ∧ id l = "wt-1"
       ∧ (∀ j y, (j < i)%nat → active (loops manager) !! j = Some y →
                 id y ≠ "wt-1")
       ∧ getFocused (setFocusById "wt-1" manager)
         = (setFocusById "wt-1" manager, Some l)
       ∧ focusedIndex (setFocusById "wt-1" manager) = Z.of_nat i
       ∧ loops (setFocusById "wt-1" manager) = loops manager
       ∧ notifications (setFocusById "wt-1" manager)
         = S (notifications manager))
  ∧ setFocusById "wt-0" manager = manager.
Proof.
  assert (∃ l, l ∈ loops manager ∧ removed l = false ∧ id l = "wt-1")
    as Hsome.
  { exists worktree_loop. split; [left | done]. }
  assert (∀ l, l ∈ loops manager → id l = "wt-0" → removed l = true)
    as Hnone.
  { intros l Hl Hid. exfalso.
    apply elem_of_cons in Hl as [->|Hl]; [done|].
    apply list_elem_of_singleton in Hl as ->. done. }
  split; [exact Hsome|].
  split; [exact (proj1 (setFocusById_focuses "wt-1" manager) Hsome)|].
  exact (proj2 (setFocusById_focuses "wt-0" manager) Hnone).
Defined.

Lemma findIndex_fresh (target : string) (ls : list TrackedLoop) :
  target ∉ ids ls →
  findIndex (λ l, bool_decide (id l = target)) ls = None.
Proof.
  intros Hfresh. destruct (findIndex _ ls) as [i|] eqn:Hi; [|done].
  destruct (findIndex_Some _ _ _ Hi) as (l & Hl & Hp & _).
  apply bool_decide_eq_true in Hp. exfalso. apply Hfresh.
  apply list_elem_of_fmap. exists l. split; [done|].
  by apply list_elem_of_lookup_2 in Hl.
Qed.

Lemma upsert_fresh (now : Z) (loop : ToolLoop) (st : State) :
  tl_id loop ∉ ids (loops st) →
  upsertToolLoop now loop st
  = emitChange
      (with_focus (if decide (active (loops st) = []) then 0
                   else focusedIndex st)
                  (with_loops (loops st ++ [tool_record now loop]) st)).
Proof.
  intros Hfresh. unfold upsertToolLoop.
  rewrite (findIndex_fresh _ _ Hfresh). unfold getLoops.
  cbn [with_loops loops].
  rewrite (active_snoc (loops st) (tool_record now loop) eq_refl).
  rewrite length_app. cbn [length].
  destruct (active (loops st)) as [|a act].
  - rewrite !decide_True by done. done.
  - rewrite !decide_False by (simpl; done || lia). done.
Qed.

(** X5. Upserting an identity that the collection does not hold, in a
    manager whose cursor is in range, appends the record built from the
    start parameters behind all others and changes none of them; the
    focused loop stays the focused loop, and the new loop is focused only
    when no loop was active; the call notifies once. *)
Theorem upsert_new_appends (now : Z) (loop : ToolLoop) (st : State) :
  tl_id loop ∉ ids (loops st) →
  focus_in_range st →
  let st' := upsertToolLoop now loop st in
  loops st' = loops st ++ [tool_record now loop]
  ∧ getLoops false st' = getLoops false st ++ [tool_record now loop]
  ∧ (getFocused st').2
    = match (getFocused st).2 with
      | Some l => Some l
      | None => Some (tool_record now loop)
      end
  ∧ notifications st' = S (notifications st).
Proof.
  intros Hfresh Hf st'. subst st'. rewrite (upsert_fresh now loop st Hfresh).
  unfold focus_in_range in Hf.
  pose proof (active_snoc (loops st) (tool_record now loop) eq_refl) as Hact.
  unfold getLoops. cbn [emitChange with_focus with_loops loops notifications].
  rewrite Hact.
  split_and!; [done|done| |done].
  destruct (active (loops st)) as [|a act] eqn:Hold.
  - rewrite decide_True by done. unfold getFocused, getLoops.
    cbn [emitChange with_focus with_loops loops focusedIndex].
    by rewrite Hact, Hold.
  - rewrite decide_False by done. simpl in Hf.
    rewrite !getFocused_in_range.
    + cbn [snd emitChange with_focus with_loops loops focusedIndex].
      rewrite Hact, Hold. unfold at_index.
      destruct (Z.ltb_spec (focusedIndex st) 0); [lia|].
      assert (Z.to_nat (focusedIndex st) < length (a :: act))%nat as Hlt
        by (simpl; lia).
      rewrite lookup_app_l by done.
      destruct (lookup_lt_is_Some_2 _ _ Hlt) as [x Hx]. by rewrite Hx.
    + cbn [emitChange with_focus with_loops loops focusedIndex].
      rewrite ?Hact, ?Hold, ?length_app. simpl. lia.
    + cbn [emitChange with_focus with_loops loops focusedIndex].
      rewrite ?Hact, ?Hold, ?length_app. simpl. lia.
Qed.

Lemma upsert_new_appends_witness :
  (tl_id tool_w ∉ ids (loops manager))
  ∧ focus_in_range manager
  ∧ loops (upsertToolLoop 13 tool_w manager)
    = loops manager ++ [tool_record 13 tool_w]
  ∧ (getFocused (upsertToolLoop 13 tool_w manager)).2 = Some primary_x.
Proof.
  assert (tl_id tool_w ∉ ids (loops manager)) as Hfresh.
  { intros Hin. apply elem_of_cons in Hin as [Hin|Hin]; [done|].
    apply list_elem_of_singleton in Hin. done. }
  assert (focus_in_range manager) as Hf
    by (vm_compute; split; discriminate).
  split; [exact Hfresh|]. split; [exact Hf|].
  destruct (upsert_new_appends 13 tool_w manager Hfresh Hf)
    as (H1 & _ & H3 & _).
  split; [exact H1 | exact H3].
Defined.

Lemma findIndex_filter {A} (p q : A → bool) (l : list A) (i : nat) (x : A) :
  l !! i = Some x → p x = true → q x = true →
  (∀ j y, (j < i)%nat → l !! j = Some y → p y = false) →
  ∃ k, findIndex p (List.filter q l) = Some k
       ∧ List.filter q l !! k = Some x.
Proof.
  revert i. induction l as [|a l IH]; intros i Hi Hp Hq Hmin; [done|].
  destruct i as [|i]; simpl in Hi.
  - injection Hi as ->. simpl. rewrite Hq. simpl. rewrite Hp. by exists O.
  - destruct (IH i Hi Hp Hq) as (k & Hk & Hx).
    { intros j y Hj Hy. apply (Hmin (S j) y); [lia | done]. }
    pose proof (Hmin O a ltac:(lia) eq_refl) as Hpa.
    simpl. destruct (q a).
    + simpl. rewrite Hpa, Hk. by exists (S k).
    + by exists k.
Qed.

Lemma upsert_places (now : Z) (loop : ToolLoop) (st : State) :
  ∃ i, loops (upsertToolLoop now loop st) !! i = Some (tool_record now loop)
       ∧ ∀ j y, (j < i)%nat →
                loops (upsertToolLoop now loop st) !! j = Some y →
                id y ≠ tl_id loop.
Proof.
  unfold upsertToolLoop.
  destruct (findIndex _ (loops st)) as [i|] eqn:Hfind.
  - destruct (findIndex_Some _ _ _ Hfind) as (x & Hx & Hpx & Hmin).
    rewrite Hx. cbn [emitChange with_loops loops]. exists i. split.
    + rewrite list_lookup_insert_eq; [done|]. by apply lookup_lt_Some in Hx.
    + intros j y Hj Hy. rewrite list_lookup_insert_ne in Hy by lia.
      specialize (Hmin j y Hj Hy). by apply bool_decide_eq_false in Hmin.
  - exists (length (loops st)).
    assert (∀ s : State, loops (emitChange s) = loops s) as Hl by done.
    rewrite Hl.
    assert (loops (if decide (length (getLoops false
                (with_loops (loops st ++ [tool_record now loop]) st)) = 1%nat)
              then with_focus 0
                     (with_loops (loops st ++ [tool_record now loop]) st)
              else with_loops (loops st ++ [tool_record now loop]) st)
            = loops st ++ [tool_record now loop]) as ->
      by by case_decide.
    split.
    + rewrite lookup_app_r by lia. by rewrite Nat.sub_diag.
    + intros j y Hj Hy. rewrite lookup_app_l in Hy by done.
      apply list_elem_of_lookup_2 in Hy.
      pose proof (findIndex_None _ _ Hfind y Hy) as Hp.
      by apply bool_decide_eq_false in Hp.
Qed.

(** X6. In every state of the manager, upserting a loop and then focusing
    its identity makes [getFocused] return the record built from the
    start parameters, which is then among the active loops; the two calls
    notify once each. *)
Theorem upsert_then_focus (now : Z) (loop : ToolLoop) (st : State) :
  let st' := setFocusById (tl_id loop) (upsertToolLoop now loop st) in
  (getFocused st').2 = Some (tool_record now loop)
  ∧ tool_record now loop ∈ getLoops false st'
  ∧ notifications st' = S (S (notifications st)).
Proof.
  intros st'. destruct (upsert_places now loop st) as (i & Hi & Hmin).
  destruct (findIndex_filter (λ l, bool_decide (id l = tl_id loop))
              (λ l, negb (removed l))
              (loops (upsertToolLoop now loop st)) i
              (tool_record now loop) Hi) as (k & Hk & Hx).
  { by apply bool_decide_eq_true. }
  { done. }
  { intros j y Hj Hy. apply bool_decide_eq_false. by apply (Hmin j). }
  fold (active (loops (upsertToolLoop now loop st))) in Hk, Hx.
  assert (st' = emitChange (with_focus (Z.of_nat k)
                              (upsertToolLoop now loop st))) as ->.
  { subst st'. unfold setFocusById, getLoops. by rewrite Hk. }
  split_and!.
  - rewrite getFocused_in_range.
    + cbn [snd emitChange with_focus loops focusedIndex].
      by rewrite at_index_nat.
    + cbn [emitChange with_focus loops focusedIndex].
      apply lookup_lt_Some in Hx. lia.
  - unfold getLoops. cbn [emitChange with_focus loops].
    by apply list_elem_of_lookup_2 in Hx.
  - cbn [emitChange with_focus notifications].
    f_equal. unfold upsertToolLoop.
    destruct (findIndex _ (loops st)) as [j|] eqn:Hfind.
    + destruct (findIndex_Some _ _ _ Hfind) as (x & Hx' & _). by rewrite Hx'.
    + cbn [emitChange notifications]. by case_decide.
Qed.

(** ** More on the merge *)

(** ** What a merge does to the records *)

Lemma merge_loop_unnamed now polled ls r0 :
  NoDup (ids ls) → r0 ∈ ls → source r0 = Discovered →
  id r0 ∉ ids polled →
  get (id r0) (merge_loop now polled (start_map ls, ∅)).1 = Some r0.
Proof.
  intros Hnd Hr0 Hsrc Hout.
  cut (well_formed (merge_loop now polled (start_map ls, ∅)).1
       ∧ get (id r0) (merge_loop now polled (start_map ls, ∅)).1 = Some r0).
  { by intros [_ ?]. }
  apply (merge_loop_ind now polled (start_map ls, ∅)
           (λ _ a, well_formed a.1 ∧ get (id r0) a.1 = Some r0)).
  - split; [apply start_map_well_formed|].
    apply elem_get; [apply start_map_well_formed|].
    rewrite start_map_NoDup by done. apply list_elem_of_fmap. by exists r0.
  - intros pre next post a Heq _ [Hwf Hget].
    destruct (merge_step_case now a next) as [Hcase _].
    split; [by eapply step_case_well_formed|].
    assert (id next ≠ id r0) as Hne.
    { intros Hid. apply Hout. rewrite Heq. unfold ids.
      rewrite fmap_app, elem_of_app. right. csimpl. rewrite Hid. left. }
    destruct Hcase as [existing Hex _|e el Hnone Hid _ Hin Htool Hpre _
                      |Hnone _]; rewrite get_set_ne by done; [done| |done].
    rewrite get_delete_ne; [done|]. intros ->.
    apply (elem_get _ _ _ (proj1 Hwf)) in Hin. congruence.
Qed.

(** X7. A merge marks as removed every discovered loop of the collection
    whose identity the candidates leave out: in a collection that holds
    each identity once, the record under that identity is afterwards the
    old record with the mark set and nothing else changed, and it is no
    longer among the active loops. *)
Theorem merge_marks_missing_discovered
    (now : Z) (polled : list TrackedLoop) (st : State) (r0 : TrackedLoop) :
  NoDup (ids (loops st)) → r0 ∈ loops st → source r0 = Discovered →
  id r0 ∉ ids polled →
  let st' := mergePolled now polled st in
  mark r0 ∈ loops st'
  ∧ (∀ r, r ∈ loops st' → id r = id r0 → r = mark r0)
  ∧ mark r0 ∉ getLoops false st'.
Proof.
  intros Hnd Hr0 Hsrc Hout st'. subst st'. unfold getLoops.
  rewrite loops_mergePolled. set (ls := loops st) in *.
  pose proof (merge_loop_unnamed now polled ls r0 Hnd Hr0 Hsrc Hout) as Hget.
  pose proof (get_final_map now polled ls _ _ Hget) as Hin.
  assert (marked (merge_loop now polled (start_map ls, ∅)).2 r0 = mark r0)
    as Hm.
  { unfold marked. rewrite merge_loop_seen_all.
    rewrite (bool_decide_eq_true_2 (id r0 ∉ _)).
    2:{ intros H. by apply elem_of_list_to_set in H. }
    rewrite (bool_decide_eq_true_2 (source r0 ≠ Tool)) by congruence.
    done. }
  rewrite Hm in Hin.
  split_and!; [done| |].
  - intros r Hr Hid.
    apply (NoDup_ids_inj (merged_loops now polled ls)); try done.
    by apply merged_loops_NoDup.
  - intros Hact. by apply active_elem in Hact as [_ ?].
Qed.

Lemma merge_marks_missing_discovered_witness :
  NoDup (ids (loops manager))
  ∧ worktree_loop ∈ loops manager
  ∧ (id worktree_loop ∉ ids one_more)
  ∧ mark worktree_loop ∈ loops (mergePolled 20 one_more manager)
  ∧ mark worktree_loop ∉ getLoops false (mergePolled 20 one_more manager).
Proof.
  assert (NoDup (ids (loops manager))) as Hnd.
  { apply NoDup_cons. split.
    - intros Hin. apply list_elem_of_singleton in Hin. done.
    - apply NoDup_singleton. }
  assert (worktree_loop ∈ loops manager) as Hin by left.
  assert (id worktree_loop ∉ ids one_more) as Hout.
  { intros H. apply list_elem_of_singleton in H. done. }
  split; [exact Hnd|]. split; [exact Hin|]. split; [exact Hout|].
  destruct (merge_marks_missing_discovered 20 one_more manager worktree_loop
              Hnd Hin eq_refl Hout) as (H1 & _ & H3).
  split; [exact H1 | exact H3].
Defined.

Lemma candidates_for_last_snoc k pre next :
  id next = k → last (candidates_for k (pre ++ [next])) = Some next.
Proof.
  intros Hid. rewrite candidates_for_snoc, decide_True by done.
  apply last_snoc.
Qed.

Lemma candidates_for_snoc_ne k pre next :
  id next ≠ k → candidates_for k (pre ++ [next]) = candidates_for k pre.
Proof.
  intros Hid. rewrite candidates_for_snoc, decide_False by done.
  apply app_nil_r.
Qed.

Lemma merge_loop_reported now polled ls k :
  k ∈ ids polled → startsWith k "primary-" = false →
  ∃ v c, get k (merge_loop now polled (start_map ls, ∅)).1 = Some v
         ∧ last (candidates_for k polled) = Some c
         ∧ reports v c ∧ removed v = false ∧ lastSeenAt v = now.
Proof.
  intros Hk Hpre. revert Hk.
  cut (well_formed (merge_loop now polled (start_map ls, ∅)).1
       ∧ (k ∈ ids polled →
          ∃ v c, get k (merge_loop now polled (start_map ls, ∅)).1 = Some v
                 ∧ last (candidates_for k polled) = Some c
                 ∧ reports v c ∧ removed v = false ∧ lastSeenAt v = now)).
  { by intros [_ ?]. }
  apply (merge_loop_ind now polled (start_map ls, ∅)
           (λ pre a, well_formed a.1 ∧ (k ∈ ids pre →
              ∃ v c, get k a.1 = Some v
                     ∧ last (candidates_for k pre) = Some c
                     ∧ reports v c ∧ removed v = false ∧ lastSeenAt v = now))).
  - split; [apply start_map_well_formed|]. intros H. inversion H.
  - intros pre next post a _ _ [Hwf IH].
    destruct (merge_step_case now a next) as [Hcase _].
    split; [by eapply step_case_well_formed|].
    intros Hin. rewrite ids_snoc, elem_of_app, list_elem_of_singleton in Hin.
    destruct (decide (id next = k)) as [Hid|Hne].
    + rewrite candidates_for_last_snoc by done. subst k.
      destruct Hcase; rewrite get_set_eq; eexists _, next;
        unfold reports; split_and!; done.
    + destruct Hin as [Hin|Hin]; [|congruence].
      destruct (IH Hin) as (v & c & Hget & Hlast & Hrep).
      rewrite candidates_for_snoc_ne by done.
      exists v, c. split; [|split; [done | exact Hrep]].
      destruct Hcase as [existing Hex _|e el Hnone Hid _ Hel Htool Hp _
                        |Hnone _]; rewrite get_set_ne by done; [done| |done].
      rewrite get_delete_ne; [done|]. intros ->. congruence.
Qed.

(** X8. After a merge, every candidate whose identity does not have the
    form primary-... is found among the active loops under its identity:
    the record there is not marked removed, carries the time of the
    merge, and shows the process, status, iteration counts, hat, elapsed
    time and backend of the last candidate with that identity. A loop
    that was marked removed and is named again is thereby active
    again. *)
Theorem merge_shows_latest_report
    (now : Z) (polled : list TrackedLoop) (st : State) (c : TrackedLoop) :
  c ∈ polled → startsWith (id c) "primary-" = false →
  ∃ r c',
    r ∈ getLoops false (mergePolled now polled st)
    ∧ last (candidates_for (id c) polled) = Some c'
    ∧ reports r c'
    ∧ removed r = false
    ∧ lastSeenAt r = now.
Proof.
  intros Hc Hpre. unfold getLoops. rewrite loops_mergePolled.
  set (ls := loops st).
  assert (id c ∈ ids polled) as Hin by (apply list_elem_of_fmap; by exists c).
  destruct (merge_loop_reported now polled ls (id c) Hin Hpre)
    as (v & c' & Hget & Hlast & Hrep & Hrem & Hseen).
  pose proof (get_final_map now polled ls _ _ Hget) as Hv.
  pose proof (merge_loop_well_formed now polled (start_map ls, ∅)
                (start_map_well_formed ls)) as [_ Hk].
  rewrite marked_seen in Hv.
  2:{ rewrite merge_loop_seen_all. apply elem_of_list_to_set.
      rewrite (Hk _ _ (get_Some_elem _ _ _ Hget)). done. }
  exists v, c'. split; [by apply active_elem|].
  split; [done|]. split; [exact Hrep|]. done.
Qed.

Lemma merge_shows_latest_report_witness :
  candidate "wt-1" None ∈ three_candidates
  ∧ startsWith "wt-1" "primary-" = false
  ∧ ∃ r c',
      r ∈ getLoops false (mergePolled 20 three_candidates manager)
      ∧ last (candidates_for "wt-1" three_candidates) = Some c'
      ∧ reports r c'
      ∧ removed r = false
      ∧ lastSeenAt r = 20.
Proof.
  assert (candidate "wt-1" None ∈ three_candidates) as Hin
    by (right; left).
  split; [exact Hin|]. split; [reflexivity|].
  exact (merge_shows_latest_report 20 three_candidates manager
           (candidate "wt-1" None) Hin eq_refl).
Defined.

Lemma ordered_ids_same (m : Map TrackedLoop) :
  NoDup (keys m) → ordered_ids (keys m) m = keys m.
Proof.
  intros Hnd. rewrite ordered_ids_spec by done.
  rewrite (elem_of_nil_inv (filter (λ i, i ∉ keys m) (keys m))).
  2:{ intros i Hi. by apply list_elem_of_filter in Hi as [? ?]. }
  rewrite app_nil_r. apply list_filter_True_on.
Qed.

Lemma active_unlisted (ls : list TrackedLoop) :
  active (unlisted <$> ls)
  = List.filter (λ l, bool_decide (source l = Tool)) (active ls).
Proof.
  unfold active. induction ls as [|l ls IH]; [done|]. csimpl.
  destruct (decide (source l = Tool)) as [Ht|Ht].
  - assert (unlisted l = l) as ->
      by (unfold unlisted; by rewrite decide_True).
    destruct (removed l); simpl; [done|].
    rewrite (bool_decide_eq_true_2 (source l = Tool)) by done. by rewrite IH.
  - assert (unlisted l = mark l) as ->
      by (unfold unlisted; by rewrite decide_False).
    simpl. destruct (removed l); simpl; [done|].
    by rewrite (bool_decide_eq_false_2 (source l = Tool)) by done.
Qed.

(** X9. A merge of an empty poll result, into a collection that holds
    each identity once, keeps every record in its place: the tool-started
    ones exactly as they were, the others with the removal mark set. The
    active loops are afterwards the tool-started loops that were
    active. *)
Theorem merge_of_empty_result (now : Z) (st : State) :
  NoDup (ids (loops st)) →
  loops (mergePolled now [] st) = unlisted <$> loops st
  ∧ getLoops false (mergePolled now [] st)
    = List.filter (λ l, bool_decide (source l = Tool)) (getLoops false st).
Proof.
  intros Hnd. unfold getLoops. rewrite loops_mergePolled.
  set (ls := loops st) in *.
  assert (merged_loops now [] ls = unlisted <$> ls) as Heq.
  { unfold merged_loops, merge_loop. cbn [fold_left fst snd].
    rewrite (start_map_NoDup ls Hnd).
    set (m := mark_missing _ _).
    assert (m = (λ l, (id l, unlisted l)) <$> ls) as ->.
    { subst m. unfold mark_missing. rewrite <- list_fmap_compose.
      apply list_fmap_ext. intros _ l _. cbn [compose fst snd]. f_equal.
      unfold unlisted.
      rewrite (bool_decide_eq_true_2 (id l ∉ ∅)) by set_solver.
      cbn [andb]. destruct (decide (source l = Tool)) as [Ht|Ht].
      - by rewrite bool_decide_eq_false_2 by (intros H; by apply H).
      - by rewrite bool_decide_eq_true_2 by done. }
    set (m := (λ l, (id l, unlisted l)) <$> ls).
    assert (keys m = id <$> ls) as Hk.
    { subst m. unfold keys. rewrite <- list_fmap_compose. done. }
    rewrite <- Hk. rewrite ordered_ids_same by (rewrite Hk; exact Hnd).
    rewrite omap_get_keys by (rewrite Hk; exact Hnd).
    subst m. by rewrite <- list_fmap_compose. }
  split; [done|]. rewrite Heq. apply active_unlisted.
Qed.

Lemma merge_of_empty_result_witness :
  NoDup (ids (loops manager))
  ∧ loops (mergePolled 20 [] manager) = [mark worktree_loop; primary_x]
  ∧ getLoops false (mergePolled 20 [] manager) = [primary_x].
Proof.
  assert (NoDup (ids (loops manager))) as Hnd.
  { apply NoDup_cons. split.
    - intros Hin. apply list_elem_of_singleton in Hin. done.
    - apply NoDup_singleton. }
  split; [exact Hnd|].
  destruct (merge_of_empty_result 20 manager Hnd) as [H1 H2].
  split; [exact H1 | exact H2].
Defined.

Lemma merge_loop_keeps_keys now polled :
  ∀ acc k,
    well_formed acc.1 → k ∈ keys acc.1 →
    k ∉ rekey_trace now polled acc →
    k ∈ keys (merge_loop now polled acc).1.
Proof.
  induction polled as [|next rest IH]; intros acc k Hwf Hk Htrace; [done|].
  rewrite merge_loop_cons. cbn [rekey_trace] in Htrace.
  apply not_elem_of_app in Htrace as [Hhere Hrest].
  destruct (merge_step_case now acc next) as [Hcase _].
  apply IH; [by eapply step_case_well_formed| |done].
  apply get_is_Some. apply get_is_Some in Hk.
  destruct Hcase as [existing Hex _|e el Hnone Hid Hre _ _ _ _|Hnone _];
    rewrite get_set; case_decide; try done.
  rewrite Hre in Hhere. apply not_elem_of_cons in Hhere as [Hne _].
  by rewrite get_delete_ne.
Qed.

(** Records that agree in identity and in the removal mark, position by
    position, have the same active identities. *)
Lemma active_ids_agree (l1 l2 : list TrackedLoop) :
  Forall2 (λ a b, id a = id b ∧ removed a = removed b) l1 l2 →
  ids (active l1) = ids (active l2).
Proof.
  unfold ids, active. induction 1 as [|a b l1 l2 [Hid Hrem] _ IH]; [done|].
  cbn [List.filter]. rewrite Hrem. destruct (removed b); cbn [negb]; [done|].
  by rewrite !fmap_cons, Hid, IH.
Qed.

(** X10. A poll result that changes no membership leaves the focus where
    it is. In a state the manager reaches that has an active loop, let
    the merge re-key nothing, name no loop that is marked removed and
    leave out no discovered loop that is active. Then the cursor is
    unchanged, the identities of the loops that were active are those of
    the first active loops afterwards, in the same order, and
    [getFocused] returns a record with the identity it returned
    before. *)
Theorem focus_survives_stable_poll
    (now : Z) (polled : list TrackedLoop) (st : State) :
  reachable st →
  active (loops st) ≠ [] →
  rekey_trace now polled (start_map (loops st), ∅) = [] →
  same_membership polled (loops st) →
  let st' := mergePolled now polled st in
  id <$> (getFocused st').2 = id <$> (getFocused st).2
  ∧ focusedIndex st' = focusedIndex st
  ∧ take (length (active (loops st))) (ids (active (loops st')))
    = ids (active (loops st)).
Proof.
  intros Hreach Hne Htrace Hsame st'.
  destruct (reachable_invariant st Hreach) as [Hnd Hf].
  unfold focus_in_range in Hf.
  set (ls := loops st) in *.
  set (merged := merged_loops now polled ls).
  assert (loops st' = merged) as Hloops by apply loops_mergePolled.
  destruct (final_map_well_formed now polled ls) as [HndK HkK].
  (* no key of the old collection is lost *)
  assert (∀ k, k ∈ ids ls → k ∈ keys (final_map now polled ls)) as Hkept.
  { intros k Hk. unfold final_map. rewrite mark_missing_keys.
    apply merge_loop_keeps_keys; [apply start_map_well_formed| |].
    - by apply start_map_keys.
    - rewrite Htrace. intros H. inversion H. }
  assert (∃ appended, ids merged = ids ls ++ appended) as [appended Hids].
  { eexists. subst merged. rewrite merged_loops_ids.
    rewrite ordered_ids_spec by done. f_equal.
    clear -Hkept. induction (ids ls) as [|k l IH]; [done|].
    rewrite filter_cons_True by (apply Hkept; left).
    f_equal. apply IH. intros k' Hk'. apply Hkept. by right. }
  (* the old part of the new collection *)
  set (M1 := take (length ls) merged).
  set (M2 := drop (length ls) merged).
  assert (merged = M1 ++ M2) as Hsplit by (symmetry; apply take_drop).
  assert (ids M1 = ids ls) as HM1.
  { subst M1. unfold ids in *. rewrite fmap_take, Hids.
    rewrite take_app_length'; [done|]. by rewrite length_fmap. }
  assert (Forall2 (λ a b, id a = id b ∧ removed a = removed b) M1 ls)
    as Hagree.
  { apply Forall2_same_length_lookup. split.
    { rewrite <- (length_fmap id M1), <- (length_fmap id ls).
      fold (ids M1) (ids ls). by rewrite HM1. }
    intros i r r0 Hr Hr0.
    assert (id r = id r0) as Hid.
    { assert (ids M1 !! i = Some (id r)) as H1
        by (unfold ids; by rewrite list_lookup_fmap, Hr).
      assert (ids ls !! i = Some (id r0)) as H2
        by (unfold ids; by rewrite list_lookup_fmap, Hr0).
      rewrite HM1 in H1. congruence. }
    split; [done|].
    assert (r0 ∈ ls) as Hr0in by by eapply list_elem_of_lookup_2.
    assert (r ∈ merged) as Hrin.
    { rewrite Hsplit. apply elem_of_app. left.
      by eapply list_elem_of_lookup_2. }
    destruct (Hsame r0 Hr0in) as [Hnamed Hmissing].
    apply elem_of_merged_loops in Hrin. unfold final_map in Hrin.
    apply mark_missing_elem in Hrin as (v & Hv & Heq).
    rewrite merge_loop_seen_all in Heq.
    destruct (merge_loop_touched now polled ls _ _ Hv)
      as [[Hp Hrem]|[Hp Hvin]].
    - rewrite Hid in Hp.
      pose proof (merge_loop_well_formed now polled (start_map ls, ∅)
                    (start_map_well_formed ls)) as [_ Hk1].
      rewrite marked_seen in Heq.
      2:{ apply elem_of_list_to_set. rewrite (Hk1 _ _ Hv). by rewrite Hid. }
      subst v. rewrite Hrem. symmetry. by apply Hnamed.
    - pose proof (merge_loop_well_formed now polled (start_map ls, ∅)
                    (start_map_well_formed ls)) as [_ Hk1].
      assert (v = r0) as ->.
      { apply (NoDup_ids_inj ls); try done.
        rewrite (Hk1 _ _ Hv). done. }
      rewrite Hid in Hp. subst r. unfold marked.
      rewrite (bool_decide_eq_true_2 (id r0 ∉ _)).
      2:{ intros H. by apply elem_of_list_to_set in H. }
      destruct (removed r0) eqn:Hrem.
      + by destruct (bool_decide (source r0 ≠ Tool)).
      + rewrite (bool_decide_eq_false_2 (source r0 ≠ Tool)); [done|].
        intros Hs. apply Hs. by apply Hmissing. }
  assert (ids (active merged) = ids (active ls) ++ ids (active M2)) as Hact.
  { rewrite Hsplit, active_app. unfold ids at 1. rewrite fmap_app.
    fold (ids (active M1)) (ids (active M2)).
    by rewrite (active_ids_agree _ _ Hagree). }
  assert (0 ≤ focusedIndex st < Z.of_nat (length (active ls))) as Hr.
  { destruct (active ls); [done|]. simpl in *. lia. }
  assert (length (active ls) ≤ length (active merged))%nat as Hlen.
  { rewrite <- (length_fmap id (active merged)), <- (length_fmap id (active ls)).
    fold (ids (active merged)) (ids (active ls)).
    rewrite Hact, length_app. lia. }
  assert (focusedIndex st' = focusedIndex st) as Hfocus.
  { subst st'. rewrite focusedIndex_mergePolled. cbv zeta.
    fold ls merged. case_decide; lia. }
  split_and!; [|done|].
  - rewrite (getFocused_in_range st Hr).
    rewrite (getFocused_in_range st').
    2:{ rewrite Hfocus, Hloops. lia. }
    cbn [snd]. rewrite Hfocus, Hloops. fold ls.
    unfold at_index. destruct (Z.ltb_spec (focusedIndex st) 0); [lia|].
    rewrite <- !list_lookup_fmap. fold (ids (active merged)) (ids (active ls)).
    rewrite Hact. apply lookup_app_l. unfold ids. rewrite length_fmap. lia.
  - rewrite Hloops, Hact. apply take_app_length'.
    unfold ids. by rewrite length_fmap.
Qed.

Lemma focus_survives_stable_poll_witness :
  reachable two_started
  ∧ same_membership one_more (loops two_started)
  ∧ id <$> (getFocused (mergePolled 20 one_more two_started)).2
    = id <$> (getFocused two_started).2
  ∧ focusedIndex (mergePolled 20 one_more two_started)
    = focusedIndex two_started.
Proof.
  assert (reachable two_started) as Hreach
    by (apply reach_upsertToolLoop, reach_upsertToolLoop, reach_init).
  assert (same_membership one_more (loops two_started)) as Hsame.
  { intros r0 Hr0.
    apply elem_of_cons in Hr0 as [->|Hr0];
      [|apply list_elem_of_singleton in Hr0 as ->]; split; done. }
  split; [exact Hreach|]. split; [exact Hsame|].
  destruct (focus_survives_stable_poll 20 one_more two_started Hreach
              ltac:(done) eq_refl Hsame) as (H1 & H2 & _).
  split; [exact H1 | exact H2].
Defined.

(** ** The directories of a poll and the two readers of the enumeration *)

(** ** The directories of a poll *)

Lemma set_add_elem (d x : string) (dirs : list string) :
  x ∈ set_add d dirs ↔ x ∈ dirs ∨ x = d.
Proof.
  unfold set_add. case_bool_decide as Hin.
  - split; [by left|]. intros [?| ->]; done.
  - rewrite elem_of_app, list_elem_of_singleton. done.
Qed.

Lemma set_add_NoDup (d : string) (dirs : list string) :
  NoDup dirs → NoDup (set_add d dirs).
Proof.
  intros Hnd. unfold set_add. case_bool_decide as Hin; [done|].
  apply NoDup_app. split_and!; [done| |apply NoDup_singleton].
  intros x Hx Hx'. apply list_elem_of_singleton in Hx'. by subst.
Qed.

Lemma poll_dirs_known (ls : list TrackedLoop) (acc : list string) :
  let dirs :=
    fold_left
      (λ dirs loop,
         match directory loop with
         | Some d => if truthy (directory loop) then set_add d dirs else dirs
         | None => dirs
         end) ls acc in
  (NoDup acc → NoDup dirs)
  ∧ ∀ d, d ∈ dirs ↔ d ∈ acc ∨ (d ≠ "" ∧ ∃ l, l ∈ ls ∧ directory l = Some d).
Proof.
  revert acc. induction ls as [|l ls IH]; intros acc; cbn [fold_left].
  - split; [done|]. intros d. split; [by left|].
    intros [?|(_ & l & Hl & _)]; [done | inversion Hl].
  - destruct (IH (match directory l with
                  | Some d => if truthy (directory l) then set_add d acc
                              else acc
                  | None => acc
                  end)) as [Hnd Hel].
    split.
    + intros Hacc. apply Hnd.
      destruct (directory l) as [d|]; [|done].
      destruct (truthy (Some d)); [by apply set_add_NoDup | done].
    + intros d. rewrite Hel. clear Hnd Hel IH.
      destruct (directory l) as [[|c s]|] eqn:Hdir; cbn [truthy].
      * split.
        -- intros [?|(Hne & l' & Hl' & Hd)]; [by left|].
           right. split; [done|]. exists l'. split; [by right | done].
        -- intros [?|(Hne & l' & Hl' & Hd)]; [by left|].
           apply elem_of_cons in Hl' as [->|Hl']; [congruence|].
           right. eauto.
      * rewrite set_add_elem. split.
        -- intros [[?| ->]|(Hne & l' & Hl' & Hd)]; [by left| |].
           ++ right. split; [done|]. exists l. split; [left | done].
           ++ right. split; [done|]. exists l'. split; [by right | done].
        -- intros [?|(Hne & l' & Hl' & Hd)]; [by left; left|].
           apply elem_of_cons in Hl' as [->|Hl'].
           ++ left. right. congruence.
           ++ right. eauto.
      * split.
        -- intros [?|(Hne & l' & Hl' & Hd)]; [by left|].
           right. split; [done|]. exists l'. split; [by right | done].
        -- intros [?|(Hne & l' & Hl' & Hd)]; [by left|].
           apply elem_of_cons in Hl' as [->|Hl']; [congruence|].
           right. eauto.
Qed.

(** X11. The directories a poll queries: every non-empty directory that a
    loop of the collection carries, loops marked removed included, each
    once; and the working directory of the process, alone, exactly when
    no loop carries a non-empty directory. The list is never empty. *)
Theorem poll_dirs_once (host : Host) (st : State) :
  let known d := d ≠ "" ∧ ∃ l, l ∈ loops st ∧ directory l = Some d in
  NoDup (poll_dirs host st)
  ∧ poll_dirs host st ≠ []
  ∧ (∀ d, known d → d ∈ poll_dirs host st)
  ∧ ((∃ d, known d) → ∀ d, d ∈ poll_dirs host st → known d)
  ∧ ((∀ d, ¬ known d) → poll_dirs host st = [process_cwd host]).
Proof.
  intros known. unfold poll_dirs.
  destruct (poll_dirs_known (loops st) []) as [Hnd Hel].
  set (dirs := fold_left _ (loops st) []) in *.
  specialize (Hnd (NoDup_nil_2 (A:=string))).
  assert (∀ d, d ∈ dirs ↔ known d) as Hel'.
  { intros d. rewrite Hel. subst known. cbv beta.
    split; [intros [H|?]; [inversion H | done] | by right]. }
  destruct (decide (length dirs = O)) as [Hz|Hnz].
  - apply length_zero_iff_nil in Hz. rewrite Hz in *.
    unfold set_add. cbn.
    split_and!; [apply NoDup_singleton|done| | |done].
    + intros d Hd. apply Hel' in Hd. inversion Hd.
    + intros [d Hd]. apply Hel' in Hd. inversion Hd.
  - split_and!; [done| |..].
    + intros Hnil. by rewrite Hnil in Hnz.
    + intros d. apply Hel'.
    + intros _ d. apply Hel'.
    + intros Hnone. destruct dirs as [|d dirs']; [done|].
      exfalso. apply (Hnone d), Hel'. left.
Qed.

Lemma poll_dirs_once_witness :
  ("/p" ≠ "" ∧ ∃ l, l ∈ loops manager ∧ directory l = Some "/p")
  ∧ "/p" ∈ poll_dirs sample_host manager
  ∧ (∀ d, d ∈ poll_dirs sample_host manager →
          d ≠ "" ∧ ∃ l, l ∈ loops manager ∧ directory l = Some d)
  ∧ poll_dirs sample_host init = [process_cwd sample_host].
Proof.
  assert ("/p" ≠ "" ∧ ∃ l, l ∈ loops manager ∧ directory l = Some "/p")
    as Hknown.
  { split; [done|]. exists worktree_loop. split; [left | done]. }
  assert (∀ d, ¬ (d ≠ "" ∧ ∃ l, l ∈ loops init ∧ directory l = Some d))
    as Hnone.
  { intros d (_ & l & Hl & _). inversion Hl. }
  split; [exact Hknown|].
  destruct (poll_dirs_once sample_host manager) as (_ & _ & H3 & H4 & _).
  destruct (poll_dirs_once sample_host init) as (_ & _ & _ & _ & H5).
  split; [exact (H3 "/p" Hknown)|].
  split; [exact (H4 (ex_intro _ "/p" Hknown)) | exact (H5 Hnone)].
Defined.

Lemma tag_directory_located (dir : string) (l : TrackedLoop) :
  directory (tag_directory dir l) ≠ None.
Proof.
  unfold tag_directory. destruct (truthy (directory l)) eqn:Ht; [|done].
  by destruct (directory l).
Qed.

Lemma poll_each_located host parsedAt exec dirs acc st parsed any st' :
  poll_each host parsedAt exec dirs acc st = (Normal (parsed, any), st') →
  located acc.1 → located parsed.
Proof.
  revert acc st. induction dirs as [|d dirs IH]; intros acc st Heq Hacc.
  - cbn [poll_each] in Heq. injection Heq as Heq _. by rewrite Heq in Hacc.
  - cbn [poll_each] in Heq.
    destruct (exec d st).1 as [code out|message]; [|done].
    destruct (decide (code = 0)); [|by eapply IH].
    eapply IH; [exact Heq|]. cbn [fst].
    destruct (parseLoopsJson _ _ _) as [ps|]; [|done].
    intros l Hl. apply elem_of_app in Hl as [Hl|Hl]; [by apply Hacc|].
    apply list_elem_of_fmap in Hl as (l0 & -> & _).
    apply tag_directory_located.
Qed.

Lemma merge_existing_located now existing next :
  directory existing ≠ None →
  directory (merge_existing now existing next) ≠ None.
Proof.
  intros He. cbn [merge_existing directory].
  destruct (directory next) as [s|]; cbn [usable_directory]; [|done].
  by destruct (truthy (Some s) && negb (startsWith s "(")).
Qed.

Lemma merged_loops_located now polled ls :
  located ls → located polled → located (merged_loops now polled ls).
Proof.
  intros Hls Hpolled.
  assert (well_formed (merge_loop now polled (start_map ls, ∅)).1
          ∧ ∀ k v, (k, v) ∈ (merge_loop now polled (start_map ls, ∅)).1 →
                   directory v ≠ None) as [_ Hall].
  { apply (merge_loop_ind now polled (start_map ls, ∅)
             (λ _ a, well_formed a.1
                     ∧ ∀ k v, (k, v) ∈ a.1 → directory v ≠ None)).
    - split; [apply start_map_well_formed|].
      intros k v Hin. apply Hls. by eapply start_map_elem.
    - intros pre next post a Heq _ [Hwf IH].
      destruct (merge_step_case now a next) as [Hcase _].
      split; [by eapply step_case_well_formed|].
      assert (next ∈ polled) as Hnext.
      { rewrite Heq. apply elem_of_app. right. left. }
      destruct Hwf as [Hnd Hk]. intros k v Hin.
      destruct Hcase as [existing Hex _|e el Hnone Hid _ Hel _ _ _|Hnone _].
      + apply (elem_of_set _ _ _ _ _ Hnd) in Hin as [[-> ->]|[_ Hin]];
          [|by eapply IH].
        apply merge_existing_located. eapply IH. by apply get_Some_elem.
      + apply elem_of_set in Hin as [[-> ->]|[_ Hin]];
          [| |by apply NoDup_keys_delete].
        * apply merge_existing_located. by eapply IH.
        * apply (elem_of_delete _ _ _ _ Hnd) in Hin as [_ Hin]. by eapply IH.
      + apply (elem_of_set _ _ _ _ _ Hnd) in Hin as [[-> ->]|[_ Hin]];
          [|by eapply IH].
        cbn [insert_new directory]. by apply Hpolled. }
  intros r Hr. apply elem_of_merged_loops in Hr. unfold final_map in Hr.
  apply mark_missing_elem in Hr as (v0 & Hin & ->).
  rewrite marked_directory. by eapply Hall.
Qed.

(** X12. A poll keeps every loop located. If every loop of the collection
    has a directory, then after a poll that is not interleaved with other
    calls every loop of the collection has one, and so has every loop the
    poll returns: a candidate without an absolute path of its own is
    given the directory that was queried, and a merge never replaces a
    directory by none. *)
Theorem poll_keeps_directories
    (host : Host) (parsedAt : string → Z) (now : Z)
    (outcome : string → ExecOutcome) (st : State) :
  located (loops st) →
  located (loops (poll host parsedAt now (quiet outcome) st).1)
  ∧ ∀ ls, (poll host parsedAt now (quiet outcome) st).2 = Some ls →
          located ls.
Proof.
  intros Hst. unfold poll. destruct (pollInFlight st); [done|].
  cbn [fst snd].
  pose proof (poll_each_quiet host parsedAt outcome
                (poll_dirs host (with_inFlight true st)) ([], false)
                (with_inFlight true st)) as Hq.
  destruct (poll_each _ _ _ _ _ _) as [[[parsed any]|message] st1] eqn:Hpe;
    cbn [fst snd] in *; subst st1; [|done].
  destruct any; cbn [negb fst snd]; [|done].
  assert (located (merged_loops now (values (start_map parsed)) (loops st)))
    as Hm.
  { apply merged_loops_located; [done|].
    intros l Hl. unfold values in Hl.
    apply list_elem_of_fmap in Hl as ([k v] & -> & Hin).
    apply start_map_elem in Hin.
    eapply poll_each_located; [exact Hpe| |exact Hin].
    intros ? H. inversion H. }
  assert (loops (mergePolled now (values (start_map parsed))
                   (with_inFlight true st))
          = merged_loops now (values (start_map parsed)) (loops st)) as Hl
    by exact (loops_mergePolled now _ (with_inFlight true st)).
  split.
  - change (located (loops (mergePolled now (values (start_map parsed))
                              (with_inFlight true st)))).
    by rewrite Hl.
  - intros ls [= <-].
    change (located (active (loops (mergePolled now
              (values (start_map parsed)) (with_inFlight true st))))).
    rewrite Hl. intros l Hin. apply Hm. unfold active in Hin.
    apply list_elem_of_In, List.filter_In in Hin as [Hin _].
    by apply list_elem_of_In.
Qed.

Lemma poll_keeps_directories_witness :
  located (loops manager)
  ∧ located (loops (poll sample_host (λ _, 30) 31 (quiet all_list) manager).1).
Proof.
  assert (located (loops manager)) as Hloc.
  { intros l Hl. apply elem_of_cons in Hl as [->|Hl]; [done|].
    apply list_elem_of_singleton in Hl as ->. done. }
  split; [exact Hloc|].
  exact (proj1 (poll_keeps_directories sample_host (λ _, 30) 31 all_list
                  manager Hloc)).
Defined.

(** ** The two readers of the enumerator's output *)

Section readers.
Import LoopTool.

Lemma parse_record_id (now : Z) (item : json) :
  one_identity item →
  id <$> parse_record now item = item_id item.
Proof.
  intros Hone. unfold parse_record, item_id.
  destruct (as_string (prop item "id")) as [i|] eqn:Hi,
           (as_string (prop item "loop_id")) as [j|] eqn:Hj.
  - destruct Hone; congruence.
  - destruct i; done.
  - destruct j; done.
  - done.
Qed.

Lemma parse_record_nonempty (now : Z) (item : json) (l : TrackedLoop) :
  parse_record now item = Some l → id l ≠ "".
Proof.
  unfold parse_record.
  destruct (match as_string (prop item "loop_id") with
            | Some s => Some s
            | None => as_string (prop item "id")
            end) as [[|c s]|]; cbn [truthy negb]; [done| |done].
  by intros [= <-].
Qed.

(** X13. [parseLoopsJson] and [extractLoopIds] read the same identities
    from an output that parses to an array in which no item has both an
    [id] and a [loop_id] that are strings: the identities that
    [extractLoopIds] returns are those of the records that
    [parseLoopsJson] returns, in the same order, and none is empty. (The
    first lets [loop_id] win over [id], the second [id] over
    [loop_id].) *)
Theorem readers_agree_on_identities
    (host : Host) (now : Z) (text : string) (data : list json) :
  JSON_parse host (trim host text) = Some (JArr data) →
  Forall one_identity data →
  ∃ parsed,
    parseLoopsJson host now (trim host text) = Normal parsed
    ∧ extractLoopIds host text = Some (id <$> parsed)
    ∧ Forall (λ i, i ≠ "") (id <$> parsed).
Proof.
  intros Hparse Hone. unfold parseLoopsJson, extractLoopIds.
  destruct (negb (truthy (Some (trim host text)))) eqn:Hempty.
  - exists []. done.
  - rewrite Hparse. exists (omap (parse_record now) data).
    split_and!; [done| |].
    + f_equal. clear Hparse.
      induction Hone as [|item data Hitem _ IH]; [done|]. csimpl.
      pose proof (parse_record_id now item Hitem) as Hid.
      destruct (parse_record now item) as [l|], (item_id item) as [i|];
        csimpl in *; simplify_eq; by rewrite ?IH.
    + apply Forall_fmap, Forall_forall. intros l Hl.
      apply list_elem_of_omap in Hl as (item & _ & Hl).
      by eapply parse_record_nonempty.
Qed.

Lemma readers_agree_on_identities_witness :
  JSON_parse sample_host (trim sample_host one_loop_json)
  = Some (JArr [JObj [("id", JStr "wt-2")]])
  ∧ Forall one_identity [JObj [("id", JStr "wt-2")]]
  ∧ ∃ parsed,
      parseLoopsJson sample_host 30 (trim sample_host one_loop_json)
      = Normal parsed
      ∧ extractLoopIds sample_host one_loop_json = Some (id <$> parsed)
      ∧ Forall (λ i, i ≠ "") (id <$> parsed).
Proof.
  assert (Forall one_identity [JObj [("id", JStr "wt-2")]]) as Hone.
  { apply Forall_cons. split; [by right | apply Forall_nil_2]. }
  split; [reflexivity|]. split; [exact Hone|].
  exact (readers_agree_on_identities sample_host 30 one_loop_json
           [JObj [("id", JStr "wt-2")]] eq_refl Hone).
Defined.

End readers.

(** ** The inputs of the overlay *)

(** ** The inputs of the overlay *)

Section overlay_inputs.
Import Overlay OverlayView.

Ltac overlay_cases :=
  repeat match goal with
         | |- context [if ?b then _ else _] => destruct b eqn:?
         | |- context [match ?x with _ => _ end] => destruct x eqn:?
         end.

Lemma executed_app (e1 e2 : list Effect) :
  executed (e1 ++ e2) = executed e1 ++ executed e2.
Proof. unfold executed. apply omap_app. Qed.

Lemma spawned_app (e1 e2 : list Effect) :
  spawned (e1 ++ e2) = spawned e1 ++ spawned e2.
Proof. unfold spawned. apply omap_app. Qed.

Lemma executed_session (es : list PaneEffect) :
  executed (Session <$> es) = [].
Proof. by induction es. Qed.

Lemma spawned_dispose (p : Pane) :
  spawned (Session <$> (disposeSessionIfEphemeral p).2) = [].
Proof.
  unfold disposeSessionIfEphemeral. cbn [snd].
  by destruct (paneSession p), (paneEphemeral p).
Qed.

Lemma executed_close (o : Overlay) : executed (close o).2 = [].
Proof.
  unfold close. cbn [snd].
  rewrite !executed_app, executed_session. by destruct (subscribed o).
Qed.

Lemma spawned_close (o : Overlay) : spawned (close o).2 = [].
Proof.
  unfold close. cbn [snd].
  rewrite !spawned_app, spawned_dispose. by destruct (subscribed o).
Qed.

(** What the listener changes of the overlay is the pane. *)
Lemma cycle_keeps (d : Direction) (host : Collaborators) (o : Overlay) :
  let o' := (loopManager_cycleFocus d host o).1 in
  view o' = view o ∧ confirm o' = confirm o
  ∧ textViewLines o' = textViewLines o ∧ textScroll o' = textScroll o
  ∧ textLoading o' = textLoading o ∧ subscribed o' = subscribed o.
Proof.
  unfold loopManager_cycleFocus. destruct (subscribed o) eqn:Hs; [|done].
  cbn. by rewrite Hs.
Qed.

Lemma executed_cycle (d : Direction) (host : Collaborators) (o : Overlay) :
  executed (loopManager_cycleFocus d host o).2 = [].
Proof.
  unfold loopManager_cycleFocus, onChange.
  destruct (subscribed o); [|done]. cbn [fst snd executed omap list_omap].
  by rewrite executed_app, executed_session.
Qed.

(** The session that [ensureFocusedSession] creates follows the logs of
    the focused loop under the identity resolved for it. *)
Lemma ensure_spawned (host : Collaborators) (term : Terminal) (p : Pane)
    (c : string) :
  c ∈ spawned (Session <$> (ensureFocusedSession host term p).2) →
  ∃ loop i,
    focused host = Some loop
    ∧ resolveLoopIdForCli host loop = Some i
    ∧ c = "ralph loops logs " +:+ i +:+ " --follow".
Proof.
  unfold ensureFocusedSession.
  destruct (focused host) as [loop|];
    [|intros H; rewrite spawned_dispose in H; inversion H].
  destruct (bool_decide _); [intros H; inversion H|].
  cbv zeta.
  assert (∀ e, c ∈ spawned (Session <$> (disposeSessionIfEphemeral p).2 ++ e)
               → c ∈ spawned (Session <$> e)) as Hdrop.
  { intros e. by rewrite fmap_app, spawned_app, spawned_dispose. }
  destruct (resolveLoopIdForCli host loop) as [i|] eqn:Hi.
  - destruct (source loop), (ptySession loop) as [s|], (truthy (Some i));
      cbn [negb fst snd]; intros H;
      try (apply Hdrop in H);
      try (rewrite spawned_dispose in H; by inversion H);
      try (cbn in H; by inversion H).
    all: cbn in H; apply list_elem_of_singleton in H as ->;
      exists loop, i; done.
  - destruct (source loop), (ptySession loop) as [s|];
      cbn [negb truthy fst snd]; intros H;
      try (apply Hdrop in H);
      try (rewrite spawned_dispose in H; by inversion H);
      cbn in H; by inversion H.
Qed.

Lemma spawned_cycle (d : Direction) (host : Collaborators) (o : Overlay)
    (c : string) :
  c ∈ spawned (loopManager_cycleFocus d host o).2 →
  subscribed o = true
  ∧ ∃ loop i,
      cycled host d = Some loop
      ∧ resolveLoopIdForCli host loop = Some i
      ∧ c = "ralph loops logs " +:+ i +:+ " --follow".
Proof.
  unfold loopManager_cycleFocus, onChange.
  destruct (subscribed o); [|intros H; cbn in H; inversion H].
  cbn [fst snd]. intros H. split; [done|].
  change (spawned (CycleFocus d :: ?l)) with (spawned l) in H.
  rewrite spawned_app in H. cbn [spawned omap list_omap] in H.
  rewrite app_nil_r in H.
  apply ensure_spawned in H as (loop & i & Hf & Hi & ->).
  exists loop, i. done.
Qed.

Lemma handleInput_spawned (host : Collaborators) (data : string) (o : Overlay)
    (c : string) :
  c ∈ spawned (handleInput host data o).2 →
  confirm o = None ∧ view o = Pty ∧ subscribed o = true
  ∧ ∃ d loop i,
      (d = Backward ∧ matchesKey host data Key_left = true
       ∨ d = Forward ∧ matchesKey host data Key_right = true)
      ∧ cycled host d = Some loop
      ∧ resolveLoopIdForCli host loop = Some i
      ∧ c = "ralph loops logs " +:+ i +:+ " --follow".
Proof.
  unfold handleInput.
  destruct (matchesKey host data Key_escape) eqn:Hesc.
  { destruct (confirm o); [intros H; cbn in H; inversion H|].
    destruct (negb _); [intros H; cbn in H; inversion H|].
    rewrite spawned_close. intros H; inversion H. }
  destruct (confirm o) as [cf|] eqn:Hcf.
  { overlay_cases; intros H; cbn in H; inversion H. }
  destruct (bool_decide (view o = Pty)) eqn:Hview; cbn [negb].
  2:{ unfold handle_text_view. overlay_cases; intros H; cbn in H; inversion H. }
  apply bool_decide_eq_true in Hview.
  unfold handle_pty_view.
  destruct (matchesKey host data Key_left) eqn:Hleft.
  { intros H. apply spawned_cycle in H as (Hs & loop & i & H1 & H2 & H3).
    split_and!; [done..|]. exists Backward, loop, i. split_and!; auto. }
  destruct (matchesKey host data Key_right) eqn:Hright.
  { intros H. apply spawned_cycle in H as (Hs & loop & i & H1 & H2 & H3).
    split_and!; [done..|]. exists Forward, loop, i. split_and!; auto. }
  unfold runAction, runTextView.
  overlay_cases; cbn [fst snd]; rewrite ?spawned_app, ?spawned_close;
    intros H; cbn in H; inversion H.
Qed.



Lemma resolve_not_placeholder (host : Collaborators) (loop : TrackedLoop) i :
  (∀ dir j, readLoopId host dir = Some j → j ≠ "(primary)") →
  resolveLoopIdForCli host loop = Some i → i ≠ "(primary)".
Proof.
  intros Hfile. unfold resolveLoopIdForCli.
  destruct (bool_decide (id loop = "(primary)")) eqn:Hp; cbn [negb].
  - destruct (negb (truthy _)); [done|].
    destruct (readLoopId host _) as [j|] eqn:Hj; [|done].
    destruct (truthy (Some j)); [|done]. intros [= <-]. by eapply Hfile.
  - intros [= <-]. by apply bool_decide_eq_false in Hp.
Qed.

(** X15. The display identity [(primary)] is never an argument of a
    command. With no confirmation pending, and the loop-id file never
    holding that text, no command that an input starts has [(primary)]
    among its words, neither has the command of a confirmation that the
    input sets up, and a session that the input creates follows the logs
    of another identity. *)
Theorem placeholder_never_passed_to_cli
    (host : Collaborators) (data : string) (o : Overlay) :
  confirm o = None →
  (∀ dir j, readLoopId host dir = Some j → j ≠ "(primary)") →
  (∀ c, c ∈ executed (handleInput host data o).2 → "(primary)" ∉ c)
  ∧ (∀ cf, confirm (handleInput host data o).1 = Some cf →
           "(primary)" ∉ command cf)
  ∧ (∀ c, c ∈ spawned (handleInput host data o).2 →
          ∃ i, c = "ralph loops logs " +:+ i +:+ " --follow"
               ∧ i ≠ "(primary)").
Proof.
  intros Hcf Hfile.
  assert (∀ c, c ∈ spawned (handleInput host data o).2 →
               ∃ i, c = "ralph loops logs " +:+ i +:+ " --follow"
                    ∧ i ≠ "(primary)") as Hspawn.
  { intros c Hc.
    apply handleInput_spawned in Hc as (_ & _ & _ & d & loop & i & _ & _ & Hi & ->).
    exists i. split; [done|]. by eapply resolve_not_placeholder. }
  cut ((∀ c, c ∈ executed (handleInput host data o).2 → "(primary)" ∉ c)
       ∧ (∀ cf, confirm (handleInput host data o).1 = Some cf →
                "(primary)" ∉ command cf)).
  { intros [H1 H2]. by split_and!. }
  clear Hspawn.
  assert (∀ loop t, id loop ≠ "(primary)" →
            default (id loop) (resolveLoopIdForCli host loop) = t →
            t ≠ "(primary)") as Htarget.
  { intros loop t Hid <-.
    destruct (resolveLoopIdForCli host loop) as [i|] eqn:Hi; [|done].
    by eapply resolve_not_placeholder. }
  assert (∀ verb t, t ≠ "(primary)" → verb ≠ "(primary)" →
            "(primary)" ∉ ["loops"; verb; t]) as H3.
  { intros verb t Ht Hv Hin.
    repeat (apply elem_of_cons in Hin as [Hin|Hin]; [done || congruence|]).
    inversion Hin. }
  unfold handleInput. rewrite Hcf.
  destruct (matchesKey host data Key_escape).
  { destruct (negb _).
    - split; [intros c H; cbn in H; inversion H|].
      intros cf H. cbn in H. congruence.
    - rewrite executed_close. split; [intros c H; inversion H|].
      intros cf H. cbn in H. congruence. }
  destruct (negb (bool_decide (view o = Pty))).
  { unfold handle_text_view.
    repeat match goal with
           | |- context [if ?b then _ else _] => destruct b
           end;
      (split; [intros c H; cbn in H; inversion H|]);
      intros cf H; cbn in H; congruence. }
  unfold handle_pty_view.
  destruct (matchesKey host data Key_left).
  { rewrite executed_cycle.
    destruct (cycle_keeps Backward host o) as (_ & -> & _).
    split; [intros c H; inversion H | intros cf H; congruence]. }
  destruct (matchesKey host data Key_right).
  { rewrite executed_cycle.
    destruct (cycle_keeps Forward host o) as (_ & -> & _).
    split; [intros c H; inversion H | intros cf H; congruence]. }
  destruct (matchesKey host data "shift+up").
  { split; [intros c H; destruct (session o); cbn in H; inversion H
           | intros cf H; cbn in H; congruence]. }
  destruct (matchesKey host data "shift+down").
  { split; [intros c H; destruct (session o); cbn in H; inversion H
           | intros cf H; cbn in H; congruence]. }
  destruct (focused host) as [loop|];
    [|split; [intros c H; cbn in H; inversion H
             | intros cf H; cbn in H; congruence]].
  destruct (bool_decide (id loop = "(primary)")) eqn:Hp.
  - (* the focused loop is the placeholder *)
    destruct (bool_decide (data = "s")).
    { split; [intros c H; cbn in H; inversion H|].
      intros cf [= <-]. cbn. intros Hin.
      repeat (apply elem_of_cons in Hin as [Hin|Hin]; [done|]).
      inversion Hin. }
    destruct (bool_decide (data = "m")).
    { split; [intros c H; cbn in H; inversion H
             | intros cf H; cbn in H; congruence]. }
    destruct (bool_decide (data = "d")).
    { split; [intros c H; cbn in H; inversion H
             | intros cf H; cbn in H; congruence]. }
    destruct (resolveLoopIdForCli host loop) as [i|] eqn:Hi.
    + pose proof (resolve_not_placeholder host loop i Hfile Hi) as Hne.
      repeat match goal with
             | |- context [if ?b then _ else _] => destruct b
             end;
        (split; [intros c H; cbn [fst snd] in H;
                   rewrite ?executed_app, ?executed_close in H;
                   destruct (session o); cbn in H;
                   try (apply list_elem_of_singleton in H as ->; by apply H3);
                   inversion H|]);
        intros cf H; cbn in H; congruence.
    + repeat match goal with
             | |- context [if ?b then _ else _] => destruct b
             end;
        (split; [intros c H; cbn [fst snd] in H;
                   rewrite ?executed_app, ?executed_close in H;
                   destruct (session o); cbn in H; inversion H|]);
        intros cf H; cbn in H; congruence.
  - apply bool_decide_eq_false in Hp.
    pose proof (Htarget loop _ Hp eq_refl) as Ht.
    destruct (bool_decide (data = "s")).
    { split; [intros c H; cbn in H; inversion H|].
      intros cf [= <-]. cbn [command]. by apply H3. }
    destruct (bool_decide (data = "m")).
    { split; [|intros cf H; cbn in H; congruence].
      intros c H. cbn in H. apply list_elem_of_singleton in H as ->.
      by apply H3. }
    destruct (bool_decide (data = "d")).
    { split; [intros c H; cbn in H; inversion H|].
      intros cf [= <-]. cbn [command]. intros Hin.
      repeat (apply elem_of_cons in Hin as [Hin|Hin]; [done || congruence|]).
      inversion Hin. }
    destruct (resolveLoopIdForCli host loop) as [i|] eqn:Hi.
    + pose proof (resolve_not_placeholder host loop i Hfile Hi) as Hne.
      repeat match goal with
             | |- context [if ?b then _ else _] => destruct b
             end;
        (split; [intros c H; cbn [fst snd] in H;
                   rewrite ?executed_app, ?executed_close in H;
                   destruct (session o); cbn in H;
                   try (apply list_elem_of_singleton in H as ->; by apply H3);
                   inversion H|]);
        intros cf H; cbn in H; congruence.
    + repeat match goal with
             | |- context [if ?b then _ else _] => destruct b
             end;
        (split; [intros c H; cbn [fst snd] in H;
                   rewrite ?executed_app, ?executed_close in H;
                   destruct (session o); cbn in H; inversion H|]);
        intros cf H; cbn in H; congruence.
Qed.

Lemma placeholder_never_passed_to_cli_witness :
  confirm idle = None
  ∧ (∀ dir j, readLoopId on_default dir = Some j → j ≠ "(primary)")
  ∧ executed (handleInput on_default "r" idle).2
    = [["loops"; "retry"; "primary-20260207-x"]]
  ∧ (∀ c, c ∈ executed (handleInput on_default "r" idle).2 →
          "(primary)" ∉ c)
  ∧ (∀ dir j, readLoopId placeholder_ahead dir = Some j → j ≠ "(primary)")
  ∧ spawned (handleInput placeholder_ahead right_arrow idle).2
    = ["ralph loops logs primary-20260207-x --follow"]
  ∧ (∀ c, c ∈ spawned (handleInput placeholder_ahead right_arrow idle).2 →
          ∃ i, c = "ralph loops logs " +:+ i +:+ " --follow"
               ∧ i ≠ "(primary)").
Proof.
  assert (∀ dir j, readLoopId on_default dir = Some j → j ≠ "(primary)")
    as Hfile by (intros dir j [= <-]; discriminate).
  assert (∀ dir j, readLoopId placeholder_ahead dir = Some j →
                   j ≠ "(primary)")
    as Hfile' by (intros dir j [= <-]; discriminate).
  split; [reflexivity|]. split; [exact Hfile|]. split; [reflexivity|].
  destruct (placeholder_never_passed_to_cli on_default "r" idle
              eq_refl Hfile) as (H1 & _ & _).
  destruct (placeholder_never_passed_to_cli placeholder_ahead right_arrow
              idle eq_refl Hfile') as (_ & _ & H3).
  split; [exact H1|]. split; [exact Hfile'|].
  split; [reflexivity | exact H3].
Defined.

Lemma last_line_nonneg (o : Overlay) : 0 ≤ last_line o.
Proof. unfold last_line. lia. Qed.

Ltac settle_cases :=
  unfold runAction, runTextView, close, set_footer, set_confirm, set_view,
    last_line;
  repeat match goal with
         | |- context [if ?b then _ else _] => destruct b
         | |- context [match ?x with _ => _ end] => destruct x
         end;
  cbn [fst snd textScroll textViewLines textLoading length] in *;
  (split; [lia | try done; intuition congruence]).

Lemma handleInput_in_order (host : Collaborators) (data : string) (o : Overlay) :
  text_in_order o → text_in_order (handleInput host data o).1.
Proof.
  unfold text_in_order, scroll_in_range, last_line. intros Hr.
  unfold handleInput.
  destruct (matchesKey host data Key_escape); [settle_cases|].
  destruct (confirm o); [settle_cases|].
  destruct (negb (bool_decide (view o = Pty)));
    [unfold handle_text_view; settle_cases|].
  unfold handle_pty_view.
  destruct (matchesKey host data Key_left).
  { by destruct (cycle_keeps Backward host o) as (_ & _ & -> & -> & -> & _). }
  destruct (matchesKey host data Key_right).
  { by destruct (cycle_keeps Forward host o) as (_ & _ & -> & -> & -> & _). }
  settle_cases.
Qed.

Lemma textViewEnded_in_order (String_ : Z → string) (command_ : list string)
    (res : ExecResult) (o : Overlay) :
  text_in_order o → textLoading o = true →
  text_in_order (runTextView_settled String_ command_ res o).1.
Proof.
  unfold text_in_order, scroll_in_range, last_line. intros [Hr Hl] Hloading.
  rewrite (Hl Hloading) in Hr. cbn [length] in Hr.
  unfold runTextView_settled. cbn [fst textScroll textViewLines textLoading].
  split; [lia | done].
Qed.

(** X16. The scroll position of the text view stays inside the text:
    when it is between 0 and the index of the last line, and the text is
    empty if the view is loading, it is inside after any sequence of
    inputs, ends of commands and notifications in which no command of a
    text view ends while the view is not loading, whatever the
    collaborators answer and the commands return. *)
Theorem text_scroll_stays_in_range
    (String_ : Z → string) (events : list Event) (o : Overlay) :
  0 ≤ textScroll o ≤ last_line o →
  (textLoading o = true → textViewLines o = []) →
  orderly String_ events o →
  0 ≤ textScroll (run String_ events o) ≤ last_line (run String_ events o).
Proof.
  intros Hr Hl Hord.
  cut (text_in_order (run String_ events o)); [by intros [H _]|].
  assert (text_in_order o) as Hs by done. clear Hr Hl.
  revert o Hs Hord.
  induction events as [|e events IH]; intros o Hs Hord; [done|].
  destruct Hord as [He Hord]. cbn [run fold_left]. apply IH; [|done].
  destruct e as [host data|command_ res|host label_ res|host]; cbn [step].
  - by apply handleInput_in_order.
  - by apply textViewEnded_in_order.
  - unfold runAction_settled. by destruct (decide _).
  - by destruct (subscribed o).
Qed.

Lemma text_scroll_stays_in_range_witness :
  0 ≤ textScroll idle ≤ last_line idle
  ∧ orderly decimal reading idle
  ∧ textViewLines (run decimal reading idle) = ["a"; "b"]
  ∧ textScroll (run decimal reading idle) = 1
  ∧ 0 ≤ textScroll (run decimal reading idle)
    ≤ last_line (run decimal reading idle).
Proof.
  assert (0 ≤ textScroll idle ≤ last_line idle) as Hr
    by (vm_compute; split; discriminate).
  assert (textLoading idle = true → textViewLines idle = []) as Hl
    by (intros _; reflexivity).
  assert (orderly decimal reading idle) as Hord
    by (cbn; repeat split).
  split; [exact Hr|]. split; [exact Hord|].
  split; [reflexivity|]. split; [reflexivity|].
  exact (text_scroll_stays_in_range decimal reading idle Hr Hl Hord).
Defined.

(** Two text views started before the first has ended: the history ends
    and is scrolled down, then the diff ends with one line, and the
    scroll position is beyond it. *)
Lemma overlapping_text_views_strand_scroll :
  ¬ orderly decimal overlapping idle
  ∧ textViewLines (run decimal overlapping idle) = ["boom"]
  ∧ textScroll (run decimal overlapping idle) = 1.
Proof.
  split; [|split; reflexivity].
  cbn. intros (_ & _ & _ & _ & _ & _ & H & _). discriminate H.
Qed.

(** X17. Escape takes back one thing at a time and closes the overlay at
    the third press at the latest. A pending confirmation is cancelled
    and the view stays; without one, a text view is left for the terminal
    view; with neither, the overlay is closed. None of the three presses
    starts a command or writes to the session. *)
Theorem three_escapes_close
    (host : Collaborators) (data : string) (o : Overlay) :
  matchesKey host data Key_escape = true →
  let e1 := handleInput host data o in
  let e2 := handleInput host data e1.1 in
  let e3 := handleInput host data e2.1 in
  Done ∈ e1.2 ++ e2.2 ++ e3.2
  ∧ executed (e1.2 ++ e2.2 ++ e3.2) = []
  ∧ (∀ d, SessionWrite d ∉ e1.2 ++ e2.2 ++ e3.2)
  ∧ (confirm o ≠ None → (Done ∉ e1.2) ∧ view e1.1 = view o)
  ∧ (confirm o = None → view o ≠ Pty → (Done ∉ e1.2) ∧ view e1.1 = Pty)
  ∧ (confirm o = None → view o = Pty → Done ∈ e1.2).
Proof.
  intros Hesc e1 e2 e3. subst e1 e2 e3. unfold handleInput. rewrite !Hesc.
  destruct o as [v t ls sc ld cf [a se ep fm cr] sb].
  destruct cf as [cf|], v, sb, se as [s|], ep; cbn.
  all: split_and!; try done; try set_solver.
Qed.

Lemma three_escapes_close_witness :
  matchesKey tty escape_key Key_escape = true
  ∧ confirm stop_pending ≠ None
  ∧ (Done ∉ (handleInput tty escape_key stop_pending).2)
  ∧ Done ∈ (handleInput tty escape_key
              (handleInput tty escape_key stop_pending).1).2
  ∧ view (set_view History 0 idle) ≠ Pty
  ∧ view (handleInput tty escape_key (set_view History 0 idle)).1 = Pty.
Proof.
  assert (matchesKey tty escape_key Key_escape = true) as Hesc
    by reflexivity.
  assert (confirm stop_pending ≠ None) as Hcf by discriminate.
  split; [exact Hesc|]. split; [exact Hcf|].
  destruct (three_escapes_close tty escape_key stop_pending Hesc)
    as (_ & _ & _ & H4 & _ & _).
  split; [exact (proj1 (H4 Hcf))|].
  destruct (three_escapes_close tty escape_key
              (handleInput tty escape_key stop_pending).1 Hesc)
    as (_ & _ & _ & _ & _ & H6).
  split; [exact (H6 eq_refl eq_refl)|].
  assert (view (set_view History 0 idle) ≠ Pty) as Hview by discriminate.
  split; [exact Hview|].
  destruct (three_escapes_close tty escape_key (set_view History 0 idle)
              Hesc) as (_ & _ & _ & _ & H5 & _).
  exact (proj2 (H5 eq_refl Hview)).
Defined.

End overlay_inputs.

(** ** The session, the outcomes and the lines of the overlay *)

(** ** Strings *)

Lemma append_cons (c : ascii) (s1 s2 : string) :
  String c s1 +:+ s2 = String c (s1 +:+ s2).
Proof. reflexivity. Qed.

Lemma append_nil_l (s : string) : "" +:+ s = s.
Proof. reflexivity. Qed.

Lemma append_nil_r (s : string) : s +:+ "" = s.
Proof.
  induction s as [|c s IH]; [done|]. by rewrite append_cons, IH.
Qed.

Lemma append_assoc (s1 s2 s3 : string) :
  (s1 +:+ s2) +:+ s3 = s1 +:+ (s2 +:+ s3).
Proof.
  induction s1 as [|c s1 IH]; [done|]. by rewrite !append_cons, IH.
Qed.

(** ** The session the overlay shows *)

Section overlay_session.
Import Overlay OverlayView.

Lemma log_sessions_app (live : option nat) (e1 e2 : list PaneEffect) :
  log_sessions live (e1 ++ e2)
  = log_sessions live e1 ≫= λ live', log_sessions live' e2.
Proof.
  revert live. induction e1 as [|e e1 IH]; intros live; [done|].
  destruct e as [[s|n]| |]; cbn [app log_sessions]; try done.
  - case_decide; [apply IH | done].
  - destruct live; [done | apply IH].
Qed.

Lemma dispose_discipline (p : Pane) :
  owned p →
  log_sessions (held p) (disposeSessionIfEphemeral p).2 = Some None
  ∧ held (disposeSessionIfEphemeral p).1 = None
  ∧ owned (disposeSessionIfEphemeral p).1.
Proof.
  intros Hown. unfold disposeSessionIfEphemeral, held, owned in *.
  cbn [fst snd paneSession paneEphemeral].
  split_and!; [|done|done].
  destruct (paneSession p) as [[s|n]|] eqn:Hs; [| |done].
  - by rewrite (Hown s eq_refl).
  - destruct (paneEphemeral p); [|done]. cbn. by rewrite decide_True.
Qed.

Lemma ensure_discipline (host : Collaborators) (term : Terminal) (p : Pane) :
  owned p →
  log_sessions (held p) (ensureFocusedSession host term p).2
  = Some (held (ensureFocusedSession host term p).1)
  ∧ owned (ensureFocusedSession host term p).1.
Proof.
  intros Hown. unfold ensureFocusedSession.
  destruct (focused host) as [loop|].
  2:{ destruct (dispose_discipline (with_active None p) Hown)
        as (H1 & H2 & H3).
      rewrite H2. done. }
  case_bool_decide; [done|].
  destruct (dispose_discipline p Hown) as (H1 & H2 & H3).
  cbv zeta.
  assert (∀ q r, log_sessions (held p)
                   ((disposeSessionIfEphemeral p).2 ++ r) = q
                 ↔ log_sessions None r = q) as Happ.
  { intros q r. rewrite log_sessions_app, H1. done. }
  destruct (source loop), (ptySession loop) as [s|];
    try (destruct (negb (truthy (resolveLoopIdForCli host loop))));
    cbn [fst snd]; (split; [|by intros ?]);
    first [ apply Happ; by cbn | by rewrite H1 ].
Qed.

Lemma log_sessions_spare_tools (live live' : option nat)
    (effects : list PaneEffect) (s : PtySession) :
  log_sessions live effects = Some live' →
  Dispose (ToolSession s) ∉ effects.
Proof.
  revert live. induction effects as [|e effects IH]; intros live Hok Hin.
  { inversion Hin. }
  apply elem_of_cons in Hin as [<-|Hin]; [done|].
  destruct e as [[s'|n]| |]; cbn [log_sessions] in Hok; try done.
  - case_decide; [by eapply IH | done].
  - by eapply IH.
  - destruct live; [done | by eapply IH].
Qed.

(** X18. From its construction to its closing the overlay keeps to the
    discipline of the log-following sessions, whatever loops the manager
    reports as focused and in whatever order: it creates such a session
    only when it holds none, it disposes only the one it holds, it never
    disposes the session of a tool-started loop, and when it is closed no
    session it created is left. *)
Theorem log_sessions_are_released
    (term : Terminal) (hosts : list Collaborators) :
  let shown := follow term hosts fresh_pane in
  log_sessions None (shown.2 ++ (release shown.1).2) = Some None
  ∧ log_sessions None shown.2 = Some (held shown.1)
  ∧ (∀ s, Dispose (ToolSession s) ∉ shown.2 ++ (release shown.1).2)
  ∧ paneSession (release shown.1).1 = None.
Proof.
  assert (∀ p, owned p →
            log_sessions (held p) (follow term hosts p).2
            = Some (held (follow term hosts p).1)
            ∧ owned (follow term hosts p).1) as Hfollow.
  { induction hosts as [|host hosts IH]; intros p Hown; [done|].
    cbn [follow fst snd].
    destruct (ensure_discipline host term p Hown) as [H1 H2].
    destruct (IH _ H2) as [H3 H4].
    split; [|done]. by rewrite log_sessions_app, H1. }
  intros shown. destruct (Hfollow fresh_pane) as [H1 H2]; [done|].
  fold shown in H1, H2. change (held fresh_pane) with (@None nat) in H1.
  destruct (dispose_discipline shown.1 H2) as (H3 & H4 & H5).
  assert (log_sessions None (shown.2 ++ (release shown.1).2) = Some None)
    as Hall by (rewrite log_sessions_app, H1; exact H3).
  split_and!; [done|done| |done].
  intros s. by eapply log_sessions_spare_tools.
Qed.

End overlay_session.

(** ** The outcome of the commands of the overlay *)

Section overlay_outcomes.
Import Overlay OverlayView.

Lemma length_append (s1 s2 : string) :
  String.length (s1 +:+ s2) = (String.length s1 + String.length s2)%nat.
Proof.
  induction s1 as [|c s1 IH]; [done|].
  rewrite append_cons. cbn [String.length]. by rewrite IH.
Qed.

(** ** The outcome of an action *)

Lemma slice_to_length (n : nat) (s : string) :
  (String.length (slice_to n s) ≤ n)%nat.
Proof.
  revert s. induction n as [|n IH]; intros [|c s]; cbn; try lia.
  specialize (IH s). lia.
Qed.

Lemma slice_to_short (n : nat) (s : string) :
  (String.length s ≤ n)%nat → slice_to n s = s.
Proof.
  revert s. induction n as [|n IH]; intros [|c s] Hs; cbn in *; try done.
  - lia.
  - rewrite IH; [done | lia].
Qed.

Lemma slice_to_nonempty (n : nat) (s : string) :
  s ≠ "" → slice_to (S n) s ≠ "".
Proof. by destruct s. Qed.

Lemma or_else_nonempty (a b : string) : b ≠ "" → or_else a b ≠ "".
Proof. unfold or_else. by destruct a. Qed.

(** X19. When the command of an action has ended, the footer reports it:
    the label and OK for exit code 0; otherwise the label, the word
    failed and a detail that is never empty and never longer than 80
    characters: the start of the trimmed error output, or of the trimmed
    output when there is no error output, or of the exit code when there
    is neither. Confirmation, view and text are left alone. *)
Theorem action_outcome_in_footer
    (String_ : Z → string) (host : Host) (label_ : string)
    (res : ExecResult) (o : Overlay) :
  let o' := runAction_settled String_ host label_ res o in
  let err := trim host (default "" (stderr res)) in
  let out := trim host (default "" (stdout res)) in
  (code res = 0 → footerMessage o' = Some (label_ +:+ " OK"))
  ∧ (code res ≠ 0 →
     ∃ detail,
       footerMessage o' = Some (label_ +:+ " failed: " +:+ detail)
       ∧ detail ≠ ""
       ∧ (String.length detail ≤ 80)%nat
       ∧ (err ≠ "" → detail = slice_to 80 err)
       ∧ (err = "" → out ≠ "" → detail = slice_to 80 out)
       ∧ (err = "" → out = "" →
          detail = slice_to 80 ("exit code " +:+ String_ (code res))))
  ∧ confirm o' = confirm o ∧ view o' = view o
  ∧ textViewLines o' = textViewLines o ∧ textScroll o' = textScroll o.
Proof.
  intros o' err out. subst o'. unfold runAction_settled.
  destruct (decide (code res = 0)) as [Hz|Hnz].
  { split_and!; done. }
  split_and!; [done| |done..].
  intros _. eexists. split; [done|]. fold err out.
  split_and!.
  - apply slice_to_nonempty, or_else_nonempty, or_else_nonempty. done.
  - apply slice_to_length.
  - intros Hne. unfold or_else at 1. by destruct err.
  - intros -> Hne. unfold or_else. cbn [truthy]. by destruct out.
  - by intros -> ->.
Qed.

(** ** The lines of a text view *)

Lemma action_outcome_in_footer_witness :
  (code two_lines = 0
   ∧ footerMessage (runAction_settled decimal sample_host "Merge"
                      two_lines idle) = Some "Merge OK")
  ∧ (code failed_result ≠ 0
     ∧ trim sample_host (default "" (stderr failed_result)) ≠ ""
     ∧ footerMessage (runAction_settled decimal sample_host "Stop"
                        failed_result idle) = Some "Stop failed: boom")
  ∧ (code silent_failure ≠ 0
     ∧ trim sample_host (default "" (stderr silent_failure)) = ""
     ∧ trim sample_host (default "" (stdout silent_failure)) = ""
     ∧ footerMessage (runAction_settled decimal sample_host "Retry"
                        silent_failure idle)
       = Some "Retry failed: exit code 2").
Proof.
  assert (code failed_result ≠ 0) as Hnz by discriminate.
  assert (trim sample_host (default "" (stderr failed_result)) ≠ "")
    as Herr by discriminate.
  assert (code silent_failure ≠ 0) as Hnz' by discriminate.
  destruct (action_outcome_in_footer decimal sample_host "Merge"
              two_lines idle) as (H1 & _).
  destruct (action_outcome_in_footer decimal sample_host "Stop"
              failed_result idle) as (_ & H2 & _).
  destruct (H2 Hnz) as (detail & Hd & _ & _ & Hfrom & _).
  destruct (action_outcome_in_footer decimal sample_host "Retry"
              silent_failure idle) as (_ & H2' & _).
  destruct (H2' Hnz') as (detail' & Hd' & _ & _ & _ & _ & Hcode).
  split; [split; [reflexivity | exact (H1 eq_refl)]|].
  split.
  - split; [exact Hnz|]. split; [exact Herr|].
    rewrite Hd, (Hfrom Herr). reflexivity.
  - split; [exact Hnz'|]. split; [reflexivity|]. split; [reflexivity|].
    rewrite Hd', (Hcode eq_refl eq_refl). reflexivity.
Defined.

Lemma split_lines_nonempty (cur s : string) : split_lines cur s ≠ [].
Proof.
  revert cur. induction s as [|c s IH]; intros cur; cbn; [done|].
  case_decide; [done | apply IH].
Qed.

Lemma concat_cons (sep x : string) (l : list string) :
  l ≠ [] → String.concat sep (x :: l) = x +:+ sep +:+ String.concat sep l.
Proof. by destruct l. Qed.

Lemma split_lines_join (cur s : string) :
  String.concat newline (split_lines cur s) = cur +:+ s.
Proof.
  revert cur. induction s as [|c s IH]; intros cur; cbn [split_lines].
  - cbn. by rewrite append_nil_r.
  - case_decide as Hc.
    + rewrite concat_cons by apply split_lines_nonempty.
      rewrite IH, append_nil_l. by subst c.
    + rewrite IH, append_assoc. done.
Qed.

Lemma chars_snoc (s : string) (c : ascii) :
  chars (s +:+ String c "") = chars s ++ [c].
Proof.
  induction s as [|d s IH]; [done|].
  rewrite append_cons. unfold chars in *. cbn. by rewrite IH.
Qed.

Lemma split_lines_chars (cur s l : string) :
  l ∈ split_lines cur s → line_feed ∉ chars cur → line_feed ∉ chars l.
Proof.
  revert cur. induction s as [|c s IH]; intros cur Hl Hcur; cbn in Hl.
  - by apply list_elem_of_singleton in Hl as ->.
  - case_decide as Hc.
    + apply elem_of_cons in Hl as [->|Hl]; [done|].
      apply (IH "" Hl). intros H. inversion H.
    + apply (IH _ Hl). rewrite chars_snoc.
      intros H. apply elem_of_app in H as [H|H]; [done|].
      apply list_elem_of_singleton in H. congruence.
Qed.

(** X20. When the command of a text view has ended, the view is no longer
    loading and has at least one line. After exit code 0 its lines are
    the output with every carriage return and line feed pair replaced by
    a line feed, or the text (no output) when that is empty, split at the
    line feeds: joined by line feeds they give that text back, and none
    holds a line feed. After any other exit code there are two lines.
    View, scroll position, confirmation and footer are left alone. *)
Theorem text_view_lines
    (String_ : Z → string) (command_ : list string) (res : ExecResult)
    (o : Overlay) :
  let o' := (runTextView_settled String_ command_ res o).1 in
  let out := replace_crlf (default "" (stdout res)) in
  textLoading o' = false
  ∧ textViewLines o' ≠ []
  ∧ (code res = 0 →
     String.concat newline (textViewLines o')
     = (if decide (out = "") then "(no output)" else out)
     ∧ ∀ l, l ∈ textViewLines o' → line_feed ∉ chars l)
  ∧ (code res ≠ 0 → length (textViewLines o') = 2%nat)
  ∧ view o' = view o ∧ textScroll o' = textScroll o
  ∧ confirm o' = confirm o ∧ footerMessage o' = footerMessage o.
Proof.
  intros o' out. subst o'. unfold runTextView_settled.
  cbn [fst textLoading textViewLines view textScroll confirm footerMessage].
  fold out.
  destruct (decide (code res = 0)) as [Hz|Hnz].
  - rewrite (bool_decide_eq_true_2 (code res = 0)) by done. cbn [negb].
    split_and!; try done.
    + apply split_lines_nonempty.
    + intros _. split.
      * rewrite split_lines_join, append_nil_l.
        destruct (decide (out = "")) as [He|He].
        -- by rewrite (bool_decide_eq_true_2 (out = "")).
        -- by rewrite (bool_decide_eq_false_2 (out = "")).
      * intros l Hl. apply (split_lines_chars _ _ _ Hl).
        intros H. inversion H.
  - rewrite (bool_decide_eq_false_2 (code res = 0)) by done. cbn [negb].
    split_and!; done.
Qed.

Lemma text_view_lines_witness :
  (code two_lines = 0
   ∧ textViewLines (runTextView_settled decimal ["loops"; "diff"; "wt-1"]
                      two_lines idle).1 = ["a"; "b"]
   ∧ String.concat newline
       (textViewLines (runTextView_settled decimal ["loops"; "diff"; "wt-1"]
                         two_lines idle).1)
     = "a" +:+ String line_feed "b")
  ∧ (code failed_result ≠ 0
     ∧ length (textViewLines
                 (runTextView_settled decimal ["loops"; "diff"; "wt-1"]
                    failed_result idle).1) = 2%nat).
Proof.
  assert (code failed_result ≠ 0) as Hnz by discriminate.
  destruct (text_view_lines decimal ["loops"; "diff"; "wt-1"] two_lines idle)
    as (_ & _ & H3 & _).
  destruct (text_view_lines decimal ["loops"; "diff"; "wt-1"] failed_result
              idle) as (_ & _ & _ & H4 & _).
  split.
  - split; [reflexivity|]. split; [reflexivity|].
    exact (proj1 (H3 eq_refl)).
  - split; [exact Hnz | exact (H4 Hnz)].
Defined.

End overlay_outcomes.

(** ** What the overlay draws *)

Section overlay_render.
Import Overlay OverlayView.

Lemma content_rows_length (n : Z) (line : Z → string) :
  0 ≤ n → Z.of_nat (length (content_rows n line)) = n.
Proof.
  intros Hn. unfold content_rows. rewrite length_fmap, length_seq. lia.
Qed.

Lemma loopIndex_keeps (String_ : Z → string) (st : State) :
  loops (loopIndex String_ st).1 = loops st
  ∧ notifications (loopIndex String_ st).1 = notifications st.
Proof.
  unfold loopIndex. destruct (getFocused_keeps st) as [H1 H2].
  destruct (getFocused st).2; [case_decide|]; done.
Qed.

(** X21. [render] throws for a width below 2, before it has touched
    anything. For every other width it returns the lines of the overlay,
    7 more than the rows it gives to the terminal, so one more than the
    height it computed for the overlay whenever that height is 9 or
    more; it remembers the size it computed, changes no loop and notifies
    nobody. The terminal is never given fewer than 3 rows or 20
    columns. *)
Theorem render_line_count
    (ui : Widget.Ui) (String_ : Z → string) (term : Terminal)
    (width : Z) (o : Overlay) (sv : option SessionView) (lay : Layout)
    (st : State) :
  let dims := overlayColsRows term in
  3 ≤ termRows dims ∧ 20 ≤ cols dims
  ∧ (width < 2 → render ui String_ term width o sv lay st = None)
  ∧ (2 ≤ width →
     ∃ r, render ui String_ term width o sv lay st = Some r
          ∧ Z.of_nat (length (lines r)) = termRows dims + 7
          ∧ (9 ≤ overlayRows dims →
             Z.of_nat (length (lines r)) = overlayRows dims + 1)
          ∧ layout r = mkLayout (cols dims) (termRows dims)
          ∧ loops (managerAfter r) = loops st
          ∧ notifications (managerAfter r) = notifications st).
Proof.
  intros dims.
  assert (termRows dims = Z.max 3 (rows term * 90 / 100 - 6)
          ∧ cols dims = Z.max 20 (columns term * 92 / 100 - 4)
          ∧ overlayRows dims = rows term * 90 / 100)
    as (Htr & Hco & Hor) by done.
  assert (3 ≤ termRows dims) as Hrows by lia.
  split_and!; [done|lia| |].
  - intros Hw. unfold render, repeat_.
    destruct (Z.ltb_spec (width - 2) 0); [done | lia].
  - intros Hw. unfold render, repeat_.
    destruct (Z.ltb_spec (width - 2) 0); [lia|].
    eexists. split; [reflexivity|]. cbn [lines layout managerAfter]. fold dims.
    assert (∀ c1 c2 c3 : list string,
              Z.of_nat (length c1) = termRows dims →
              Z.of_nat (length c2) = termRows dims →
              Z.of_nat (length c3) = termRows dims →
              ∀ b1 b2 : bool,
              Z.of_nat (length (if b1 then c1 else if b2 then c2 else c3))
              = termRows dims) as Hcontent.
    { intros c1 c2 c3 H1 H2 H3 [] []; done. }
    split_and!.
    + rewrite length_app, length_app. cbn [length].
      rewrite !Nat2Z.inj_add.
      rewrite Hcontent; [lia|apply content_rows_length; lia..].
    + intros Hbig. rewrite length_app, length_app. cbn [length].
      rewrite !Nat2Z.inj_add.
      rewrite Hcontent; [|apply content_rows_length; lia..].
      lia.
    + destruct (_ || _) eqn:Hch; [done|].
      apply orb_false_iff in Hch as [H1 H2].
      apply negb_false_iff, bool_decide_eq_true in H1, H2.
      destruct lay. cbn in *. by rewrite H1, H2.
    + destruct (getFocused_keeps st) as [H1 _].
      destruct (getFocused st).2; [|done].
      by rewrite (proj1 (loopIndex_keeps _ _)).
    + destruct (getFocused_keeps st) as [_ H2].
      destruct (getFocused st).2; [|done].
      by rewrite (proj2 (loopIndex_keeps _ _)).
Qed.

Lemma render_line_count_witness :
  (2 ≤ 60
   ∧ 9 ≤ overlayRows (overlayColsRows terminal)
   ∧ ∃ r, render plain_ui decimal terminal 60 idle None (mkLayout 0 0)
            two_started = Some r
          ∧ Z.of_nat (length (lines r)) = 37
          ∧ loops (managerAfter r) = loops two_started)
  ∧ (1 < 2
     ∧ render plain_ui decimal terminal 1 idle None (mkLayout 0 0)
         two_started = None).
Proof.
  assert (2 ≤ 60) as Hw by discriminate.
  assert (9 ≤ overlayRows (overlayColsRows terminal)) as Hrows
    by (vm_compute; discriminate).
  assert (1 < 2) as Hnarrow by reflexivity.
  destruct (render_line_count plain_ui decimal terminal 60 idle None
              (mkLayout 0 0) two_started) as (_ & _ & _ & H4).
  destruct (H4 Hw) as (r & Hr & _ & Hlen & _ & Hloops & _).
  destruct (render_line_count plain_ui decimal terminal 1 idle None
              (mkLayout 0 0) two_started) as (_ & _ & H3 & _).
  split.
  - split; [exact Hw|]. split; [exact Hrows|].
    exists r. split; [exact Hr|]. split; [exact (Hlen Hrows) | exact Hloops].
  - split; [exact Hnarrow | exact (H3 Hnarrow)].
Defined.

Lemma findIndex_unique (ls : list TrackedLoop) (k : nat) (x : TrackedLoop) :
  NoDup (ids ls) → ls !! k = Some x →
  findIndex (λ l, bool_decide (id l = id x)) ls = Some k.
Proof.
  intros Hnd Hk.
  assert (x ∈ ls) as Hin by by eapply list_elem_of_lookup_2.
  destruct (findIndex _ ls) as [i|] eqn:Hi.
  - destruct (findIndex_Some _ _ _ Hi) as (y & Hy & Hp & _).
    apply bool_decide_eq_true in Hp. f_equal.
    eapply (NoDup_lookup (ids ls)); [done| |].
    + unfold ids. by rewrite list_lookup_fmap, Hy.
    + unfold ids. rewrite list_lookup_fmap, Hk. simpl. by rewrite Hp.
  - pose proof (findIndex_None _ _ Hi x Hin) as Hp.
    by apply bool_decide_eq_false in Hp.
Qed.

Lemma active_ids_NoDup (ls : list TrackedLoop) :
  NoDup (ids ls) → NoDup (ids (active ls)).
Proof.
  unfold ids, active. induction ls as [|l ls IH]; intros Hnd; [done|].
  csimpl in *. apply NoDup_cons in Hnd as [Hl Hnd].
  destruct (removed l); simpl; [by apply IH|].
  csimpl. apply NoDup_cons. split; [|by apply IH].
  intros Hin. apply Hl. apply list_elem_of_fmap in Hin as (y & Hy & Hin).
  apply list_elem_of_fmap. exists y. split; [done|].
  apply list_elem_of_In, List.filter_In in Hin as [Hin _].
  by apply list_elem_of_In.
Qed.

(** X22. In every state the manager reaches, the position that the
    overlay shows for the focused loop is the cursor: with no active loop
    the text is 0/0, and otherwise it is the stored cursor plus one, a
    slash and the number of active loops. *)
Theorem loopIndex_is_cursor (String_ : Z → string) (st : State) :
  reachable st →
  (active (loops st) = [] → (loopIndex String_ st).2 = "0/0")
  ∧ (active (loops st) ≠ [] →
     (loopIndex String_ st).2
     = String_ (focusedIndex st + 1) +:+ "/"
       +:+ String_ (Z.of_nat (length (active (loops st)))))
  ∧ (loopIndex String_ st).1 = (getFocused st).1.
Proof.
  intros Hreach. destruct (reachable_invariant st Hreach) as [Hnd Hf].
  unfold focus_in_range in Hf. unfold loopIndex, getLoops.
  split_and!.
  - intros Hnil. unfold getFocused, getLoops. by rewrite Hnil.
  - intros Hne.
    assert (0 ≤ focusedIndex st < Z.of_nat (length (active (loops st))))
      as Hr.
    { destruct (active (loops st)); [done|]. simpl in *. lia. }
    rewrite (getFocused_in_range st Hr). cbn [fst snd].
    unfold at_index. destruct (Z.ltb_spec (focusedIndex st) 0); [lia|].
    destruct (lookup_lt_is_Some_2 (active (loops st))
                (Z.to_nat (focusedIndex st)) ltac:(lia)) as [x Hx].
    rewrite Hx. rewrite decide_False by lia.
    rewrite (findIndex_unique _ _ _ (active_ids_NoDup _ Hnd) Hx).
    rewrite Z2Nat.id by lia. done.
  - destruct (getFocused st).2; [case_decide|]; done.
Qed.

Lemma loopIndex_is_cursor_witness :
  (reachable two_started
   ∧ active (loops two_started) ≠ []
   ∧ (loopIndex decimal two_started).2 = "1/2")
  ∧ (reachable init
     ∧ active (loops init) = []
     ∧ (loopIndex decimal init).2 = "0/0").
Proof.
  assert (reachable two_started) as Hreach
    by (apply reach_upsertToolLoop, reach_upsertToolLoop, reach_init).
  assert (active (loops two_started) ≠ []) as Hne by discriminate.
  destruct (loopIndex_is_cursor decimal two_started Hreach) as (_ & H2 & _).
  destruct (loopIndex_is_cursor decimal init reach_init) as (H1 & _).
  split.
  - split; [exact Hreach|]. split; [exact Hne | exact (H2 Hne)].
  - split; [exact reach_init|]. split; [reflexivity | exact (H1 eq_refl)].
Defined.

Lemma tildePath_nonempty (home : option string) (p : string) :
  p ≠ "" → Widget.tildePath home (Some p) ≠ "".
Proof.
  intros Hp. unfold Widget.tildePath. destruct p as [|c p]; [done|].
  cbn [truthy negb]. destruct home as [h|]; [|done].
  by destruct (truthy (Some h) && _).
Qed.


(** X23. The header of the overlay and the line of the widget show the
    same path for a loop that has one: the worktree when it is known and
    not empty, else the directory when it is known and not empty, with a
    leading home directory written as a tilde. They differ when neither
    is known: the header abbreviates the identity of the loop, the widget
    shows it as it is; and when the worktree is the empty string, where
    the header is empty and the widget shows the identity. *)
Theorem header_and_widget_path (home : option string) (loop : TrackedLoop) :
  (∀ w, worktree loop = Some w → w ≠ "" →
     loopHeader home loop = Widget.tildePath home (Some w)
     ∧ Widget.path home loop = Widget.tildePath home (Some w))
  ∧ (∀ d, worktree loop = None → directory loop = Some d → d ≠ "" →
       loopHeader home loop = Widget.tildePath home (Some d)
       ∧ Widget.path home loop = Widget.tildePath home (Some d))
  ∧ (worktree loop = None → directory loop = None →
     loopHeader home loop = Widget.tildePath home (Some (id loop))
     ∧ Widget.path home loop = id loop)
  ∧ (worktree loop = Some "" →
     loopHeader home loop = "" ∧ Widget.path home loop = id loop).
Proof.
  unfold loopHeader, Widget.path, Widget.loopDisplayPath, Widget.nonempty.
  split_and!.
  - intros w -> Hw. split; [done|].
    pose proof (tildePath_nonempty home w Hw) as Hne.
    by destruct (Widget.tildePath home (Some w)).
  - intros d -> -> Hd. split; [done|].
    pose proof (tildePath_nonempty home d Hd) as Hne.
    by destruct (Widget.tildePath home (Some d)).
  - by intros -> ->.
  - by intros ->.
Qed.

Lemma header_and_widget_path_witness :
  (worktree worktree_loop = None
   ∧ directory worktree_loop = Some "/p"
   ∧ loopHeader (Some "/home/dev") worktree_loop = "/p"
   ∧ Widget.path (Some "/home/dev") worktree_loop = "/p")
  ∧ (worktree home_loop = Some "/home/dev/proj/.worktrees/wt-7"
     ∧ loopHeader (Some "/home/dev") home_loop = "~/proj/.worktrees/wt-7"
     ∧ Widget.path (Some "/home/dev") home_loop = "~/proj/.worktrees/wt-7")
  ∧ (worktree (candidate "/home/dev/x" None) = None
     ∧ directory (candidate "/home/dev/x" None) = None
     ∧ loopHeader (Some "/home/dev") (candidate "/home/dev/x" None) = "~/x"
     ∧ Widget.path (Some "/home/dev") (candidate "/home/dev/x" None)
       = "/home/dev/x")
  ∧ (worktree blank_worktree = Some ""
     ∧ loopHeader (Some "/home/dev") blank_worktree = ""
     ∧ Widget.path (Some "/home/dev") blank_worktree = "wt-5").
Proof.
  destruct (header_and_widget_path (Some "/home/dev") worktree_loop)
    as (_ & H2 & _).
  destruct (header_and_widget_path (Some "/home/dev") home_loop)
    as (H1 & _).
  destruct (header_and_widget_path (Some "/home/dev")
              (candidate "/home/dev/x" None)) as (_ & _ & H3 & _).
  destruct (header_and_widget_path (Some "/home/dev") blank_worktree)
    as (_ & _ & _ & H4).
  split.
  { split; [reflexivity|]. split; [reflexivity|].
    exact (H2 "/p" eq_refl eq_refl ltac:(discriminate)). }
  split.
  { split; [reflexivity|].
    exact (H1 "/home/dev/proj/.worktrees/wt-7" eq_refl ltac:(discriminate)). }
  split.
  { split; [reflexivity|]. split; [reflexivity|].
    exact (H3 eq_refl eq_refl). }
  split; [reflexivity | exact (H4 eq_refl)].
Defined.

End overlay_render.

(** ** The widget, the command line, the waiting loop and the persisted focus *)

(** ** The widget *)

Section widget.
Import Widget.

Lemma round_half_even_bounds (num den : Z) :
  0 < den →
  num / den ≤ round_half_even num den ≤ num / den + 1
  ∧ (round_half_even num den = num / den + 1 → den ≤ 2 * (num mod den)).
Proof.
  intros Hden. unfold round_half_even.
  destruct (2 * (num mod den) <? den) eqn:H1; [lia|].
  apply Z.ltb_ge in H1.
  destruct (den <? 2 * (num mod den)); [lia|].
  destruct (Z.even (num / den)); lia.
Qed.

(** Below [2 ^ 53] the rounding of the quotient does not reach the next
    integer: the quotient is at least a sixtieth below it, and the
    doubles there are at most a thirty-second apart. *)
Lemma floor_div_exact (a : Z) :
  0 ≤ a < 2 ^ 53 → floor_div a 60 = a / 60.
Proof.
  intros [H0 H53]. unfold floor_div.
  destruct (a <=? 0) eqn:Ha.
  { apply Z.leb_le in Ha. assert (a = 0) as -> by lia. done. }
  apply Z.leb_gt in Ha.
  assert (binade a 60 ≤ 47) as He.
  { unfold binade.
    assert (Z.log2 a < 53) by (apply Z.log2_lt_pow2; lia).
    change (Z.log2 60) with 5.
    destruct (_ <=? _); lia. }
  set (p := binade a 60 - 52) in *.
  assert (p ≤ -5) as Hp by lia.
  rewrite (Z.max_l 0 p), (Z.max_r 0 (- p)) by lia.
  rewrite Z.pow_0_r, !Z.mul_1_r.
  set (K := 2 ^ (- p)).
  assert (32 ≤ K) as HK.
  { subst K. change 32 with (2 ^ 5). apply Z.pow_le_mono_r; lia. }
  destruct (round_half_even_bounds (a * K) 60 ltac:(lia)) as [Hm Hup].
  set (m := round_half_even (a * K) 60) in *.
  pose proof (Z.div_mod a 60 ltac:(lia)) as Hq.
  pose proof (Z.mod_pos_bound a 60 ltac:(lia)) as Ht.
  set (d := a / 60) in *. set (t := a mod 60) in *.
  pose proof (Z.div_mod (a * K) 60 ltac:(lia)) as Hf.
  pose proof (Z.mod_pos_bound (a * K) 60 ltac:(lia)) as Hr.
  set (f := a * K / 60) in *. set (r := (a * K) mod 60) in *.
  symmetry. apply Z.div_unique with (r := m - d * K); [|lia].
  assert (d * K ≤ f) by nia.
  assert (f ≤ d * K + K - 1) by nia.
  assert (m ≤ d * K + K - 1).
  { destruct (decide (m = f + 1)) as [Hm1|]; [|lia].
    specialize (Hup Hm1). nia. }
  left. lia.
Qed.

(** X24. [formatDuration] writes 0s for a number that is not finite or
    not positive; the whole seconds alone below a minute; minutes and
    seconds below an hour; and from an hour on the hours and the minutes
    of the hour, without the seconds. The parts are those of the whole
    seconds [s]: [s / 60] and [s mod 60], [s / 3600] and
    [(s mod 3600) / 60], as long as [s] is below [2 ^ 53], where the
    divisions of doubles give the whole quotient. *)
Theorem formatDuration_ranges (String_ : Z → string) (q : Q) :
  formatDuration String_ NotFinite = "0s"
  ∧ ((q <= 0)%Q → formatDuration String_ (Finite q) = "0s")
  ∧ ((0 < q)%Q → Qfloor q < 60 →
     formatDuration String_ (Finite q) = String_ (Qfloor q) +:+ "s")
  ∧ (60 ≤ Qfloor q < 3600 →
     formatDuration String_ (Finite q)
     = String_ (Qfloor q / 60) +:+ "m"
       +:+ String_ ((Qfloor q) mod 60) +:+ "s")
  ∧ (3600 ≤ Qfloor q < 2 ^ 53 →
     formatDuration String_ (Finite q)
     = String_ (Qfloor q / 3600) +:+ "h"
       +:+ String_ (((Qfloor q) mod 3600) / 60) +:+ "m").
Proof.
  assert (∀ q : Q, (0 < q)%Q → Qle_bool q 0 = false ∧ 0 ≤ Qfloor q) as Hpos.
  { intros x Hx. split.
    - destruct (Qle_bool x 0) eqn:Hle; [|done].
      apply Qle_bool_iff in Hle. exfalso. by apply (Qlt_not_le 0 x).
    - change 0 with (Qfloor 0). apply Qfloor_resp_le. by apply Qlt_le_weak. }
  assert (∀ q : Q, 1 ≤ Qfloor q → (0 < q)%Q) as Hfloor.
  { intros x Hx. apply Qlt_le_trans with (y := inject_Z (Qfloor x)).
    - change 0%Q with (inject_Z 0). rewrite <- Zlt_Qlt. lia.
    - apply Qfloor_le. }
  split_and!.
  - done.
  - intros Hle. cbn [formatDuration].
    by rewrite (proj2 (Qle_bool_iff q 0) Hle).
  - intros Hq Hlt. destruct (Hpos q Hq) as [Hb Hs]. cbn [formatDuration].
    rewrite Hb. cbv zeta.
    rewrite (floor_div_exact (Qfloor q)) by lia.
    rewrite (Z.div_small (Qfloor q) 60) by lia.
    change (floor_div 0 60) with 0. change (0 <? 0) with false. cbv iota.
    rewrite Z.rem_small by lia. done.
  - intros Hr. destruct (Hpos q (Hfloor q ltac:(lia))) as [Hb Hs].
    cbn [formatDuration]. rewrite Hb. cbv zeta.
    rewrite (floor_div_exact (Qfloor q)) by lia.
    rewrite (floor_div_exact (Qfloor q / 60))
      by (split; [apply Z.div_pos; lia | apply Z.div_lt_upper_bound; lia]).
    assert (Qfloor q / 60 / 60 = 0) as ->.
    { apply Z.div_small. split; [apply Z.div_pos; lia|].
      apply Z.div_lt_upper_bound; lia. }
    change (0 <? 0) with false. cbv iota.
    assert ((0 <? Qfloor q / 60) = true) as ->.
    { apply Z.ltb_lt. apply Z.div_str_pos. lia. }
    rewrite Z.rem_mod_nonneg by lia. done.
  - intros Hr. destruct (Hpos q (Hfloor q ltac:(lia))) as [Hb Hs].
    cbn [formatDuration]. rewrite Hb. cbv zeta.
    rewrite (floor_div_exact (Qfloor q)) by lia.
    rewrite (floor_div_exact (Qfloor q / 60))
      by (split; [apply Z.div_pos; lia | apply Z.div_lt_upper_bound; lia]).
    rewrite Z.div_div by lia. change (60 * 60) with 3600.
    assert ((0 <? Qfloor q / 3600) = true) as ->.
    { apply Z.ltb_lt. apply Z.div_str_pos. lia. }
    rewrite Z.rem_mod_nonneg by (try apply Z.div_pos; lia).
    assert ((Qfloor q / 60) mod 60 = ((Qfloor q) mod 3600) / 60) as ->; [|done].
    pose proof (Z.div_mod (Qfloor q) 3600 ltac:(lia)) as Hdm.
    pose proof (Z.mod_pos_bound (Qfloor q) 3600 ltac:(lia)) as Hb1.
    set (a := Qfloor q / 3600) in *. set (b := (Qfloor q) mod 3600) in *.
    rewrite Hdm.
    replace (3600 * a + b) with (b + (a * 60) * 60) by lia.
    rewrite Z.div_add by lia.
    rewrite Z.add_mod by lia. rewrite Z.mod_mul by lia. rewrite Z.add_0_r.
    rewrite Z.mod_mod by lia. apply Z.mod_small.
    split; [apply Z.div_pos; lia | apply Z.div_lt_upper_bound; lia].
Qed.

Lemma formatDuration_ranges_witness :
  (3600 ≤ Qfloor (7384 # 1) < 2 ^ 53
   ∧ formatDuration decimal (Finite (7384 # 1)) = "2h3m")
  ∧ (60 ≤ Qfloor (251 # 2) < 3600
     ∧ formatDuration decimal (Finite (251 # 2)) = "2m5s")
  ∧ ((0 < 119 # 2)%Q ∧ Qfloor (119 # 2) < 60
     ∧ formatDuration decimal (Finite (119 # 2)) = "59s")
  ∧ ((-3 # 2 <= 0)%Q
     ∧ formatDuration decimal (Finite (-3 # 2)) = "0s").
Proof.
  assert (3600 ≤ Qfloor (7384 # 1) < 2 ^ 53) as Hh
    by (vm_compute; split; [discriminate | reflexivity]).
  assert (60 ≤ Qfloor (251 # 2) < 3600) as Hm
    by (vm_compute; split; [discriminate | reflexivity]).
  assert (0 < 119 # 2)%Q as Hpos by reflexivity.
  assert (Qfloor (119 # 2) < 60) as Hs by reflexivity.
  assert (-3 # 2 <= 0)%Q as Hneg by (vm_compute; discriminate).
  destruct (formatDuration_ranges decimal (7384 # 1)) as (_ & _ & _ & _ & H5).
  destruct (formatDuration_ranges decimal (251 # 2)) as (_ & _ & _ & H4 & _).
  destruct (formatDuration_ranges decimal (119 # 2)) as (_ & _ & H3 & _).
  destruct (formatDuration_ranges decimal (-3 # 2)) as (_ & H2 & _).
  split; [split; [exact Hh | exact (H5 Hh)]|].
  split; [split; [exact Hm | exact (H4 Hm)]|].
  split; [split; [exact Hpos | split; [exact Hs | exact (H3 Hpos Hs)]]|].
  split; [exact Hneg | exact (H2 Hneg)].
Defined.

(** From [2 ^ 53] on the quotient may be rounded up to the next integer:
    67553994410557496 seconds are 1125899906842624 whole minutes, 4 past
    the hour, and the division of doubles gives one minute more. *)
Lemma formatDuration_rounds_large :
  formatDuration decimal (Finite (67553994410557496 # 1))
  = "18764998447377h5m"
  ∧ (67553994410557496 / 60) mod 60 = 4.
Proof. split; vm_compute; reflexivity. Qed.

Lemma prefix_slice (h p : string) :
  String.prefix h p = true → p = h +:+ slice_from (String.length h) p.
Proof.
  revert p. induction h as [|c h IH]; intros p Hp; [done|].
  destruct p as [|c' p]; [done|]. cbn [String.prefix] in Hp.
  destruct (ascii_dec c c') as [->|]; [|done].
  cbn [String.length slice_from]. change (String c' h +:+ ?x) with (String c' (h +:+ x)).
  f_equal. by apply IH.
Qed.

(** X25. [tildePath] abbreviates without loss. For a path that does not
    itself begin with a tilde, putting the home directory back for the
    leading tilde of the result gives the path again. A path that begins
    with a non-empty home directory is shown as a tilde and the rest; a
    path that does not begin with it, or with no home directory known, is
    shown as it is; a missing path is shown as the empty string. *)
Theorem tildePath_round_trip (home p : string) :
  (startsWith p "~" = false →
   expand home (tildePath (Some home) (Some p)) = p)
  ∧ (home ≠ "" → startsWith p home = true →
     ∃ rest, p = home +:+ rest
             ∧ tildePath (Some home) (Some p) = "~" +:+ rest)
  ∧ (startsWith p home = false → tildePath (Some home) (Some p) = p)
  ∧ tildePath None (Some p) = p
  ∧ tildePath (Some home) None = "".
Proof.
  assert (startsWith p "~" = false → expand home p = p) as Hplain.
  { intros Htilde. destruct p as [|c p]; [done|]. cbn [expand].
    unfold startsWith in Htilde. cbn [String.prefix] in Htilde.
    destruct (ascii_dec "~" c) as [<-|Hne].
    - by destruct p.
    - destruct c as [[] [] [] [] [] [] [] []]; try done. }
  assert (tildePath None (Some p) = p) as Hnone by by destruct p.
  unfold tildePath. destruct p as [|c p]; cbn [truthy negb].
  { split_and!; try done. by destruct home. }
  set (path := String c p) in *.
  destruct home as [|d home]; cbn [truthy andb].
  { split_and!; done. }
  set (h := String d home) in *.
  unfold startsWith. destruct (String.prefix h path) eqn:Hpre.
  - pose proof (prefix_slice h path Hpre) as Heq.
    split_and!; try done.
    intros _ _. by exists (slice_from (String.length h) path).
  - split_and!; try done.
Qed.

Lemma tildePath_round_trip_witness :
  (startsWith "/home/dev/proj" "~" = false
   ∧ "/home/dev" ≠ ""
   ∧ startsWith "/home/dev/proj" "/home/dev" = true
   ∧ tildePath (Some "/home/dev") (Some "/home/dev/proj") = "~/proj"
   ∧ expand "/home/dev" (tildePath (Some "/home/dev") (Some "/home/dev/proj"))
     = "/home/dev/proj"
   ∧ ∃ rest, "/home/dev/proj" = "/home/dev" +:+ rest
             ∧ tildePath (Some "/home/dev") (Some "/home/dev/proj")
               = "~" +:+ rest)
  ∧ (startsWith "/srv/proj" "~" = false
     ∧ startsWith "/srv/proj" "/home/dev" = false
     ∧ tildePath (Some "/home/dev") (Some "/srv/proj") = "/srv/proj").
Proof.
  assert ("/home/dev" ≠ "") as Hhome by discriminate.
  destruct (tildePath_round_trip "/home/dev" "/home/dev/proj")
    as (H1 & H2 & _).
  destruct (tildePath_round_trip "/home/dev" "/srv/proj")
    as (_ & _ & H3 & _).
  split.
  - split; [reflexivity|]. split; [exact Hhome|]. split; [reflexivity|].
    split; [reflexivity|].
    split; [exact (H1 eq_refl) | exact (H2 Hhome eq_refl)].
  - split; [reflexivity|]. split; [reflexivity | exact (H3 eq_refl)].
Defined.

(** X26. The widget draws one line when a loop is active and nothing
    otherwise: the line is a text cut to the width it was given, and the
    manager is left as [getFocused] leaves it. *)
Theorem widget_shows_one_line
    (ui : Ui) (String_ : Z → string) (home : option string) (width : Z)
    (st : State) :
  let r := render ui String_ home width st in
  (r.2 = [] ↔ active (loops st) = [])
  ∧ (active (loops st) ≠ [] →
     ∃ text, r.2 = [truncateToWidth ui text width ""])
  ∧ r.1 = (getFocused st).1.
Proof.
  intros r. subst r. unfold render, getLoops.
  destruct (decide (length (active (loops st)) = O)) as [Hz|Hnz].
  - apply length_zero_iff_nil in Hz. split_and!; [done|done|].
    unfold getFocused, getLoops. by rewrite Hz.
  - assert (active (loops st) ≠ []) as Hne by (intros H; by rewrite H in Hnz).
    destruct (getFocused_Some st Hne) as [f Hf]. rewrite Hf.
    cbn [fst snd]. split_and!; [done| |done].
    intros _. eexists. done.
Qed.

Lemma widget_shows_one_line_witness :
  active (loops two_started) ≠ []
  ∧ ∃ text, (render plain_ui decimal (Some "/home/dev") 40 two_started).2
            = [truncateToWidth plain_ui text 40 ""].
Proof.
  assert (active (loops two_started) ≠ []) as Hne by discriminate.
  split; [exact Hne|].
  destruct (widget_shows_one_line plain_ui decimal (Some "/home/dev") 40
              two_started) as (_ & H2 & _).
  exact (H2 Hne).
Defined.

End widget.

(** ** The command line of a new loop *)

Section command_line.
Import LoopTool.

Lemma escaped_quote_app (x : string) :
  escaped_quote +:+ x
  = String "'"%char
      (String double_quote
         (String "'"%char (String double_quote (String "'"%char x)))).
Proof. reflexivity. Qed.

Lemma push_Some (w : string) (c : ascii) :
  Shell.push (Some w) c = Some (w +:+ String c "").
Proof. reflexivity. Qed.

Lemma scan_single (s w rest : string) :
  Shell.scan Shell.Single (Some w)
    (replace_quotes escaped_quote s +:+ String "'"%char rest)
  = Shell.scan Shell.Bare (Some (w +:+ s)) rest.
Proof.
  revert w. induction s as [|c s IH]; intros w.
  - cbn [replace_quotes]. rewrite append_nil_l. cbn [Shell.scan].
    rewrite decide_True by done. by rewrite append_nil_r.
  - cbn [replace_quotes]. destruct (decide (c = "'"%char)) as [->|Hc].
    + rewrite append_assoc, escaped_quote_app.
      cbn [Shell.scan].
      rewrite !decide_True by done. cbn [Shell.scan].
      rewrite decide_False by done.
      rewrite decide_False by done.
      rewrite decide_True by done.
      cbn [Shell.scan].
      rewrite decide_False by done.
      assert (Shell.special_in_double "'"%char = false) as -> by done.
      cbn [Shell.scan]. rewrite decide_True by done.
      cbn [Shell.scan]. rewrite decide_False by done.
      rewrite decide_True by done.
      change (default "" (Some w)) with w. rewrite push_Some.
      change (default "" (Some (w +:+ "'"))) with (w +:+ "'").
      rewrite IH. by rewrite append_assoc.
    + rewrite append_cons. cbn [Shell.scan]. rewrite decide_False by done.
      rewrite push_Some, IH. by rewrite append_assoc.
Qed.

Lemma scan_quoted (s : string) (cur : option string) (rest : string) :
  Shell.scan Shell.Bare cur (shQuote s +:+ rest)
  = Shell.scan Shell.Bare (Some (default "" cur +:+ s)) rest.
Proof.
  unfold shQuote. rewrite !append_assoc.
  change ("'" +:+ ?x) with (String "'"%char x).
  cbn [Shell.scan]. rewrite decide_False by done. rewrite decide_True by done.
  apply scan_single.
Qed.

Lemma words_quoted (args : list string) :
  Shell.scan Shell.Bare None (String.concat " " (shQuote <$> args))
  = Some args.
Proof.
  induction args as [|a args IH]; [done|].
  destruct args as [|b args].
  - cbn [fmap list_fmap String.concat].
    rewrite <- (append_nil_r (shQuote a)), scan_quoted. cbn.
    by rewrite append_nil_l.
  - change (String.concat " " (shQuote <$> a :: b :: args))
      with (shQuote a +:+ String " "%char
              (String.concat " " (shQuote <$> b :: args))).
    rewrite scan_quoted. cbn [Shell.scan]. rewrite decide_True by done.
    rewrite IH. cbn. by rewrite append_nil_l.
Qed.

Lemma scan_program (x : string) :
  Shell.scan Shell.Bare None ("ralph" +:+ " " +:+ x)
  = (λ ws, "ralph" :: ws) <$> Shell.scan Shell.Bare None x.
Proof. reflexivity. Qed.

(** X27. The command line that the tool builds is read by the shell as
    the words it was built from, whatever characters the prompt, the
    config, the agent or the extra arguments hold: the program, [run],
    [-p] and the prompt as one word, then the options that are set. *)
Theorem command_line_round_trip (String_ : Z → string)
    (params : RalphLoopInput) :
  Shell.words (buildRalphRunCommand String_ params)
  = Some (command_parts String_ params)
  ∧ take 4 (command_parts String_ params)
    = ["ralph"; "run"; "-p"; p_prompt params].
Proof.
  split; [|done]. unfold buildRalphRunCommand, Shell.words.
  unfold command_parts. cbn [app].
  by rewrite scan_program, words_quoted.
Qed.

End command_line.

(** ** Waiting for the identity of a new loop *)

Section waiting.
Import LoopTool.

Lemma extractLoopIds_nonempty (host : Host) (text : string) (ids_ : list string) :
  extractLoopIds host text = Some ids_ → Forall (λ i, i ≠ "") ids_.
Proof.
  unfold extractLoopIds. destruct (negb _); [by intros [= <-]|].
  destruct (JSON_parse host _) as [[]|]; try (by intros [= <-]).
  intros [= <-]. apply Forall_forall. intros i Hi.
  apply list_elem_of_omap in Hi as (item & _ & Hi).
  unfold item_id in Hi.
  destruct (match as_string (prop item "id") with
            | Some s => Some s
            | None => as_string (prop item "loop_id")
            end) as [[|c s]|]; cbn in Hi; [done| |done].
  by injection Hi as <-.
Qed.

(** X28. [waitForNewLoopId] returns only an identity that is new: it is
    not empty, and it was not listed before or differs from the one that
    was on file before. When
    every turn of the loop comes at least 400 ms after the one before,
    the function has returned once the time-out has passed: it needs no
    more than one turn for every 400 ms of the time-out and one more.
    And a turn at which the time-out has passed returns none at
    once. *)
Theorem wait_finds_a_new_identity
    (host : Host) (beforeIds : gset string) (beforePrimaryId : option string)
    (timeoutMs started : Z) (turns : list Turn) :
  (∀ i, waitForNewLoopId host beforeIds beforePrimaryId timeoutMs started
          turns = Some (Normal (Some i)) →
        i ≠ "" ∧ (i ∉ beforeIds ∨ Some i ≠ beforePrimaryId))
  ∧ (paced started turns →
     timeoutMs ≤ 400 * (Z.of_nat (length turns) - 1) →
     turns ≠ [] →
     is_Some (waitForNewLoopId host beforeIds beforePrimaryId timeoutMs
                started turns))
  ∧ (∀ turn rest, turns = turn :: rest → timeoutMs ≤ clock turn - started →
       waitForNewLoopId host beforeIds beforePrimaryId timeoutMs started
         turns = Some (Normal None)).
Proof.
  split_and!.
  - induction turns as [|turn rest IH]; intros i; [done|].
    cbn [waitForNewLoopId].
    destruct (clock turn - started <? timeoutMs); [|done].
    destruct (listing turn) as [code out|message]; [|done].
    destruct (decide (code = 0)) as [Hz|Hnz].
    + destruct (extractLoopIds host (default "" out)) as [afterIds|] eqn:He.
      * destruct (first_new beforeIds afterIds) as [j|] eqn:Hj.
        -- intros [= <-]. unfold first_new in Hj.
           apply head_Some_elem_of, list_elem_of_filter in Hj as [Hnew Hin].
           pose proof (extractLoopIds_nonempty _ _ _ He) as Hall.
           rewrite Forall_forall in Hall. split; [by apply Hall | by left].
        -- destruct (truthy _ && _) eqn:Hc; [|apply IH].
           apply andb_true_iff in Hc as [Ht Hne].
           apply negb_true_iff, bool_decide_eq_false in Hne.
           destruct (trim host <$> idFile turn) as [[|c s]|]; try done.
           intros [= <-]. split; [done | by right].
      * destruct (truthy _ && _) eqn:Hc; [|apply IH].
        apply andb_true_iff in Hc as [Ht Hne].
        apply negb_true_iff, bool_decide_eq_false in Hne.
        destruct (trim host <$> idFile turn) as [[|c s]|]; try done.
        intros [= <-]. split; [done | by right].
    + destruct (truthy _ && _) eqn:Hc; [|apply IH].
      apply andb_true_iff in Hc as [Ht Hne].
      apply negb_true_iff, bool_decide_eq_false in Hne.
      destruct (trim host <$> idFile turn) as [[|c s]|]; try done.
      intros [= <-]. split; [done | by right].
  - revert started timeoutMs.
    induction turns as [|turn rest IH]; intros started timeoutMs Hp Hlen Hne;
      [done|].
    cbn [waitForNewLoopId].
    destruct (Z.ltb_spec (clock turn - started) timeoutMs) as [Hlt|Hge];
      [|done].
    destruct (listing turn) as [code out|message]; [|done].
    assert (is_Some (waitForNewLoopId host beforeIds beforePrimaryId
                       timeoutMs started rest)) as Hrest.
    { destruct rest as [|turn' rest'].
      - exfalso. pose proof (Hp O turn eq_refl). cbn in Hlen. lia.
      - assert (waitForNewLoopId host beforeIds beforePrimaryId timeoutMs
                  started (turn' :: rest')
                = waitForNewLoopId host beforeIds beforePrimaryId
                    (timeoutMs - 400) (started + 400) (turn' :: rest'))
          as ->.
        { clear. generalize (turn' :: rest'). intros l.
          induction l as [|t l IHl]; [done|]. cbn [waitForNewLoopId].
          replace (clock t - (started + 400) <? timeoutMs - 400)
            with (clock t - started <? timeoutMs).
          2:{ destruct (Z.ltb_spec (clock t - started) timeoutMs),
                (Z.ltb_spec (clock t - (started + 400)) (timeoutMs - 400));
                try done; lia. }
          by rewrite IHl. }
        apply IH; [|cbn [length] in *; lia|done].
        intros k t Hk. pose proof (Hp (S k) t Hk). lia. }
    destruct (if decide (code = 0) then _ else _); [done|].
    by destruct (truthy _ && _).
  - intros turn rest -> Hge. cbn [waitForNewLoopId].
    destruct (Z.ltb_spec (clock turn - started) timeoutMs); [lia | done].
Qed.

Lemma wait_finds_a_new_identity_witness :
  (waitForNewLoopId sample_host ∅ None 5000 1000 two_turns
   = Some (Normal (Some "primary-20260207-x"))
   ∧ "primary-20260207-x" ≠ ""
   ∧ (("primary-20260207-x" ∉ (∅ : gset string))
      ∨ Some "primary-20260207-x" ≠ (None : option string)))
  ∧ (paced 1000 two_turns
     ∧ 400 ≤ 400 * (Z.of_nat (length two_turns) - 1)
     ∧ two_turns ≠ []
     ∧ is_Some (waitForNewLoopId sample_host ∅ None 400 1000 two_turns))
  ∧ (300 ≤ clock (mkTurn 1400 (Exited 0 (Some "[]")) None) - 1000
     ∧ waitForNewLoopId sample_host ∅ None 300 1000
         [mkTurn 1400 (Exited 0 (Some "[]")) None] = Some (Normal None)).
Proof.
  assert (waitForNewLoopId sample_host ∅ None 5000 1000 two_turns
          = Some (Normal (Some "primary-20260207-x"))) as Hrun
    by reflexivity.
  assert (paced 1000 two_turns) as Hpaced.
  { intros k turn Hk. destruct k as [|[|k]]; cbn in Hk.
    - inversion Hk. vm_compute. discriminate.
    - inversion Hk. vm_compute. discriminate.
    - discriminate Hk. }
  assert (400 ≤ 400 * (Z.of_nat (length two_turns) - 1)) as Hlong
    by (vm_compute; discriminate).
  assert (two_turns ≠ []) as Hne by discriminate.
  assert (300 ≤ clock (mkTurn 1400 (Exited 0 (Some "[]")) None) - 1000)
    as Hlate by (vm_compute; discriminate).
  destruct (wait_finds_a_new_identity sample_host ∅ None 5000 1000
              two_turns) as (H1 & _).
  destruct (wait_finds_a_new_identity sample_host ∅ None 400 1000
              two_turns) as (_ & H2 & _).
  destruct (wait_finds_a_new_identity sample_host ∅ None 300 1000
              [mkTurn 1400 (Exited 0 (Some "[]")) None]) as (_ & _ & H3).
  split; [split; [exact Hrun | exact (H1 _ Hrun)]|].
  split.
  - split; [exact Hpaced|]. split; [exact Hlong|]. split; [exact Hne|].
    exact (H2 Hpaced Hlong Hne).
  - split; [exact Hlate | exact (H3 _ _ eq_refl Hlate)].
Defined.

End waiting.

(** ** The focus kept across sessions *)

Section persistence.
Import Extension.

Lemma restoredFocusId_app (branch more : list Entry) :
  restoredFocusId (branch ++ more)
  = fold_left
      (λ restored entry,
         if bool_decide (entry_type entry = "custom")
            && bool_decide (customType entry = Some STATE_TYPE)
         then
           match as_string (prop (data entry) "focusedId") with
           | Some i => if truthy (Some i) then Some i else restored
           | None => restored
           end
         else restored)
      more (restoredFocusId branch).
Proof. unfold restoredFocusId. by rewrite fold_left_app. Qed.

Lemma persistFocus_restores (st : State) (last : option string)
    (branch : list Entry) :
  restoredFocusId branch = last →
  restoredFocusId (branch ++ (persistFocus st last).1.2)
  = (persistFocus st last).2.
Proof.
  intros Hlast. unfold persistFocus.
  destruct (truthy (id <$> (getFocused st).2)
            && negb (bool_decide (id <$> (getFocused st).2 = last))) eqn:Hc.
  - cbn [fst snd]. rewrite restoredFocusId_app. cbn [fold_left].
    apply andb_true_iff in Hc as [Ht _].
    destruct (id <$> (getFocused st).2) as [[|c i]|]; done.
  - cbn [fst snd]. by rewrite app_nil_r.
Qed.

(** X29. What a session persists of the focus is what the next session
    restores. Start with the identity restored from a branch; let the
    listener run at any number of notifications, with the manager in any
    state at each; then the identity restored from the branch with the
    entries the listener appended is the one the listener remembered
    last. The listener appends at most one entry for each
    notification. *)
Theorem persisted_focus_is_restored
    (branch : list Entry) (sts : list State) :
  let r := persisted sts (restoredFocusId branch) in
  restoredFocusId (branch ++ r.1) = r.2
  ∧ (length r.1 ≤ length sts)%nat.
Proof.
  revert branch. induction sts as [|st sts IH]; intros branch r; subst r.
  - cbn. by rewrite app_nil_r.
  - cbn [persisted fst snd].
    pose proof (persistFocus_restores st (restoredFocusId branch) branch
                  eq_refl) as Hstep.
    destruct (IH (branch ++ (persistFocus st (restoredFocusId branch)).1.2))
      as [H1 H2].
    rewrite Hstep in H1, H2. rewrite app_assoc. split; [done|].
    rewrite length_app. cbn [length].
    assert (length (persistFocus st (restoredFocusId branch)).1.2 ≤ 1)%nat.
    { unfold persistFocus. destruct (_ && _); cbn; lia. }
    lia.
Qed.

End persistence.
